(** * A lexical analyzer for a small Pascal-like language

    Shallow embedding of the two tokenizers of the repository,
    [src/lexer.py] (the richer variant, module [Lexer]) and
    [src/Analizador_Léxico.py] (the minimal variant, module [Analizador]),
    and the properties of their driving loops.

    A Python [str] is a sequence of Unicode code points: a text is a
    [list N].  Rule names and token categories are literal constants of the
    program and are kept as [string].  Line and column numbers are Python
    integers, modelled in [Z]. *)

From Stdlib Require Import List NArith ZArith String Ascii Bool Lia.
From Stdlib Require Import DecimalString Sorted.
Import ListNotations.

Local Open Scope N_scope.

(** ** Texts *)

Definition char := N.
Definition text := list char.

(** A literal of the program, as a text (the literals of the program are
    ASCII). *)
Definition py (s : string) : text := map N_of_ascii (list_ascii_of_string s).

Definition TAB : char := 9.
Definition LF : char := 10.
Definition CR : char := 13.
Definition QUOTE : char := 34.

Fixpoint text_eqb (a b : text) : bool :=
  match a, b with
  | [], [] => true
  | x :: a', y :: b' => (x =? y) && text_eqb a' b'
  | _, _ => false
  end.

(** [len(x)] as a Python integer. *)
Definition len {A : Type} (l : list A) : Z := Z.of_nat (List.length l).

(** ** The fragment of Python's [re] used by the rule tables

    Repetition only occurs over character sets in the patterns of the two
    tables, which keeps the matcher structurally recursive. *)

Inductive item : Type :=
| Ch (c : char)                (* a single character *)
| Range (lo hi : char)         (* lo-hi *)
| Digit.                       (* \d *)

Inductive cset : Type :=
| CSet (negated : bool) (items : list item).

Inductive regex : Type :=
| Chr (c : char)               (* a literal character *)
| Cls (cs : cset)              (* [...] , [^...] or \d *)
| Cat (r1 r2 : regex)          (* r1 r2 *)
| Alt (r1 r2 : regex)          (* r1|r2, left alternative first *)
| Opt (r : regex)              (* (r)?, greedy *)
| Star (cs : cset)             (* cs*, greedy *)
| Plus (cs : cset).            (* cs+, greedy *)

(** [\d] on a [str] pattern is the Unicode category Nd.  The ranges are those
    of the Unicode database 14.0 shipped with CPython 3.11; below 128 they
    are exactly [0-9]. *)
Definition unicode_Nd : list (char * char) :=
  [(48, 57); (1632, 1641); (1776, 1785); (1984, 1993); (2406, 2415);
   (2534, 2543); (2662, 2671); (2790, 2799); (2918, 2927); (3046, 3055);
   (3174, 3183); (3302, 3311); (3430, 3439); (3558, 3567); (3664, 3673);
   (3792, 3801); (3872, 3881); (4160, 4169); (4240, 4249); (6112, 6121);
   (6160, 6169); (6470, 6479); (6608, 6617); (6784, 6793); (6800, 6809);
   (6992, 7001); (7088, 7097); (7232, 7241); (7248, 7257); (42528, 42537);
   (43216, 43225); (43264, 43273); (43472, 43481); (43504, 43513);
   (43600, 43609); (44016, 44025); (65296, 65305); (66720, 66729);
   (68912, 68921); (69734, 69743); (69872, 69881); (69942, 69951);
   (70096, 70105); (70384, 70393); (70736, 70745); (70864, 70873);
   (71248, 71257); (71360, 71369); (71472, 71481); (71904, 71913);
   (72016, 72025); (72784, 72793); (73040, 73049); (73120, 73129);
   (92768, 92777); (92864, 92873); (93008, 93017); (120782, 120831);
   (123200, 123209); (123632, 123641); (125264, 125273); (130032, 130041)].

Definition in_range (c : char) (r : char * char) : bool :=
  (fst r <=? c) && (c <=? snd r).

Definition is_digit (c : char) : bool := existsb (in_range c) unicode_Nd.

Definition item_mem (c : char) (i : item) : bool :=
  match i with
  | Ch d => c =? d
  | Range lo hi => in_range c (lo, hi)
  | Digit => is_digit c
  end.

Definition cmem (c : char) (cs : cset) : bool :=
  match cs with
  | CSet negated items => xorb negated (existsb (item_mem c) items)
  end.

Definition cons_fst (c : char) (m : text * text) : text * text :=
  (c :: fst m, snd m).

(** All the ways a greedy [cs*] can match a prefix of [s], longest first:
    the order in which a backtracking matcher tries them. *)
Fixpoint star (cs : cset) (s : text) : list (text * text) :=
  match s with
  | c :: s' =>
      if cmem c cs then map (cons_fst c) (star cs s') ++ [([], s)]
      else [([], s)]
  | [] => [([], [])]
  end.

Definition one (p : char -> bool) (s : text) : list (text * text) :=
  match s with
  | c :: s' => if p c then [([c], s')] else []
  | [] => []
  end.

(** [matches r s]: every way [r] matches a prefix of [s], as pairs (matched
    prefix, rest), in the order of the backtracking search. *)
Fixpoint matches (r : regex) (s : text) : list (text * text) :=
  match r with
  | Chr c => one (N.eqb c) s
  | Cls cs => one (fun c => cmem c cs) s
  | Cat r1 r2 =>
      flat_map (fun m1 =>
                  map (fun m2 => (fst m1 ++ fst m2, snd m2))
                      (matches r2 (snd m1)))
               (matches r1 s)
  | Alt r1 r2 => matches r1 s ++ matches r2 s
  | Opt r1 => matches r1 s ++ [([], s)]
  | Star cs => star cs s
  | Plus cs =>
      match s with
      | c :: s' => if cmem c cs then map (cons_fst c) (star cs s') else []
      | [] => []
      end
  end.

(** [tok_re.match(source_text, pos)] followed by [m.group(0)], on
    [s = source_text[pos:]]: the first match of the search, if any.  The
    patterns have no anchor and no look-behind, so matching at [pos] only
    depends on the suffix. *)
Definition re_match (r : regex) (s : text) : option text :=
  match matches r s with
  | m :: _ => Some (fst m)
  | [] => None
  end.

Definition ch (s : string) : char := hd 0 (py s).

(** A literal of one character and a literal of two characters, as
    patterns. *)
Definition lit1 (s : string) : regex := Chr (ch s).
Definition lit2 (s : string) : regex := Cat (Chr (nth 0 (py s) 0)) (Chr (nth 1 (py s) 0)).

(** The character sets of the patterns. *)
Definition blank : cset := CSet false [Ch 32; Ch TAB].                    (* [ \t] *)
Definition alnum : cset :=
  CSet false [Range (ch "A") (ch "Z"); Range (ch "a") (ch "z"); Range (ch "0") (ch "9")].
Definition not_quote_nl : cset := CSet true [Ch QUOTE; Ch LF].           (* [^Q\n], Q the double quote *)
Definition digit : cset := CSet false [Digit].                            (* \d *)
Definition letter : cset :=
  CSet false [Range (ch "A") (ch "Z"); Range (ch "a") (ch "z")].
Definition word : cset :=
  CSet false [Range (ch "A") (ch "Z"); Range (ch "a") (ch "z"); Range (ch "0") (ch "9"); Ch (ch "_")].
Definition sign : cset := CSet false [Ch (ch "+"); Ch (ch "-")].

Definition WHITESPACE_re : regex := Plus blank.                           (* [ \t]+ *)
Definition NEWLINE_re : regex :=                                          (* \r\n|\r|\n *)
  Alt (Cat (Chr CR) (Chr LF)) (Alt (Chr CR) (Chr LF)).
Definition COMMENT_re : regex :=                                          (* //[A-Za-z0-9]+// *)
  Cat (lit2 "//") (Cat (Plus alnum) (lit2 "//")).
Definition STRING_re : regex :=                                           (* Q[^Q\n]*Q, Q the double quote *)
  Cat (Chr QUOTE) (Cat (Star not_quote_nl) (Chr QUOTE)).
Definition ID_re : regex := Cat (Cls letter) (Star word).                 (* [A-Za-z][A-Za-z0-9_]* *)

(** The number pattern, for a given set of exponent markers. *)
Definition NUM_with (marker : regex) : regex :=
  Cat (Plus digit)
      (Cat (Opt (Cat (lit1 ".") (Plus digit)))
           (Opt (Cat marker (Cat (Opt (Cls sign)) (Plus digit))))).

(** ** The inner [for] loop: the first rule that matches *)

Fixpoint first_match (rules : list (string * regex)) (s : text)
  : option (string * text) :=
  match rules with
  | [] => None
  | (tok_name, tok_re) :: rules' =>
      match re_match tok_re s with
      | Some lexeme => Some (tok_name, lexeme)
      | None => first_match rules' s
      end
  end.

(** ** Helpers of the loop bodies *)

(** [x in (a, b, c)] on rule names. *)
Definition name_in (x : string) (l : list string) : bool :=
  existsb (String.eqb x) l.

(** A dict with text keys: [d.get(k)]. *)
Fixpoint lookup_text {V : Type} (k : text) (d : list (text * V)) : option V :=
  match d with
  | [] => None
  | (k', v) :: d' => if text_eqb k k' then Some v else lookup_text k d'
  end.

(** A dict with string keys: [d.get(k, default)]. *)
Fixpoint get {V : Type} (d : list (string * V)) (k : string) (default : V) : V :=
  match d with
  | [] => default
  | (k', v) :: d' => if String.eqb k k' then v else get d' k default
  end.

(** [str.lower] on the texts it is applied to.  It is only called on
    lexemes of the identifier rule, made of ASCII letters, digits and
    underscores (lemma [ID_lexeme_word]), where it maps A-Z to a-z and
    keeps every other character. *)
Definition lower_char (c : char) : char :=
  if in_range c (ch "A", ch "Z") then c + 32 else c.
Definition lower (t : text) : text := map lower_char t.

(** ["\n" in lexeme or "\r" in lexeme] *)
Definition has_newline (lexeme : text) : bool :=
  existsb (N.eqb LF) lexeme || existsb (N.eqb CR) lexeme.

(** [re.split(r"\r\n|\r|\n", lexeme)]: the pieces between the successive
    leftmost matches of the line-break pattern. *)
Fixpoint re_split_newline (s : text) : list text :=
  match s with
  | [] => [[]]
  | c :: s' =>
      if c =? CR then
        match s' with
        | d :: s'' =>
            if d =? LF then [] :: re_split_newline s''
            else [] :: re_split_newline s'
        | [] => [] :: re_split_newline s'
        end
      else if c =? LF then [] :: re_split_newline s'
      else match re_split_newline s' with
           | p :: ps => (c :: p) :: ps
           | [] => [[c]]
           end
  end.

(** [re.findall(r"\r\n|\r|\n", lexeme)]: the successive leftmost matches of
    the line-break pattern. *)
Fixpoint re_findall_newline (s : text) : list text :=
  match s with
  | [] => []
  | c :: s' =>
      if c =? CR then
        match s' with
        | d :: s'' =>
            if d =? LF then [CR; LF] :: re_findall_newline s''
            else [CR] :: re_findall_newline s'
        | [] => [[CR]]
        end
      else if c =? LF then [LF] :: re_findall_newline s'
      else re_findall_newline s'
  end.

(** ** The driving loop

    Lines 107-121 of [lexer.py] and 84-98 of [Analizador_Léxico.py] are the
    same statements; the two variants differ in their rule table and in what
    follows a match ([body]: the new line and column and the tokens to
    append).  [seen] is a ghost field, not a variable of the program: the
    (rule name, lexeme) pairs matched so far, skipped ones included. *)

Module Loop.

Record state (Tok : Type) : Type := mkState {
  tokens : list Tok;
  pos : nat;
  line : Z;
  col : Z;
  seen : list (string * text)
}.
Arguments mkState {Tok}.
Arguments tokens {Tok}.
Arguments pos {Tok}.
Arguments line {Tok}.
Arguments col {Tok}.
Arguments seen {Tok}.

(** How the loop ends: the condition [pos < length] fails, an iteration
    raises, or the model's fuel runs out. *)
Inductive outcome (Tok : Type) : Type :=
| Done (st : state Tok)
| Raised (st : state Tok)
| OutOfFuel (st : state Tok).
Arguments Done {Tok}.
Arguments Raised {Tok}.
Arguments OutOfFuel {Tok}.

(** What [lex] gives its caller: the token list, or a [LexerError] with the
    unexpected character, line and column.  ([NoFuel] is shown below never
    to happen.) *)
Inductive result (Tok : Type) : Type :=
| Tokens (toks : list Tok)
| LexerError (c : char) (line col : Z)
| NoFuel.
Arguments Tokens {Tok}.
Arguments LexerError {Tok}.
Arguments NoFuel {Tok}.

Section Driver.
Context {Tok : Type}.
Variable token_regex_list : list (string * regex).
Variable body : string -> text -> Z -> Z -> Z * Z * list Tok.
Variable eof : Z -> Z -> Tok.

Definition init : state Tok :=
  {| tokens := []; pos := 0; line := 1%Z; col := 1%Z; seen := [] |}.

(** One iteration; [None] when it raises. *)
Definition lex_step (source_text : text) (st : state Tok) : option (state Tok) :=
  match first_match token_regex_list (skipn (pos st) source_text) with
  | None => None
  | Some (tok_name, lexeme) =>
      let '(line', col', out) := body tok_name lexeme (line st) (col st) in
      Some {| tokens := tokens st ++ out;
              pos := (pos st + List.length lexeme)%nat;
              line := line';
              col := col';
              seen := seen st ++ [(tok_name, lexeme)] |}
  end.

Fixpoint lex_loop (fuel : nat) (source_text : text) (st : state Tok) : outcome Tok :=
  if (pos st <? List.length source_text)%nat then
    match fuel with
    | O => OutOfFuel st
    | S fuel' =>
        match lex_step source_text st with
        | None => Raised st
        | Some st' => lex_loop fuel' source_text st'
        end
    end
  else Done st.

Definition run (source_text : text) : outcome Tok :=
  lex_loop (List.length source_text) source_text init.

Definition lex (source_text : text) : result Tok :=
  match run source_text with
  | Done st => Tokens (tokens st ++ [eof (line st) (col st)])
  | Raised st => LexerError (nth (pos st) source_text 0) (line st) (col st)
  | OutOfFuel _ => NoFuel
  end.

(** The (rule name, lexeme) pairs matched during the run. *)
Definition matched (source_text : text) : list (string * text) :=
  match run source_text with
  | Done st | Raised st | OutOfFuel st => seen st
  end.

(** The states the loop goes through. *)
Inductive reach (source_text : text) : state Tok -> Prop :=
| reach_init : reach source_text init
| reach_step st st' :
    reach source_text st ->
    (pos st < List.length source_text)%nat ->
    lex_step source_text st = Some st' ->
    reach source_text st'.

End Driver.

End Loop.

Local Open Scope string_scope.
Local Open Scope Z_scope.
Local Open Scope list_scope.

(** ** The richer variant: [src/lexer.py] *)

Module Lexer.

Record Token : Type := MkToken {
  token : string;
  cadena : string;
  lexeme : text;
  line : Z;
  col : Z
}.

Definition KEYWORDS : list (text * string) :=
  [(py "program", "PROGRAM"); (py "type", "TYPE"); (py "var", "VAR");
   (py "procedure", "PROCEDURE"); (py "function", "FUNCTION");
   (py "begin", "BEGIN"); (py "end", "END"); (py "integer", "INTEGER");
   (py "boolean", "BOOLEAN"); (py "string", "STRING_T"); (py "array", "ARRAY");
   (py "of", "OF"); (py "if", "IF"); (py "then", "THEN"); (py "else", "ELSE");
   (py "while", "WHILE"); (py "do", "DO"); (py "true", "TRUE");
   (py "false", "FALSE")].

Definition NUM_re : regex :=               (* \d+(\.\d+)?([eE][+-]?\d+)? *)
  NUM_with (Cls (CSet false [Ch (ch "e"); Ch (ch "E")])).

Definition token_specification : list (string * regex) :=
  [("WHITESPACE", WHITESPACE_re);
   ("NEWLINE", NEWLINE_re);
   ("COMMENT", COMMENT_re);
   ("STRING", STRING_re);
   ("NUM", NUM_re);
   ("ASSIGN", lit2 ":=");
   ("EQEQ", lit2 "==");
   ("EQUAL", lit1 "=");
   ("NEQ", lit2 "!=");
   ("LE", lit2 "<=");
   ("GE", lit2 ">=");
   ("ANDAND", lit2 "&&");
   ("OROR", lit2 "||");
   ("DOTDOT", lit2 "..");
   ("LT", lit1 "<");
   ("GT", lit1 ">");
   ("PLUS", lit1 "+");
   ("MINUS", lit1 "-");
   ("MUL", lit1 "*");
   ("DIV", lit1 "/");
   ("MOD", lit1 "%");
   ("NOT", lit1 "!");
   ("LPAREN", lit1 "(");
   ("RPAREN", lit1 ")");
   ("LBRACK", lit1 "[");
   ("RBRACK", lit1 "]");
   ("DOT", lit1 ".");
   ("SEMI", lit1 ";");
   ("COMMA", lit1 ",");
   ("COLON", lit1 ":");
   ("ID", ID_re)].

(** [re.compile] keeps the table's order. *)
Definition token_regex_list : list (string * regex) := token_specification.

Definition DESCRIPTION_MAP : list (string * string) :=
  [("ASSIGN", "ASIGNACION"); ("EQEQ", "IGUAL_IGUAL"); ("EQUAL", "IGUAL");
   ("NEQ", "DIFERENTE"); ("LE", "MENOR_IGUAL"); ("GE", "MAYOR_IGUAL");
   ("LT", "MENOR"); ("GT", "MAYOR"); ("PLUS", "SUMA"); ("MINUS", "RESTA");
   ("MUL", "MULTIPLICACION"); ("DIV", "DIVISION"); ("MOD", "MODULO");
   ("ANDAND", "AND"); ("OROR", "OR"); ("NOT", "NEGACION");
   ("LPAREN", "PARENTESIS_ABRE"); ("RPAREN", "PARENTESIS_CIERRA");
   ("LBRACK", "CORCHETE_ABRE"); ("RBRACK", "CORCHETE_CIERRA");
   ("DOTDOT", "RANGO"); ("DOT", "PUNTO"); ("SEMI", "PUNTO_Y_COMA");
   ("COMMA", "COMA"); ("COLON", "DOS_PUNTOS"); ("ID", "IDENTIFICADOR");
   ("NUM", "NUMERO"); ("STRING", "CADENA"); ("EOF", "EOF")].

Definition operator_map : list (string * string) :=
  [("ASSIGN", "ASSIGN"); ("EQUAL", "EQUAL"); ("EQEQ", "EQEQ"); ("NEQ", "NEQ");
   ("LE", "LE"); ("GE", "GE"); ("ANDAND", "ANDAND"); ("OROR", "OROR");
   ("DOTDOT", "DOTDOT"); ("LT", "LT"); ("GT", "GT"); ("PLUS", "PLUS");
   ("MINUS", "MINUS"); ("MUL", "MUL"); ("DIV", "DIV"); ("MOD", "MOD");
   ("NOT", "NOT"); ("LPAREN", "LPAREN"); ("RPAREN", "RPAREN");
   ("LBRACK", "LBRACK"); ("RBRACK", "RBRACK"); ("DOT", "DOT"); ("SEMI", "SEMI");
   ("COMMA", "COMMA"); ("COLON", "COLON")].

Definition _advance_position (line col : Z) (lexeme : text) : Z * Z :=
  match lexeme with
  | [] => (line, col)
  | _ =>
      if negb (existsb (N.eqb LF) lexeme) && negb (existsb (N.eqb CR) lexeme)
      then (line, col + len lexeme)
      else
        let parts := re_split_newline lexeme in
        let new_line := line + (len parts - 1) in
        let new_col := len (last parts []) + 1 in
        (new_line, new_col)
  end.

(** Lines 118-149: what follows a match. *)
Definition body (tok_name : string) (lexeme : text) (line col : Z)
  : Z * Z * list Token :=
  let start_line := line in
  let start_col := col in
  let '(line, col) := _advance_position line col lexeme in
  if name_in tok_name ["WHITESPACE"; "NEWLINE"; "COMMENT"] then (line, col, [])
  else if String.eqb tok_name "ID" then
    match lookup_text (lower lexeme) KEYWORDS with
    | Some token_type =>
        (line, col, [MkToken token_type "PALABRA_RESERVADA" lexeme start_line start_col])
    | None =>
        (line, col,
         [MkToken "ID" (get DESCRIPTION_MAP "ID" "IDENTIFICADOR") lexeme start_line start_col])
    end
  else if name_in tok_name ["NUM"; "STRING"] then
    (line, col,
     [MkToken tok_name (get DESCRIPTION_MAP tok_name tok_name) lexeme start_line start_col])
  else
    let tok_type := get operator_map tok_name tok_name in
    let cadena :=
      get DESCRIPTION_MAP tok_name (get DESCRIPTION_MAP tok_type tok_type) in
    (line, col, [MkToken tok_type cadena lexeme start_line start_col]).

Definition eof (line col : Z) : Token :=
  MkToken "EOF" (get DESCRIPTION_MAP "EOF" "EOF") [] line col.

Definition lex : text -> Loop.result Token := Loop.lex token_regex_list body eof.
Definition run : text -> Loop.outcome Token := Loop.run token_regex_list body.
Definition matched : text -> list (string * text) := Loop.matched token_regex_list body.
Definition reach : text -> Loop.state Token -> Prop := Loop.reach token_regex_list body.

End Lexer.

(** ** The minimal variant: [src/Analizador_Léxico.py] *)

Module Analizador.

Record Token : Type := MkToken {
  type : string;
  lexeme : text;
  line : Z;
  col : Z
}.

Definition KEYWORDS : list (text * string) :=
  [(py "program", "PROGRAM"); (py "type", "TYPE"); (py "var", "VAR");
   (py "procedure", "PROCEDURE"); (py "function", "FUNCTION");
   (py "begin", "BEGIN"); (py "end", "END"); (py "integer", "INTEGER");
   (py "boolean", "BOOLEAN"); (py "string", "STRING_T"); (py "array", "ARRAY");
   (py "of", "OF"); (py "if", "IF"); (py "then", "THEN"); (py "else", "ELSE");
   (py "while", "WHILE"); (py "do", "DO"); (py "true", "TRUE");
   (py "false", "FALSE")].

Definition NUM_re : regex :=               (* \d+(\.\d+)?(e[+-]?\d+)? *)
  NUM_with (lit1 "e").

Definition token_specification : list (string * regex) :=
  [("WHITESPACE", WHITESPACE_re);
   ("NEWLINE", NEWLINE_re);
   ("COMMENT", COMMENT_re);
   ("STRING", STRING_re);
   ("NUM", NUM_re);
   ("ASSIGN", lit2 ":="); ("EQEQ", lit2 "=="); ("NEQ", lit2 "!=");
   ("LE", lit2 "<="); ("GE", lit2 ">="); ("ANDAND", lit2 "&&"); ("OROR", lit2 "||");
   ("DOTDOT", lit2 ".."); ("LT", lit1 "<"); ("GT", lit1 ">");
   ("PLUS", lit1 "+"); ("MINUS", lit1 "-"); ("MUL", lit1 "*"); ("DIV", lit1 "/");
   ("MOD", lit1 "%"); ("NOT", lit1 "!");
   ("LPAREN", lit1 "("); ("RPAREN", lit1 ")");
   ("LBRACK", lit1 "["); ("RBRACK", lit1 "]");
   ("DOT", lit1 "."); ("SEMI", lit1 ";"); ("COMMA", lit1 ","); ("COLON", lit1 ":");
   ("ID", ID_re)].

(** [re.compile(pattern, re.DOTALL)] keeps the table's order; the flag only
    changes the meaning of an unescaped dot, and the patterns have none. *)
Definition token_regex_list : list (string * regex) := token_specification.

Definition operator_map : list (string * string) :=
  [("ASSIGN", "ASSIGN"); ("EQEQ", "EQ"); ("NEQ", "NEQ"); ("LE", "LE"); ("GE", "GE");
   ("ANDAND", "AND"); ("OROR", "OR"); ("DOTDOT", "DOTDOT"); ("LT", "LT"); ("GT", "GT");
   ("PLUS", "PLUS"); ("MINUS", "MINUS"); ("MUL", "MUL"); ("DIV", "DIV"); ("MOD", "MOD");
   ("NOT", "NOT"); ("LPAREN", "LPAREN"); ("RPAREN", "RPAREN"); ("LBRACK", "LBRACK");
   ("RBRACK", "RBRACK"); ("DOT", "DOT"); ("SEMI", "SEMI"); ("COMMA", "COMMA");
   ("COLON", "COLON")].

(** Lines 100-106: the new line and column. *)
Definition advance (line col : Z) (lexeme : text) : Z * Z :=
  if has_newline lexeme then
    let newlines := re_findall_newline lexeme in
    (line + len newlines, 1)
  else (line, col + len lexeme).

(** Lines 97-139: what follows a match. *)
Definition body (tok_name : string) (lexeme : text) (line col : Z)
  : Z * Z * list Token :=
  let '(line, col) := advance line col lexeme in
  if name_in tok_name ["WHITESPACE"; "NEWLINE"; "COMMENT"] then (line, col, [])
  else if String.eqb tok_name "ID" then
    match lookup_text (lower lexeme) KEYWORDS with
    | Some keyword => (line, col, [MkToken keyword lexeme line (col - len lexeme)])
    | None => (line, col, [MkToken "ID" lexeme line (col - len lexeme)])
    end
  else if String.eqb tok_name "NUM" then
    (line, col, [MkToken "NUM" lexeme line (col - len lexeme)])
  else if String.eqb tok_name "STRING" then
    (line, col, [MkToken "STRING" lexeme line (col - len lexeme)])
  else
    let tok_type := get operator_map tok_name tok_name in
    (line, col, [MkToken tok_type lexeme line (col - len lexeme)]).

Definition eof (line col : Z) : Token := MkToken "EOF" [] line col.

Definition lex : text -> Loop.result Token := Loop.lex token_regex_list body eof.
Definition run : text -> Loop.outcome Token := Loop.run token_regex_list body.
Definition matched : text -> list (string * text) := Loop.matched token_regex_list body.
Definition reach : text -> Loop.state Token -> Prop := Loop.reach token_regex_list body.

End Analizador.

(** ** Positions in a text, as the specification words them

    A line-break sequence is [\r\n], [\r] or [\n], each counted once. *)

(** The number of line-break sequences of a text. *)
Fixpoint break_count (s : text) : nat :=
  match s with
  | [] => O
  | c :: s' =>
      if (c =? CR)%N then
        match s' with
        | d :: s'' => if (d =? LF)%N then S (break_count s'') else S (break_count s')
        | [] => 1%nat
        end
      else if (c =? LF)%N then S (break_count s')
      else break_count s'
  end.

(** The number of characters after the last line-break sequence of a text,
    [n] characters having been read since the last one before the text. *)
Fixpoint tail_from (n : nat) (s : text) : nat :=
  match s with
  | [] => n
  | c :: s' =>
      if (c =? CR)%N then
        match s' with
        | d :: s'' => if (d =? LF)%N then tail_from 0 s'' else tail_from 0 s'
        | [] => O
        end
      else if (c =? LF)%N then tail_from 0 s'
      else tail_from (S n) s'
  end.

(** The 1-based line and column of offset [pos] of a text. *)
Definition text_position (s : text) (pos : nat) : Z * Z :=
  (1 + Z.of_nat (break_count (firstn pos s)),
   1 + Z.of_nat (tail_from 0 (firstn pos s))).

(** The cursor a lexeme leads to, by the contract of the position tracker:
    without a line break the column grows by the length of the lexeme;
    otherwise the line grows by the number of line breaks and the column
    is one plus the number of characters after the last of them. *)
Definition advance_contract (line col : Z) (lexeme : text) : Z * Z :=
  match break_count lexeme with
  | O => (line, col + len lexeme)
  | S _ => (line + Z.of_nat (break_count lexeme), 1 + Z.of_nat (tail_from 0 lexeme))
  end.

(** ** Syntactic analyses of a pattern *)

(** Can the pattern match the empty text? *)
Fixpoint nullable (r : regex) : bool :=
  match r with
  | Chr _ | Cls _ | Plus _ => false
  | Cat r1 r2 => nullable r1 && nullable r2
  | Alt r1 r2 => nullable r1 || nullable r2
  | Opt _ | Star _ => true
  end.

(** Can a non-empty match of the pattern start with [c]? *)
Fixpoint may_start (c : char) (r : regex) : bool :=
  match r with
  | Chr d => (d =? c)%N
  | Cls cs | Star cs | Plus cs => cmem c cs
  | Cat r1 r2 => may_start c r1 || (nullable r1 && may_start c r2)
  | Alt r1 r2 => may_start c r1 || may_start c r2
  | Opt r1 => may_start c r1
  end.

(** Can a non-empty match of the pattern end with [c]? *)
Fixpoint may_end (c : char) (r : regex) : bool :=
  match r with
  | Chr d => (d =? c)%N
  | Cls cs | Star cs | Plus cs => cmem c cs
  | Cat r1 r2 => may_end c r2 || (nullable r2 && may_end c r1)
  | Alt r1 r2 => may_end c r1 || may_end c r2
  | Opt r1 => may_end c r1
  end.

(** Can [c] occur in a match of the pattern? *)
Fixpoint may_contain (c : char) (r : regex) : bool :=
  match r with
  | Chr d => (d =? c)%N
  | Cls cs | Star cs | Plus cs => cmem c cs
  | Cat r1 r2 | Alt r1 r2 => may_contain c r1 || may_contain c r2
  | Opt r1 => may_contain c r1
  end.

(** A text is cut inside a [\r\n] pair. *)
Definition splits_crlf (a b : text) : Prop :=
  exists a' b', a = a' ++ [CR] /\ b = LF :: b'.

(** The rules of a table that can start with a given character. *)
Definition rules_for (c : char) (rules : list (string * regex)) : list (string * regex) :=
  filter (fun rule => may_start c (snd rule)) rules.

(** A text of characters of a set. *)
Definition all_in (cs : cset) (t : text) : Prop :=
  Forall (fun c => cmem c cs = true) t.

(** The first character of a text, if any, is outside a set. *)
Definition stops (cs : cset) (rest : text) : Prop :=
  match rest with
  | [] => True
  | c :: _ => cmem c cs = false
  end.

(** The lexemes on which the minimal variant follows the contract of the
    tracker: all but the string literals that hold a carriage return. *)
Definition analizador_tracked (m : string * text) : Prop :=
  fst m = "STRING" -> ~ In CR (snd m).

(** ** The shapes of literals *)

(** Does a closing quote come before the next line feed? *)
Fixpoint closes (s : text) : bool :=
  match s with
  | [] => false
  | c :: s' =>
      if (c =? QUOTE)%N then true
      else if (c =? LF)%N then false
      else closes s'
  end.

(** The same question in the words of the specification, where a line
    ends at any line-break sequence: [\r\n], [\r] or [\n]. *)
Fixpoint closes_on_line (s : text) : bool :=
  match s with
  | [] => false
  | c :: s' =>
      if (c =? QUOTE)%N then true
      else if (c =? LF)%N || (c =? CR)%N then false
      else closes_on_line s'
  end.

(** The text up to the first quote, and the text after it. *)
Fixpoint before_quote (s : text) : text :=
  match s with
  | [] => []
  | c :: s' => if (c =? QUOTE)%N then [] else c :: before_quote s'
  end.

Fixpoint after_quote (s : text) : text :=
  match s with
  | [] => []
  | c :: s' => if (c =? QUOTE)%N then s' else after_quote s'
  end.

(** A number: digits, an optional fraction (a dot and digits) and an
    optional exponent (a marker, an optional sign and digits). *)
Definition fraction (f : option text) : text :=
  match f with
  | Some d => ch "." :: d
  | None => []
  end.

Definition exponent (e : option (char * option char * text)) : text :=
  match e with
  | Some (m, Some sg, d) => m :: sg :: d
  | Some (m, None, d) => m :: d
  | None => []
  end.

Definition number (d : text) (f : option text)
           (e : option (char * option char * text)) : text :=
  d ++ fraction f ++ exponent e.

Definition digits (d : text) : Prop := d <> [] /\ all_in digit d.

Definition number_parts (markers : list char) (d : text) (f : option text)
           (e : option (char * option char * text)) : Prop :=
  digits d /\
  (forall d2, f = Some d2 -> digits d2) /\
  (forall m sg d3, e = Some (m, sg, d3) ->
     In m markers /\ digits d3 /\
     (forall x, sg = Some x -> x = ch "+" \/ x = ch "-")).

(** What follows a number does not extend it. *)
Definition number_ends (rest : text) : Prop :=
  match rest with
  | [] => True
  | c :: _ => is_digit c = false /\ c <> ch "." /\ c <> ch "e" /\ c <> ch "E"
  end.

(** The position of a rule in a table (the length of the table when the
    table has no such rule). *)
Fixpoint rule_index (name : string) (rules : list (string * regex)) : nat :=
  match rules with
  | [] => O
  | (n, _) :: rules' => if String.eqb n name then O else S (rule_index name rules')
  end.

Definition tried_before (rules : list (string * regex)) (names : string * string) : Prop :=
  (rule_index (fst names) rules < rule_index (snd names) rules)%nat /\
  (rule_index (snd names) rules < List.length rules)%nat.

(** ** Sample texts *)

(** The string literal made of a quote, [a], a carriage return, [b] and a
    quote. *)
Definition cr_string : text := [QUOTE; ch "a"; CR; ch "b"; QUOTE].

(** The same literal followed by [@]. *)
Definition cr_string_at : text := cr_string ++ [ch "@"].

(** The same literal followed by [=]. *)
Definition cr_string_equal : text := cr_string ++ [ch "="].

(** The same literal, a blank and a quote that is never closed. *)
Definition cr_string_open : text := cr_string ++ [32%N; QUOTE; ch "c"].

(** The literal of the documentation of the minimal variant, with its
    quotes. *)
Definition texto : text := QUOTE :: py "Texto en string lit" ++ [QUOTE].

(** Two statements on two lines. *)
Definition two_lines : text := py "x := 1;" ++ [LF] ++ py "y := 2;" ++ [LF].

(** The program of the minimal variant's [main]. *)
Definition demo : text :=
  py "program Demo;" ++ [LF] ++
  py "var x: integer;" ++ [LF] ++
  py "begin" ++ [LF] ++
  py "  //esteesuncomentario//" ++ [LF] ++
  py "  x := 12.3e-2;" ++ [LF] ++
  py "  y := " ++ texto ++ py ";" ++ [LF] ++
  py "end." ++ [LF].

(** ** The presentation layers

    The pure parts of the code that shows a result: the rows of the token
    table of [lexer.py] ([mostrar_tabla]), the lines [print_tokens] writes
    in [Analizador_Léxico.py], and the source line and caret both files
    show for an error ([mostrar_error], and the handler of [main]). *)

(** [" " * n] *)
Definition spaces (n : Z) : text := repeat 32%N (Z.to_nat n).

(** [str(n)] for an integer. *)
Definition str_int (n : Z) : text := py (NilZero.string_of_int (Z.to_int n)).

(** The format specifications [<w] and [>w]: pad with blanks on the right,
    or on the left, up to [w] characters. *)
Definition ljust (w : nat) (t : text) : text := t ++ repeat 32%N (w - List.length t).
Definition rjust (w : nat) (t : text) : text := repeat 32%N (w - List.length t) ++ t.

(** [enumerate(l, start)] *)
Fixpoint enumerate {A : Type} (start : Z) (l : list A) : list (Z * A) :=
  match l with
  | [] => []
  | x :: l' => (start, x) :: enumerate (start + 1) l'
  end.

(** The characters at which [str.splitlines] ends a line: line feed,
    vertical tab, form feed, carriage return, the separators 1C, 1D and
    1E, next line (85), and the line and paragraph separators 2028 and
    2029. *)
Definition line_boundary (c : char) : bool :=
  existsb (N.eqb c) [10; 11; 12; 13; 28; 29; 30; 133; 8232; 8233]%N.

(** [str.splitlines()], [cur] being the line read so far: a carriage
    return and the line feed after it end one line, and the text after the
    last boundary is a line only if it is not empty. *)
Fixpoint splitlines_from (cur : text) (s : text) : list text :=
  match s with
  | [] => match cur with [] => [] | _ => [cur] end
  | c :: s' =>
      if line_boundary c then
        if (c =? CR)%N then
          match s' with
          | d :: s'' =>
              if (d =? LF)%N then cur :: splitlines_from [] s''
              else cur :: splitlines_from [] s'
          | [] => [cur]
          end
        else cur :: splitlines_from [] s'
      else splitlines_from (cur ++ [c]) s'
  end.

Definition splitlines (s : text) : list text := splitlines_from [] s.

(** [lexer.py], [mostrar_tabla] (lines 204-206, and 220-222 for the CSV
    file): one row per token, numbered from 1, the empty lexeme shown as
    the text EOF between angle brackets. *)
Record Fila : Type := MkFila {
  numero : Z;
  fila_token : string;
  fila_cadena : string;
  lexema : text;
  linea : Z;
  columna : Z
}.

Definition mostrar_tabla (tokens : list Lexer.Token) : list Fila :=
  map (fun it =>
         let i := fst it in
         let t := snd it in
         let lex := match Lexer.lexeme t with
                    | [] => py "<EOF>"
                    | _ => Lexer.lexeme t
                    end in
         MkFila i (Lexer.token t) (Lexer.cadena t) lex (Lexer.line t) (Lexer.col t))
      (enumerate 1 tokens).

(** [lexer.py], [mostrar_error] (lines 235-243): the text put in the box,
    the line of the error and a caret under its column; [None] when the
    line is not one of the source and no box is made. *)
Definition mostrar_error (line col : Z) (source : text) : option text :=
  let lines := splitlines source in
  if (1 <=? line) && (line <=? len lines) then
    let err_line := nth (Z.to_nat (line - 1)) lines [] in
    let caret := spaces (Z.max 0 (col - 1)) ++ py "^" ++ [LF] in
    Some (err_line ++ [LF] ++ caret)
  else None.

(** [Analizador_Léxico.py], [print_tokens] (lines 147-152): the lines it
    prints.  A lexeme of 18 characters or more is cut to its first 15
    characters and three dots. *)
Definition shown_lexeme (lexeme : text) : text :=
  if len lexeme <? 18 then lexeme else firstn 15 lexeme ++ py "...".

Definition print_row (i : Z) (t : Analizador.Token) : text :=
  rjust 3 (str_int i) ++ py "  " ++
  ljust 10 (py (Analizador.type t)) ++ py "  " ++
  ljust 20 (shown_lexeme (Analizador.lexeme t)) ++ py "  " ++
  rjust 4 (str_int (Analizador.line t)) ++ py "  " ++
  rjust 3 (str_int (Analizador.col t)).

Definition print_header : text :=
  rjust 3 (py "No.") ++ py "  " ++ ljust 10 (py "Token") ++ py "  " ++
  ljust 20 (py "Lexema") ++ py "  " ++
  rjust 4 [76; 237; 110; 101; 97]%N ++ py "  " ++ rjust 3 (py "Col").

Definition print_tokens (tokens : list Analizador.Token) : list text :=
  print_header :: repeat (ch "-") 50 ::
  map (fun it => print_row (fst it) (snd it)) (enumerate 1 tokens).

(** [Analizador_Léxico.py], [main] (lines 182-186): the two lines printed
    under the message of an error, each after the two blanks and the
    separator of [print]; none when the line is not one of the source. *)
Definition main_error (line col : Z) (source : text) : list text :=
  let lines := splitlines source in
  if (1 <=? line) && (line <=? len lines) then
    let err_line := nth (Z.to_nat (line - 1)) lines [] in
    [py "  " ++ py " " ++ err_line;
     py "  " ++ py " " ++ spaces (col - 1) ++ py "^"]
  else [].

(** ** Vocabulary of the further properties *)

(** A text that [str.splitlines] does not cut: it holds no line
    boundary. *)
Definition one_line (t : text) : Prop :=
  Forall (fun c => line_boundary c = false) t.

(** No lexeme of a pattern holds a line boundary. *)
Definition no_boundary (r : regex) : bool :=
  forallb (fun b => negb (may_contain b r))
          [10; 11; 12; 13; 28; 29; 30; 133; 8232; 8233]%N.

(** A printed number fits its field: three characters below 1000, four
    below 10000, none of them a line boundary. *)
Definition fits_field (n : Z) : bool :=
  Nat.leb (List.length (str_int n)) (if n <? 1000 then 3%nat else 4%nat) &&
  forallb (fun c => negb (line_boundary c)) (str_int n).

(** A category fits the field of ten characters. *)
Definition fits_category (category : string) : bool :=
  Nat.leb (List.length (py category)) 10 &&
  forallb (fun c => negb (line_boundary c)) (py category).

(** The rules whose lexemes are dropped. *)
Definition skipped (name : string) : bool :=
  name_in name ["WHITESPACE"; "NEWLINE"; "COMMENT"].

(** A text of blanks, tabs and line breaks. *)
Definition blank_text (s : text) : Prop :=
  Forall (fun c => c = 32%N \/ c = TAB \/ c = CR \/ c = LF) s.

(** A text whose only line boundaries are the ones the tokenizer counts:
    carriage returns and line feeds. *)
Definition only_lexer_breaks (s : text) : Prop :=
  Forall (fun c => line_boundary c = true -> c = CR \/ c = LF) s.

(** A lexeme found in a text at an offset. *)
Definition occurs_at (s : text) (pos : nat) (lexeme : text) : Prop :=
  firstn (List.length lexeme) (skipn pos s) = lexeme.

(** The categories of the tokens of each variant. *)
Definition keyword_categories : list string := map snd Lexer.KEYWORDS.

Definition lexer_categories : list string :=
  keyword_categories ++
  ["ID"; "NUM"; "STRING"; "ASSIGN"; "EQEQ"; "EQUAL"; "NEQ"; "LE"; "GE"; "ANDAND";
   "OROR"; "DOTDOT"; "LT"; "GT"; "PLUS"; "MINUS"; "MUL"; "DIV"; "MOD"; "NOT";
   "LPAREN"; "RPAREN"; "LBRACK"; "RBRACK"; "DOT"; "SEMI"; "COMMA"; "COLON"; "EOF"].

Definition analizador_categories : list string :=
  keyword_categories ++
  ["ID"; "NUM"; "STRING"; "ASSIGN"; "EQ"; "NEQ"; "LE"; "GE"; "AND";
   "OR"; "DOTDOT"; "LT"; "GT"; "PLUS"; "MINUS"; "MUL"; "DIV"; "MOD"; "NOT";
   "LPAREN"; "RPAREN"; "LBRACK"; "RBRACK"; "DOT"; "SEMI"; "COMMA"; "COLON"; "EOF"].

(** The category the minimal variant gives where the richer one gives
    [category]: the two operator maps differ on three names. *)
Definition minimal_category (category : string) : string :=
  if String.eqb category "EQEQ" then "EQ"
  else if String.eqb category "ANDAND" then "AND"
  else if String.eqb category "OROR" then "OR"
  else category.

(** A token of the richer variant, as the minimal variant has it. *)
Definition minimal_token (t : Lexer.Token) : Analizador.Token :=
  Analizador.MkToken (minimal_category (Lexer.token t)) (Lexer.lexeme t)
                     (Lexer.line t) (Lexer.col t).

(** The tokens on which the variants differ: the bare [=], a number with
    an upper-case exponent marker, a string literal that holds a carriage
    return. *)
Definition common_token (t : Lexer.Token) : Prop :=
  Lexer.token t <> "EQUAL" /\
  (Lexer.token t = "NUM" -> ~ In (ch "E") (Lexer.lexeme t)) /\
  (Lexer.token t = "STRING" -> ~ In CR (Lexer.lexeme t)).

(** Where a token is: at an offset of the text where its lexeme is found,
    and whose line and column it carries. *)
Definition placed {Tok : Type} (lexeme_of : Tok -> text) (line_of col_of : Tok -> Z)
           (s : text) (t : Tok) : Prop :=
  exists pos,
    (pos <= List.length s)%nat /\
    (line_of t, col_of t) = text_position s pos /\
    occurs_at s pos (lexeme_of t).

(** One position of a text is before another. *)
Definition position_lt (a b : Z * Z) : Prop :=
  fst a < fst b \/ (fst a = fst b /\ snd a < snd b).

(** A match without the upper-case exponent marker. *)
Definition lower_marker (m : text * text) : bool :=
  negb (existsb (N.eqb (ch "E")) (fst m)).

(** The matches of one pattern are those of another that have no
    upper-case exponent marker, in the same order. *)
Definition lower_part (r1 r2 : regex) : Prop :=
  forall s, matches r1 s = filter lower_marker (matches r2 s).

(** The states of the two variants after the same iterations on a text on
    which they agree. *)
Definition same_state (a : Loop.state Analizador.Token) (l : Loop.state Lexer.Token) : Prop :=
  Loop.pos a = Loop.pos l /\ Loop.line a = Loop.line l /\ Loop.col a = Loop.col l /\
  Loop.seen a = Loop.seen l /\
  Loop.tokens a = map minimal_token (Loop.tokens l).

(** * Properties *)

(** ** The matcher *)

Section Matcher.

Lemma star_split cs s lx rest :
  In (lx, rest) (star cs s) -> s = lx ++ rest /\ all_in cs lx.
Proof.
  revert lx rest.
  induction s as [|c s IH]; intros lx rest; simpl.
  - intros [E|[]]; inversion E; subst; split; [reflexivity | constructor].
  - destruct (cmem c cs) eqn:Hc; simpl.
    + rewrite in_app_iff, in_map_iff.
      intros [((lx', rest') & E & Hin) | [E | []]].
      * unfold cons_fst in E; simpl in E; inversion E; subst.
        destruct (IH _ _ Hin) as [-> Hall].
        split; [reflexivity | constructor; assumption].
      * inversion E; subst; split; [reflexivity | constructor].
    + intros [E|[]]; inversion E; subst; split; [reflexivity | constructor].
Qed.

Lemma one_split p s lx rest :
  In (lx, rest) (one p s) -> exists c, lx = [c] /\ s = c :: rest /\ p c = true.
Proof.
  destruct s as [|c s]; simpl; [intros [] |].
  destruct (p c) eqn:Hp; [| intros []].
  intros [E|[]]; inversion E; subst; eauto.
Qed.

Lemma plus_split cs s lx rest :
  In (lx, rest) (matches (Plus cs) s) ->
  s = lx ++ rest /\ all_in cs lx /\ lx <> [].
Proof.
  destruct s as [|c s]; simpl; [intros [] |].
  destruct (cmem c cs) eqn:Hc; [| intros []].
  rewrite in_map_iff. intros ((lx', rest') & E & Hin).
  unfold cons_fst in E; simpl in E; inversion E; subst.
  destruct (star_split _ _ _ _ Hin) as [-> Hall].
  repeat split; [constructor; assumption | discriminate].
Qed.

(** A match is a prefix of the text. *)
Lemma matches_split r : forall s lx rest,
  In (lx, rest) (matches r s) -> s = lx ++ rest.
Proof.
  induction r as [c|cs|r1 IH1 r2 IH2|r1 IH1 r2 IH2|r IH|cs|cs];
    intros s lx rest; simpl.
  - intros H; apply one_split in H; destruct H as (d & -> & -> & _); reflexivity.
  - intros H; apply one_split in H; destruct H as (d & -> & -> & _); reflexivity.
  - rewrite in_flat_map. intros ((l1, s1) & H1 & H2).
    rewrite in_map_iff in H2. destruct H2 as ((l2, s2) & E & H2).
    simpl in E; inversion E; subst.
    apply IH1 in H1. apply IH2 in H2. simpl in *. subst. apply app_assoc.
  - rewrite in_app_iff. intros [H|H]; [apply IH1 | apply IH2]; assumption.
  - rewrite in_app_iff. intros [H|[E|[]]]; [apply IH; assumption |].
    inversion E; reflexivity.
  - intros H; apply star_split in H; tauto.
  - intros H; apply (plus_split cs s) in H; tauto.
Qed.

(** A pattern that is not nullable only has non-empty matches. *)
Lemma matches_nonempty r : forall s lx rest,
  nullable r = false -> In (lx, rest) (matches r s) -> lx <> [].
Proof.
  induction r as [c|cs|r1 IH1 r2 IH2|r1 IH1 r2 IH2|r IH|cs|cs];
    intros s lx rest; simpl; try discriminate.
  - intros _ H; apply one_split in H; destruct H as (d & -> & _); discriminate.
  - intros _ H; apply one_split in H; destruct H as (d & -> & _); discriminate.
  - intros Hn. rewrite in_flat_map. intros ((l1, s1) & H1 & H2).
    rewrite in_map_iff in H2. destruct H2 as ((l2, s2) & E & H2).
    simpl in E; inversion E; subst.
    apply andb_false_iff in Hn. destruct Hn as [Hn|Hn].
    + apply (IH1 _ _ _ Hn) in H1. destruct l1; [congruence | discriminate].
    + apply (IH2 _ _ _ Hn) in H2. destruct l1; [assumption | discriminate].
  - intros Hn. apply orb_false_iff in Hn. destruct Hn as [Hn1 Hn2].
    rewrite in_app_iff. intros [H|H]; eauto.
  - intros _ H. apply (plus_split cs s) in H; tauto.
Qed.

Lemma re_match_split r s lx :
  re_match r s = Some lx -> exists rest, s = lx ++ rest /\ In (lx, rest) (matches r s).
Proof.
  unfold re_match. destruct (matches r s) as [|[l rest] t] eqn:E; [discriminate|].
  simpl. intros H; inversion H; subst.
  exists rest. split; [|left; reflexivity].
  apply (matches_split r). rewrite E. left; reflexivity.
Qed.

Lemma re_match_nonempty r s lx :
  nullable r = false -> re_match r s = Some lx -> lx <> [].
Proof.
  intros Hn H. apply re_match_split in H. destruct H as (rest & _ & Hin).
  eapply matches_nonempty; eauto.
Qed.

(** A match that is not empty starts with a character the pattern may
    start with. *)
Lemma matches_start r : forall c s lx rest,
  In (lx, rest) (matches r (c :: s)) -> lx = [] \/ may_start c r = true.
Proof.
  induction r as [d|cs|r1 IH1 r2 IH2|r1 IH1 r2 IH2|r IH|cs|cs];
    intros c s lx rest; simpl.
  - destruct (d =? c)%N; [right; reflexivity | intros []].
  - destruct (cmem c cs); [right; reflexivity | intros []].
  - rewrite in_flat_map. intros ((l1, s1) & H1 & H2).
    rewrite in_map_iff in H2. destruct H2 as ((l2, s2) & E & H2).
    simpl in E; inversion E; subst; clear E.
    pose proof (matches_split _ _ _ _ H1) as E1.
    destruct (IH1 _ _ _ _ H1) as [-> | ->]; [|right; reflexivity].
    simpl in E1; subst s1. simpl.
    destruct (IH2 _ _ _ _ H2) as [-> | ->]; [left; reflexivity|].
    destruct (nullable r1) eqn:Hn.
    + right. now rewrite orb_true_r.
    + exfalso. eapply (matches_nonempty r1); eauto.
  - rewrite in_app_iff. intros [H|H].
    + destruct (IH1 _ _ _ _ H) as [-> | ->]; auto.
    + destruct (IH2 _ _ _ _ H) as [-> | ->]; auto using orb_true_r.
  - rewrite in_app_iff. intros [H|[E|[]]]; [eauto|].
    inversion E; auto.
  - destruct (cmem c cs); [right; reflexivity|].
    intros [E|[]]; inversion E; auto.
  - destruct (cmem c cs); [right; reflexivity | intros []].
Qed.

Lemma re_match_start r c s :
  nullable r = false -> may_start c r = false -> re_match r (c :: s) = None.
Proof.
  intros Hn Hs. unfold re_match.
  destruct (matches r (c :: s)) as [|[l rest] t] eqn:E; [reflexivity|].
  assert (Hin : In (l, rest) (matches r (c :: s))) by (rewrite E; left; reflexivity).
  destruct (matches_start _ _ _ _ _ Hin) as [->|H]; [|congruence].
  exfalso. eapply (matches_nonempty r); eauto.
Qed.

(** A match that is not empty ends with a character the pattern may end
    with. *)
Lemma matches_end r : forall c s lx rest,
  may_end c r = false -> In (lx ++ [c], rest) (matches r s) -> False.
Proof.
  induction r as [d|cs|r1 IH1 r2 IH2|r1 IH1 r2 IH2|r IH|cs|cs];
    intros c s lx rest; simpl.
  - intros Hd H. apply one_split in H. destruct H as (e & E & _ & He).
    destruct lx as [|x [|y lx]]; inversion E; subst. congruence.
  - intros Hd H. apply one_split in H. destruct H as (e & E & _ & He).
    destruct lx as [|x [|y lx]]; inversion E; subst. congruence.
  - intros Hd. apply orb_false_iff in Hd. destruct Hd as [Hd2 Hd1].
    rewrite in_flat_map. intros ((l1, s1) & H1 & H2).
    rewrite in_map_iff in H2. destruct H2 as ((l2, s2) & E & H2).
    simpl in E; inversion E; subst; clear E.
    destruct l2 as [|x l2] using rev_ind.
    + rewrite app_nil_r in H0. subst l1.
      destruct (nullable r2) eqn:Hn.
      * simpl in Hd1. eapply IH1; eauto.
      * eapply (matches_nonempty r2); eauto.
    + rewrite app_assoc in H0. apply app_inj_tail in H0. destruct H0 as [_ ->].
      eapply IH2; eauto.
  - intros Hd. apply orb_false_iff in Hd. destruct Hd as [Hd1 Hd2].
    rewrite in_app_iff. intros [H|H]; eauto.
  - intros Hd. rewrite in_app_iff. intros [H|[E|[]]]; [eauto|].
    inversion E. destruct lx; discriminate.
  - intros Hd H. apply star_split in H. destruct H as [_ Hall].
    unfold all_in in Hall. rewrite Forall_app in Hall. destruct Hall as [_ Hc].
    inversion Hc; congruence.
  - intros Hd H. apply (plus_split cs s) in H. destruct H as (_ & Hall & _).
    unfold all_in in Hall. rewrite Forall_app in Hall. destruct Hall as [_ Hc].
    inversion Hc; congruence.
Qed.

(** A match only has characters that can occur in the pattern. *)
Lemma matches_contain r : forall c s lx rest,
  may_contain c r = false -> In (lx, rest) (matches r s) -> ~ In c lx.
Proof.
  induction r as [d|cs|r1 IH1 r2 IH2|r1 IH1 r2 IH2|r IH|cs|cs];
    intros c s lx rest; simpl.
  - intros Hd H. apply one_split in H. destruct H as (e & -> & _ & He).
    apply N.eqb_eq in He. subst. intros [->|[]]. now rewrite N.eqb_refl in Hd.
  - intros Hd H. apply one_split in H. destruct H as (e & -> & _ & He).
    intros [->|[]]. congruence.
  - intros Hd. apply orb_false_iff in Hd. destruct Hd as [Hd1 Hd2].
    rewrite in_flat_map. intros ((l1, s1) & H1 & H2).
    rewrite in_map_iff in H2. destruct H2 as ((l2, s2) & E & H2).
    simpl in E; inversion E; subst; clear E.
    rewrite in_app_iff. intros [H|H]; [eapply IH1 | eapply IH2]; eauto.
  - intros Hd. apply orb_false_iff in Hd. destruct Hd as [Hd1 Hd2].
    rewrite in_app_iff. intros [H|H]; eauto.
  - intros Hd. rewrite in_app_iff. intros [H|[E|[]]]; [eauto|].
    inversion E. auto.
  - intros Hd H. apply star_split in H. destruct H as [_ Hall].
    unfold all_in in Hall. rewrite Forall_forall in Hall.
    intros Hin. apply Hall in Hin. congruence.
  - intros Hd H. apply (plus_split cs s) in H. destruct H as (_ & Hall & _).
    unfold all_in in Hall. rewrite Forall_forall in Hall.
    intros Hin. apply Hall in Hin. congruence.
Qed.

End Matcher.

(** ** The first match of a pattern *)

Section FirstOfSearch.

Lemma re_match_hd r s lx rest t :
  matches r s = (lx, rest) :: t -> re_match r s = Some lx.
Proof. unfold re_match. now intros ->. Qed.

Lemma re_match_none r s : matches r s = [] -> re_match r s = None.
Proof. unfold re_match. now intros ->. Qed.

(** The longest run is the first thing a greedy repetition tries. *)
Lemma star_hd cs a : forall b,
  all_in cs a -> stops cs b -> exists t, star cs (a ++ b) = (a, b) :: t.
Proof.
  induction a as [|c a IH]; intros b Ha Hb; simpl.
  - destruct b as [|d b]; simpl; [eauto|].
    simpl in Hb. rewrite Hb. eauto.
  - inversion Ha as [|? ? Hc Ha']; subst. rewrite Hc.
    destruct (IH b Ha' Hb) as (t & ->). simpl. unfold cons_fst at 1. simpl. eauto.
Qed.

Lemma plus_hd cs a b :
  a <> [] -> all_in cs a -> stops cs b ->
  exists t, matches (Plus cs) (a ++ b) = (a, b) :: t.
Proof.
  destruct a as [|c a]; [congruence|]. intros _ Ha Hb.
  inversion Ha as [|? ? Hc Ha']; subst. simpl. rewrite Hc.
  destruct (star_hd cs a b Ha' Hb) as (t & ->). simpl. unfold cons_fst at 1. simpl. eauto.
Qed.

(** What a repetition cannot start with, it does not match. *)
Lemma plus_none cs b : stops cs b -> matches (Plus cs) b = [].
Proof. destruct b as [|c b]; simpl; [reflexivity|]. now intros ->. Qed.

Lemma cat_hd r1 r2 s l1 s1 t1 l2 s2 t2 :
  matches r1 s = (l1, s1) :: t1 ->
  matches r2 s1 = (l2, s2) :: t2 ->
  exists t, matches (Cat r1 r2) s = (l1 ++ l2, s2) :: t.
Proof.
  intros H1 H2. simpl. rewrite H1. simpl. rewrite H2. simpl. eauto.
Qed.

Lemma cat_none_l r1 r2 s : matches r1 s = [] -> matches (Cat r1 r2) s = [].
Proof. intros H. simpl. now rewrite H. Qed.

Lemma opt_hd r s l1 s1 t1 :
  matches r s = (l1, s1) :: t1 -> exists t, matches (Opt r) s = (l1, s1) :: t.
Proof. intros H. simpl. rewrite H. simpl. eauto. Qed.

Lemma opt_skip r s : matches r s = [] -> matches (Opt r) s = [([], s)].
Proof. intros H. simpl. now rewrite H. Qed.

Lemma chr_hd c s : matches (Chr c) (c :: s) = [([c], s)].
Proof. simpl. now rewrite N.eqb_refl. Qed.

Lemma chr_none c s : stops (CSet false [Ch c]) s -> matches (Chr c) s = [].
Proof.
  destruct s as [|d s]; simpl; [reflexivity|].
  rewrite orb_false_r, N.eqb_sym. now intros ->.
Qed.

End FirstOfSearch.

(** ** The first rule that matches *)

Section FirstRule.
Variable rules : list (string * regex).

(** The rule that wins is the first one of the table, in its order, whose
    pattern matches. *)
Lemma first_match_some s tok_name lexeme :
  first_match rules s = Some (tok_name, lexeme) <->
  exists before tok_re after,
    rules = before ++ (tok_name, tok_re) :: after /\
    Forall (fun rule => re_match (snd rule) s = None) before /\
    re_match tok_re s = Some lexeme.
Proof.
  induction rules as [|[n r] l IH]; simpl.
  - split; [discriminate|]. intros (b & r & a & E & _). destruct b; discriminate.
  - destruct (re_match r s) as [lx|] eqn:Hr.
    + split.
      * intros E; inversion E; subst. exists [], r, l. repeat split; auto.
      * intros ([|[n' r'] b] & r0 & a & E & Hb & Hm); simpl in E; inversion E; subst.
        -- congruence.
        -- inversion Hb; subst. simpl in *. congruence.
    + rewrite IH. split.
      * intros (b & r0 & a & -> & Hb & Hm). exists ((n, r) :: b), r0, a.
        repeat split; auto.
      * intros ([|[n' r'] b] & r0 & a & E & Hb & Hm); simpl in E; inversion E; subst.
        -- congruence.
        -- inversion Hb; subst. exists b, r0, a. repeat split; auto.
Qed.

Lemma first_match_none s :
  first_match rules s = None <->
  Forall (fun rule => re_match (snd rule) s = None) rules.
Proof.
  induction rules as [|[n r] l IH]; simpl.
  - split; auto.
  - destruct (re_match r s) eqn:Hr.
    + split; [discriminate|]. intros H; inversion H; subst; simpl in *; congruence.
    + rewrite IH. split; [constructor; assumption|]. intros H; now inversion H.
Qed.

Lemma first_match_in s tok_name lexeme :
  first_match rules s = Some (tok_name, lexeme) ->
  exists tok_re, In (tok_name, tok_re) rules /\ re_match tok_re s = Some lexeme.
Proof.
  rewrite first_match_some. intros (b & r & a & -> & _ & H).
  exists r. split; [|assumption]. apply in_elt.
Qed.

Hypothesis no_empty_match :
  Forall (fun rule => nullable (snd rule) = false) rules.

(** A lexeme is a prefix of the text that is not empty. *)
Lemma first_match_split s tok_name lexeme :
  first_match rules s = Some (tok_name, lexeme) ->
  lexeme <> [] /\ exists rest, s = lexeme ++ rest.
Proof.
  intros H. apply first_match_in in H. destruct H as (r & Hin & Hm).
  rewrite Forall_forall in no_empty_match. specialize (no_empty_match _ Hin).
  split; [eapply re_match_nonempty; eauto|].
  apply re_match_split in Hm. destruct Hm as (rest & -> & _). eauto.
Qed.

(** Only the rules that may start with the first character matter. *)
Lemma first_match_rules_for c s :
  first_match rules (c :: s) = first_match (rules_for c rules) (c :: s).
Proof.
  unfold rules_for. induction rules as [|[n r] l IH]; [reflexivity|].
  inversion no_empty_match as [|? ? Hn Hl]; subst. simpl in Hn.
  simpl. destruct (may_start c r) eqn:Hs.
  - simpl. destruct (re_match r (c :: s)); [reflexivity | auto].
  - rewrite (re_match_start r c s Hn Hs). auto.
Qed.

End FirstRule.

(** ** The driving loop *)

Section LoopFacts.
Context {Tok : Type}.
Variable rules : list (string * regex).
Variable body : string -> text -> Z -> Z -> Z * Z * list Tok.
Variable eof : Z -> Z -> Tok.

Local Abbreviation lex_step := (Loop.lex_step rules body).
Local Abbreviation lex_loop := (Loop.lex_loop rules body).
Local Abbreviation run := (Loop.run rules body).
Local Abbreviation lex := (Loop.lex rules body eof).
Local Abbreviation reach := (Loop.reach rules body).

(** What one iteration does to the variables of the loop. *)
Lemma lex_step_some s st st' :
  lex_step s st = Some st' <->
  exists tok_name lexeme,
    first_match rules (skipn (Loop.pos st) s) = Some (tok_name, lexeme) /\
    st' = {| Loop.tokens := Loop.tokens st ++ snd (body tok_name lexeme (Loop.line st) (Loop.col st));
             Loop.pos := Loop.pos st + List.length lexeme;
             Loop.line := fst (fst (body tok_name lexeme (Loop.line st) (Loop.col st)));
             Loop.col := snd (fst (body tok_name lexeme (Loop.line st) (Loop.col st)));
             Loop.seen := Loop.seen st ++ [(tok_name, lexeme)] |}.
Proof.
  unfold Loop.lex_step.
  destruct (first_match rules (skipn (Loop.pos st) s)) as [[n lx]|].
  - destruct (body n lx (Loop.line st) (Loop.col st)) as [[l c] out] eqn:Hb.
    split.
    + intros E; inversion E; subst. exists n, lx. now rewrite Hb.
    + intros (n' & lx' & E & ->). inversion E; subst. now rewrite Hb.
  - split; [discriminate|]. intros (n' & lx' & E & _). discriminate.
Qed.

Lemma lex_step_none s st :
  lex_step s st = None <-> first_match rules (skipn (Loop.pos st) s) = None.
Proof.
  unfold Loop.lex_step.
  destruct (first_match rules (skipn (Loop.pos st) s)) as [[n lx]|].
  - destruct (body n lx (Loop.line st) (Loop.col st)) as [[l c] out].
    split; discriminate.
  - tauto.
Qed.

Lemma firstn_extend (s : text) n lx rest :
  skipn n s = lx ++ rest -> firstn (n + List.length lx) s = firstn n s ++ lx.
Proof.
  intros H.
  destruct (le_lt_dec (List.length s) n) as [Hle|Hlt].
  - rewrite skipn_all2 in H by assumption.
    destruct lx; [|discriminate]. simpl. now rewrite Nat.add_0_r, app_nil_r.
  - assert (Hn : List.length (firstn n s) = n) by (rewrite length_firstn; lia).
    rewrite <- (firstn_skipn n s) at 1. rewrite H.
    rewrite firstn_app, Hn.
    rewrite firstn_all2 by lia.
    replace (n + List.length lx - n)%nat with (List.length lx) by lia.
    now rewrite firstn_app, Nat.sub_diag, firstn_all, app_nil_r.
Qed.

Hypothesis no_empty_match :
  Forall (fun rule => nullable (snd rule) = false) rules.

(** An iteration that does not raise moves the offset forward, and stays
    within the text. *)
Lemma lex_step_progress s st st' :
  lex_step s st = Some st' ->
  (Loop.pos st < Loop.pos st' <= List.length s)%nat /\
  exists tok_name lexeme,
    Loop.seen st' = Loop.seen st ++ [(tok_name, lexeme)] /\
    lexeme <> [] /\
    firstn (Loop.pos st') s = firstn (Loop.pos st) s ++ lexeme.
Proof.
  rewrite lex_step_some. intros (n & lx & Hm & ->). simpl.
  destruct (first_match_split rules no_empty_match _ _ _ Hm) as (Hne & rest & Hs).
  assert (Hlen : (0 < List.length lx)%nat) by (destruct lx; simpl; [congruence | lia]).
  assert (Hle : (Loop.pos st + List.length lx <= List.length s)%nat).
  { pose proof (f_equal (@List.length _) Hs) as E.
    rewrite length_skipn, length_app in E. lia. }
  split; [lia|]. exists n, lx. repeat split; auto.
  eapply firstn_extend; eauto.
Qed.

(** The invariant of the loop: the consumed prefix is the concatenation
    of the lexemes matched so far. *)
Lemma reach_prefix s st :
  reach s st ->
  (Loop.pos st <= List.length s)%nat /\
  firstn (Loop.pos st) s = List.concat (map snd (Loop.seen st)).
Proof.
  induction 1 as [|st st' Hr [IHle IHeq] Hlt Hstep].
  - simpl. split; [lia | reflexivity].
  - destruct (lex_step_progress _ _ _ Hstep) as (Hpos & n & lx & Hseen & _ & Hfirst).
    split; [lia|].
    rewrite Hfirst, Hseen, map_app, concat_app, IHeq. simpl. now rewrite app_nil_r.
Qed.

(** With fuel for the characters that remain, the loop does not stop for
    lack of fuel, and more fuel changes nothing. *)
Lemma lex_loop_fuel s : forall fuel1 fuel2 st,
  (List.length s - Loop.pos st <= fuel1)%nat ->
  (List.length s - Loop.pos st <= fuel2)%nat ->
  lex_loop fuel1 s st = lex_loop fuel2 s st.
Proof.
  induction fuel1 as [|f1 IH]; intros fuel2 st H1 H2.
  - destruct fuel2; simpl; destruct (Nat.ltb_spec (Loop.pos st) (List.length s));
      try reflexivity; lia.
  - destruct fuel2 as [|f2]; simpl; destruct (Nat.ltb_spec (Loop.pos st) (List.length s));
      try reflexivity; try lia.
    destruct (lex_step s st) as [st'|] eqn:Hstep; [|reflexivity].
    apply lex_step_progress in Hstep. destruct Hstep as [Hpos _].
    apply IH; lia.
Qed.

Lemma lex_loop_ends s : forall fuel st,
  (List.length s - Loop.pos st <= fuel)%nat ->
  reach s st ->
  (exists st', lex_loop fuel s st = Loop.Done st' /\ reach s st' /\
               Loop.pos st' = List.length s) \/
  (exists st', lex_loop fuel s st = Loop.Raised st' /\ reach s st' /\
               (Loop.pos st' < List.length s)%nat /\ lex_step s st' = None).
Proof.
  induction fuel as [|f IH]; intros st Hf Hr.
  - simpl. destruct (Nat.ltb_spec (Loop.pos st) (List.length s)); [lia|].
    left. exists st. repeat split; auto.
    apply reach_prefix in Hr. lia.
  - simpl. destruct (Nat.ltb_spec (Loop.pos st) (List.length s)) as [Hlt|Hge].
    + destruct (lex_step s st) as [st'|] eqn:Hstep.
      * apply IH.
        -- apply lex_step_progress in Hstep. lia.
        -- econstructor; eauto.
      * right. exists st. auto.
    + left. exists st. repeat split; auto.
      apply reach_prefix in Hr. lia.
Qed.

(** The run goes through every reachable state. *)
Lemma run_through s st :
  reach s st -> run s = lex_loop (List.length s - Loop.pos st) s st.
Proof.
  induction 1 as [|st st' Hr IH Hlt Hstep].
  - unfold Loop.run. simpl. now rewrite Nat.sub_0_r.
  - rewrite IH.
    destruct (List.length s - Loop.pos st)%nat as [|f] eqn:Hf; [lia|].
    simpl. apply Nat.ltb_lt in Hlt. rewrite Hlt, Hstep.
    apply lex_step_progress in Hstep.
    apply lex_loop_fuel; lia.
Qed.

(** The three ways a run can end, of which the third never happens. *)
Lemma run_ends s :
  (exists st, run s = Loop.Done st /\ reach s st /\ Loop.pos st = List.length s) \/
  (exists st, run s = Loop.Raised st /\ reach s st /\
              (Loop.pos st < List.length s)%nat /\ lex_step s st = None).
Proof.
  unfold Loop.run. apply lex_loop_ends; [simpl; lia | constructor].
Qed.

Lemma run_done s st :
  run s = Loop.Done st ->
  reach s st /\ Loop.pos st = List.length s /\ List.concat (map snd (Loop.seen st)) = s.
Proof.
  intros H. destruct (run_ends s) as [(st' & E & Hr & Hp)|(st' & E & _)];
    rewrite H in E; inversion E; subst.
  repeat split; auto.
  destruct (reach_prefix _ _ Hr) as [_ <-]. rewrite Hp. apply firstn_all.
Qed.

Lemma run_raised s st :
  run s = Loop.Raised st <->
  reach s st /\ (Loop.pos st < List.length s)%nat /\
  first_match rules (skipn (Loop.pos st) s) = None.
Proof.
  split.
  - intros H. destruct (run_ends s) as [(st' & E & _)|(st' & E & Hr & Hp & Hs)];
      rewrite H in E; inversion E; subst.
    rewrite lex_step_none in Hs. auto.
  - intros (Hr & Hp & Hm). rewrite (run_through _ _ Hr).
    destruct (List.length s - Loop.pos st)%nat as [|f] eqn:Hf; [lia|].
    simpl. apply Nat.ltb_lt in Hp. rewrite Hp.
    rewrite <- lex_step_none in Hm. now rewrite Hm.
Qed.

Lemma lex_tokens s toks :
  lex s = Loop.Tokens toks <->
  exists st, run s = Loop.Done st /\
             toks = Loop.tokens st ++ [eof (Loop.line st) (Loop.col st)].
Proof.
  unfold Loop.lex. destruct (run s) as [st|st|st] eqn:E.
  - split.
    + intros H; inversion H; eauto.
    + intros (st' & H & ->). inversion H; reflexivity.
  - split; [discriminate|]. intros (st' & H & _); discriminate.
  - split; [discriminate|]. intros (st' & H & _); discriminate.
Qed.

Lemma lex_error s c l k :
  lex s = Loop.LexerError c l k <->
  exists st, run s = Loop.Raised st /\
             c = nth (Loop.pos st) s 0%N /\ l = Loop.line st /\ k = Loop.col st.
Proof.
  unfold Loop.lex. destruct (run s) as [st|st|st] eqn:E.
  - split; [discriminate|]. intros (st' & H & _); discriminate.
  - split.
    + intros H; inversion H; subst. eauto.
    + intros (st' & H & -> & -> & ->). inversion H; reflexivity.
  - split; [discriminate|]. intros (st' & H & _); discriminate.
Qed.

Lemma lex_total s :
  (exists st, lex s = Loop.Tokens (Loop.tokens st ++ [eof (Loop.line st) (Loop.col st)])) \/
  (exists c l k, lex s = Loop.LexerError c l k).
Proof.
  unfold Loop.lex.
  destruct (run_ends s) as [(st & -> & _)|(st & -> & _)]; eauto.
Qed.

End LoopFacts.

(** ** Line breaks and positions *)

Section Positions.

(** Induction on a text that also gives the property of the tail, for
    functions that read a carriage return together with the line feed
    after it. *)
Lemma text_ind2 (P : text -> Prop) :
  P [] ->
  (forall c s, P s -> P (tl s) -> P (c :: s)) ->
  forall s, P s.
Proof.
  intros H0 Hs s.
  enough (H : P s /\ P (tl s)) by tauto.
  induction s as [|c s [IH1 IH2]]; simpl; auto.
Qed.

Lemma re_split_newline_length s :
  List.length (re_split_newline s) = S (break_count s).
Proof.
  induction s as [|c s IH1 IH2] using text_ind2; [reflexivity|].
  cbn [re_split_newline break_count]. destruct (c =? CR)%N.
  - destruct s as [|d s]; [reflexivity|].
    cbn [tl] in IH2. destruct (d =? LF)%N; cbn [List.length]; congruence.
  - destruct (c =? LF)%N; [cbn [List.length]; congruence|].
    destruct (re_split_newline s) as [|p ps]; [discriminate|].
    cbn [List.length] in *. congruence.
Qed.

Lemma re_split_newline_none s :
  break_count s = O -> re_split_newline s = [s].
Proof.
  induction s as [|c s IH]; [reflexivity|].
  simpl. destruct (c =? CR)%N.
  - destruct s as [|d s]; [discriminate|]. destruct (d =? LF)%N; discriminate.
  - destruct (c =? LF)%N; [discriminate|].
    intros H. now rewrite (IH H).
Qed.

Lemma tail_from_split n s :
  tail_from n s =
  match break_count s with
  | O => (n + List.length s)%nat
  | S _ => tail_from 0 s
  end.
Proof.
  revert n. induction s as [|c s IH]; intros n; simpl; [lia|].
  destruct (c =? CR)%N.
  - destruct s as [|d s]; [reflexivity|]. destruct (d =? LF)%N; reflexivity.
  - destruct (c =? LF)%N; [reflexivity|].
    rewrite (IH (S n)), (IH 1%nat).
    destruct (break_count s); [lia | reflexivity].
Qed.

Lemma re_split_newline_last s :
  List.length (last (re_split_newline s) []) = tail_from 0 s.
Proof.
  induction s as [|c s IH1 IH2] using text_ind2; [reflexivity|].
  pose proof (re_split_newline_length s) as Hlen.
  assert (Hcons : forall (l : list text), l <> [] -> last ([] :: l) [] = last l []).
  { intros [|x l] H; [congruence | reflexivity]. }
  simpl. destruct (c =? CR)%N.
  - destruct s as [|d s]; [reflexivity|].
    destruct (d =? LF)%N.
    + rewrite Hcons; [exact IH2|].
      pose proof (re_split_newline_length s). destruct (re_split_newline s); discriminate.
    + rewrite Hcons; [exact IH1|]. destruct (re_split_newline (d :: s)); discriminate.
  - destruct (c =? LF)%N.
    + rewrite Hcons; [exact IH1|]. destruct (re_split_newline s); discriminate.
    + rewrite (tail_from_split 1 s).
      destruct (break_count s) eqn:Hb.
      * rewrite (re_split_newline_none s Hb). reflexivity.
      * destruct (re_split_newline s) as [|p [|q ps]]; try discriminate.
        exact IH1.
Qed.

Lemma re_findall_newline_length s :
  List.length (re_findall_newline s) = break_count s.
Proof.
  induction s as [|c s IH1 IH2] using text_ind2; [reflexivity|].
  cbn [re_findall_newline break_count]. destruct (c =? CR)%N.
  - destruct s as [|d s]; [reflexivity|].
    cbn [tl] in IH2. destruct (d =? LF)%N; cbn [List.length]; congruence.
  - destruct (c =? LF)%N; cbn [List.length]; congruence.
Qed.

Lemma break_count_none s :
  break_count s = O <-> ~ In LF s /\ ~ In CR s.
Proof.
  induction s as [|c s IH]; simpl; [tauto|].
  destruct (N.eqb_spec c CR) as [->|Hcr].
  - split; [|tauto]. destruct s as [|d s]; [discriminate|].
    destruct (d =? LF)%N; discriminate.
  - destruct (N.eqb_spec c LF) as [->|Hlf]; [split; [discriminate | tauto]|].
    rewrite IH. intuition congruence.
Qed.

Lemma has_newline_break_count s :
  has_newline s = false <-> break_count s = O.
Proof.
  rewrite break_count_none. unfold has_newline.
  rewrite orb_false_iff.
  assert (H : forall c, existsb (N.eqb c) s = false <-> ~ In c s).
  { intros c. rewrite <- not_true_iff_false, existsb_exists.
    split; intros H.
    - intros Hin. apply H. exists c. split; [assumption | apply N.eqb_refl].
    - intros (x & Hin & E). apply N.eqb_eq in E. subst. auto. }
  now rewrite !H.
Qed.

Lemma break_count_cons c s :
  break_count (c :: s) =
  if (c =? CR)%N then
    match s with
    | d :: s'' => if (d =? LF)%N then S (break_count s'') else S (break_count s)
    | [] => 1%nat
    end
  else if (c =? LF)%N then S (break_count s)
  else break_count s.
Proof. reflexivity. Qed.

Lemma tail_from_cons n c s :
  tail_from n (c :: s) =
  if (c =? CR)%N then
    match s with
    | d :: s'' => if (d =? LF)%N then tail_from 0 s'' else tail_from 0 s
    | [] => O
    end
  else if (c =? LF)%N then tail_from 0 s
  else tail_from (S n) s.
Proof. reflexivity. Qed.

(** Line breaks and the characters after the last of them are counted
    piece by piece, unless a piece ends inside a [\r\n] pair. *)
Lemma break_count_app a : forall b,
  ~ splits_crlf a b ->
  break_count (a ++ b) = (break_count a + break_count b)%nat /\
  forall n, tail_from n (a ++ b) = tail_from (tail_from n a) b.
Proof.
  induction a as [|c a IH1 IH2] using text_ind2; intros b Hb.
  - simpl. auto.
  - destruct a as [|d a].
    + change ([c] ++ b) with (c :: b).
      rewrite (break_count_cons c b), (break_count_cons c []).
      setoid_rewrite (tail_from_cons _ c b).
      setoid_rewrite (tail_from_cons _ c []).
      destruct (N.eqb_spec c CR) as [->|Hcr].
      * destruct b as [|d b]; [auto|].
        destruct (N.eqb_spec d LF) as [->|Hd]; [|auto].
        exfalso. apply Hb. exists [], b. auto.
      * destruct (c =? LF)%N; auto.
    + assert (H1 : ~ splits_crlf (d :: a) b).
      { intros (a' & b' & E & ->). apply Hb. exists (c :: a'), b'.
        simpl. rewrite E. auto. }
      assert (H2 : ~ splits_crlf a b).
      { intros (a' & b' & E & ->). apply Hb. exists (c :: d :: a'), b'.
        simpl. rewrite E. auto. }
      destruct (IH1 b H1) as [E1 E2]. destruct (IH2 b H2) as [F1 F2].
      cbn [tl] in F1, F2.
      change ((c :: d :: a) ++ b) with (c :: d :: a ++ b).
      change ((d :: a) ++ b) with (d :: a ++ b) in E1, E2.
      remember (a ++ b) as X eqn:HX.
      rewrite (break_count_cons c (d :: X)), (break_count_cons c (d :: a)).
      setoid_rewrite (tail_from_cons _ c (d :: X)).
      setoid_rewrite (tail_from_cons _ c (d :: a)).
      destruct (c =? CR)%N; [destruct (d =? LF)%N|destruct (c =? LF)%N];
        (split; [lia | auto]).
Qed.

(** The contract of the tracker agrees with the position in the text. *)
Lemma advance_contract_position prefix lexeme :
  ~ splits_crlf prefix lexeme ->
  advance_contract (1 + Z.of_nat (break_count prefix))
                   (1 + Z.of_nat (tail_from 0 prefix)) lexeme =
  (1 + Z.of_nat (break_count (prefix ++ lexeme)),
   1 + Z.of_nat (tail_from 0 (prefix ++ lexeme))).
Proof.
  intros H. destruct (break_count_app prefix lexeme H) as [E1 E2].
  rewrite E1, E2. unfold advance_contract.
  rewrite (tail_from_split (tail_from 0 prefix) lexeme).
  destruct (break_count lexeme); unfold len; f_equal; lia.
Qed.

End Positions.

(** ** The cursor and the position in the text *)

Section CursorFacts.
Context {Tok : Type}.
Variable rules : list (string * regex).
Variable body : string -> text -> Z -> Z -> Z * Z * list Tok.
(** The lexemes on which the body follows the contract of the tracker. *)
Variable tracked : string * text -> Prop.

Local Abbreviation lex_step := (Loop.lex_step rules body).
Local Abbreviation reach := (Loop.reach rules body).

Hypothesis no_empty_match :
  Forall (fun rule => nullable (snd rule) = false) rules.
Hypothesis line_break_rule :
  Forall (fun rule => may_end CR (snd rule) = false \/ snd rule = NEWLINE_re) rules.
Hypothesis body_advance :
  forall tok_name tok_re lexeme s line col,
    In (tok_name, tok_re) rules ->
    re_match tok_re s = Some lexeme ->
    tracked (tok_name, lexeme) ->
    fst (body tok_name lexeme line col) = advance_contract line col lexeme.

(** What the line-break rule matches. *)
Lemma newline_match s lexeme :
  re_match NEWLINE_re s = Some lexeme ->
  exists rest, s = lexeme ++ rest /\
    (lexeme = [CR; LF] \/ (lexeme = [CR] /\ forall b, rest <> LF :: b) \/ lexeme = [LF]).
Proof.
  unfold re_match, NEWLINE_re. destruct s as [|c s]; [discriminate|].
  cbn [matches one flat_map map app fst snd].
  destruct (N.eqb_spec CR c) as [<-|Hcr].
  - destruct s as [|d s]; cbn [matches one flat_map map app fst snd].
    + intros E; inversion E. exists []. split; [reflexivity|].
      right; left. split; [reflexivity | discriminate].
    + destruct (N.eqb_spec LF d) as [<-|Hd]; cbn [matches one flat_map map app fst snd].
      * intros E; inversion E. exists s. auto.
      * intros E; inversion E. exists (d :: s). split; [reflexivity|].
        right; left. split; [reflexivity | congruence].
  - cbn [matches one flat_map map app fst snd].
    destruct (N.eqb_spec LF c) as [<-|Hlf]; [|discriminate].
    intros E; inversion E. exists s. auto.
Qed.

(** No lexeme ends inside a [\r\n] pair. *)
Lemma lexeme_no_split s tok_name lexeme rest :
  first_match rules s = Some (tok_name, lexeme) ->
  s = lexeme ++ rest ->
  ~ splits_crlf lexeme rest.
Proof.
  intros Hm Hs (a' & b' & Ha & Hb).
  apply first_match_in in Hm. destruct Hm as (r & Hin & Hr).
  rewrite Forall_forall in line_break_rule.
  destruct (line_break_rule _ Hin) as [Hend | Hnl]; simpl in *.
  - apply re_match_split in Hr. destruct Hr as (rest' & _ & Hr).
    subst lexeme. eapply matches_end; eauto.
  - subst r. apply newline_match in Hr.
    destruct Hr as (rest' & Hs' & Hcases).
    rewrite Hs in Hs'. apply app_inv_head in Hs'. subst rest'.
    destruct Hcases as [E | [[E Hrest] | E]].
    + rewrite Ha in E. destruct a' as [|x [|y [|z a']]]; discriminate.
    + eapply Hrest; eauto.
    + rewrite Ha in E. destruct a' as [|x [|y a']]; discriminate.
Qed.

Lemma skipn_extend (s : text) n lx rest :
  skipn n s = lx ++ rest -> skipn (n + List.length lx) s = rest.
Proof.
  intros H. rewrite Nat.add_comm, <- skipn_skipn, H.
  rewrite skipn_app, skipn_all, Nat.sub_diag. reflexivity.
Qed.

(** As long as the body follows the contract, the cursor is the position
    of the offset in the text. *)
Lemma cursor_exact s st :
  reach s st ->
  Forall tracked (Loop.seen st) ->
  (Loop.line st, Loop.col st) = text_position s (Loop.pos st) /\
  ~ splits_crlf (firstn (Loop.pos st) s) (skipn (Loop.pos st) s).
Proof.
  induction 1 as [|st st' Hr IH Hlt Hstep].
  - intros _. split; [reflexivity|].
    intros (a' & b' & E & _). simpl in E. destruct a'; discriminate.
  - apply lex_step_some in Hstep. destruct Hstep as (n & lx & Hm & ->). simpl.
    rewrite Forall_app. intros [Hseen Hlx].
    inversion Hlx as [|? ? Hgood _]; subst.
    destruct (IH Hseen) as [Hcur Hsplit]. clear IH.
    destruct (first_match_split rules no_empty_match _ _ _ Hm) as (Hne & rest & Hs).
    rewrite (firstn_extend _ _ _ _ Hs), (skipn_extend _ _ _ _ Hs).
    destruct (first_match_in _ _ _ _ Hm) as (r & Hin & Hre).
    assert (Hpre : ~ splits_crlf (firstn (Loop.pos st) s) lx).
    { intros (a' & b' & Ea & Eb). apply Hsplit. rewrite Hs, Eb.
      exists a', (b' ++ rest). auto. }
    split.
    + rewrite <- (surjective_pairing (fst (body n lx (Loop.line st) (Loop.col st)))).
      rewrite (body_advance _ _ _ _ _ _ Hin Hre Hgood).
      unfold text_position in Hcur. apply pair_equal_spec in Hcur.
      destruct Hcur as [-> ->].
      unfold text_position.
      rewrite (firstn_extend _ _ _ _ Hs).
      apply advance_contract_position; assumption.
    + intros (a' & b' & Ea & Eb).
      apply (lexeme_no_split _ _ _ _ Hm Hs).
      destruct (exists_last Hne) as (lx' & x & ->).
      rewrite app_assoc in Ea. apply app_inj_tail in Ea. destruct Ea as [_ ->].
      exists lx', b'. auto.
Qed.

End CursorFacts.

(** ** Facts shared by the two rule tables *)

Ltac each_rule := repeat (constructor; [solve [auto] |]); constructor.

Lemma lookup_text_in {V : Type} (k : text) (d : list (text * V)) v :
  lookup_text k d = Some v -> In v (map snd d).
Proof.
  induction d as [|[k' v'] d IH]; simpl; [discriminate|].
  destruct (text_eqb k k'); [intros E; inversion E; auto | auto].
Qed.




(** ** The richer variant *)

Section RicherVariant.

Lemma lexer_no_empty_match :
  Forall (fun rule => nullable (snd rule) = false) Lexer.token_regex_list.
Proof. unfold Lexer.token_regex_list, Lexer.token_specification. each_rule. Qed.

Lemma lexer_line_break_rule :
  Forall (fun rule => may_end CR (snd rule) = false \/ snd rule = NEWLINE_re)
         Lexer.token_regex_list.
Proof. unfold Lexer.token_regex_list, Lexer.token_specification. each_rule. Qed.

(** [_advance_position] follows the contract of the tracker on every
    lexeme. *)
Lemma lexer_advance_position line col lexeme :
  Lexer._advance_position line col lexeme = advance_contract line col lexeme.
Proof.
  unfold Lexer._advance_position, advance_contract.
  destruct lexeme as [|c lx]; [unfold len; simpl; f_equal; lia|].
  set (s := c :: lx).
  rewrite <- negb_orb. fold (has_newline s).
  destruct (has_newline s) eqn:E; simpl negb; cbv iota.
  - destruct (break_count s) as [|k] eqn:Hb.
    + apply has_newline_break_count in Hb. congruence.
    + unfold len. rewrite re_split_newline_length, re_split_newline_last, Hb.
      f_equal; lia.
  - apply has_newline_break_count in E. now rewrite E.
Qed.

(** The body moves the cursor with [_advance_position] and stamps what it
    emits with the cursor it started from. *)
Lemma lexer_body tok_name lexeme line col :
  fst (Lexer.body tok_name lexeme line col) = Lexer._advance_position line col lexeme /\
  (snd (Lexer.body tok_name lexeme line col) = [] \/
   exists t, snd (Lexer.body tok_name lexeme line col) = [t] /\
             Lexer.lexeme t = lexeme /\ Lexer.line t = line /\ Lexer.col t = col).
Proof.
  unfold Lexer.body.
  destruct (Lexer._advance_position line col lexeme) as [l c].
  destruct (name_in tok_name _); [simpl; auto|].
  destruct (String.eqb tok_name "ID").
  - destruct (lookup_text _ _); simpl; eauto 7.
  - destruct (name_in tok_name _); simpl; eauto 7.
Qed.

Lemma lexer_cursor_exact s st :
  Lexer.reach s st ->
  (Loop.line st, Loop.col st) = text_position s (Loop.pos st).
Proof.
  intros Hr.
  refine (proj1 (cursor_exact Lexer.token_regex_list Lexer.body (fun _ => True)
                   lexer_no_empty_match lexer_line_break_rule _ s st Hr _)).
  - intros n r lx s' l c _ _ _.
    rewrite (proj1 (lexer_body n lx l c)). apply lexer_advance_position.
  - apply Forall_forall. auto.
Qed.

End RicherVariant.

(** ** The minimal variant *)

Section MinimalVariant.

Lemma analizador_no_empty_match :
  Forall (fun rule => nullable (snd rule) = false) Analizador.token_regex_list.
Proof. unfold Analizador.token_regex_list, Analizador.token_specification. each_rule. Qed.

Lemma analizador_line_break_rule :
  Forall (fun rule => may_end CR (snd rule) = false \/ snd rule = NEWLINE_re)
         Analizador.token_regex_list.
Proof. unfold Analizador.token_regex_list, Analizador.token_specification. each_rule. Qed.

(** Where a line break can be: in the lexemes of the line-break rule, and
    as a carriage return inside a string literal. *)
Lemma analizador_line_break_places :
  Forall (fun rule =>
            (fst rule = "NEWLINE" /\ snd rule = NEWLINE_re) \/
            (fst rule = "STRING" /\ may_contain LF (snd rule) = false) \/
            (may_contain CR (snd rule) = false /\ may_contain LF (snd rule) = false))
         Analizador.token_regex_list.
Proof. unfold Analizador.token_regex_list, Analizador.token_specification. each_rule. Qed.

(** The line follows the contract; the column is reset to 1 after any
    line break. *)
Lemma analizador_advance line col lexeme :
  Analizador.advance line col lexeme =
  match break_count lexeme with
  | O => (line, col + len lexeme)
  | S _ => (line + Z.of_nat (break_count lexeme), 1)
  end.
Proof.
  unfold Analizador.advance.
  destruct (has_newline lexeme) eqn:E.
  - destruct (break_count lexeme) as [|k] eqn:Hb.
    + apply has_newline_break_count in Hb. congruence.
    + unfold len. now rewrite re_findall_newline_length, Hb.
  - apply has_newline_break_count in E. now rewrite E.
Qed.

(** The body stamps what it emits with the line after the lexeme, and
    the column after the lexeme less its length. *)
Lemma analizador_body tok_name lexeme line col :
  fst (Analizador.body tok_name lexeme line col) = Analizador.advance line col lexeme /\
  (snd (Analizador.body tok_name lexeme line col) = [] \/
   exists t, snd (Analizador.body tok_name lexeme line col) = [t] /\
             Analizador.lexeme t = lexeme /\
             Analizador.line t = fst (Analizador.advance line col lexeme) /\
             Analizador.col t = snd (Analizador.advance line col lexeme) - len lexeme).
Proof.
  unfold Analizador.body.
  destruct (Analizador.advance line col lexeme) as [l c].
  destruct (name_in tok_name _); [simpl; auto|].
  destruct (String.eqb tok_name "ID").
  - destruct (lookup_text _ _); simpl; eauto 7.
  - destruct (String.eqb tok_name "NUM"); [simpl; eauto 7|].
    destruct (String.eqb tok_name "STRING"); simpl; eauto 7.
Qed.

Lemma analizador_advance_contract tok_name tok_re lexeme s line col :
  In (tok_name, tok_re) Analizador.token_regex_list ->
  re_match tok_re s = Some lexeme ->
  analizador_tracked (tok_name, lexeme) ->
  Analizador.advance line col lexeme = advance_contract line col lexeme.
Proof.
  intros Hin Hre Htr. rewrite analizador_advance. unfold advance_contract.
  pose proof analizador_line_break_places as Hp.
  rewrite Forall_forall in Hp. specialize (Hp _ Hin). simpl in Hp.
  assert (Hnone : ~ In LF lexeme -> ~ In CR lexeme ->
                  match break_count lexeme with
                  | O => (line, col + len lexeme)
                  | S _ => (line + Z.of_nat (break_count lexeme), 1)
                  end =
                  match break_count lexeme with
                  | O => (line, col + len lexeme)
                  | S _ => (line + Z.of_nat (break_count lexeme),
                            1 + Z.of_nat (tail_from 0 lexeme))
                  end).
  { intros H1 H2. now rewrite (proj2 (break_count_none lexeme) (conj H1 H2)). }
  destruct Hp as [[_ ->] | [[-> Hlf] | [Hcr Hlf]]].
  - apply newline_match in Hre. destruct Hre as (rest & _ & [-> | [[-> _] | ->]]);
      reflexivity.
  - apply re_match_split in Hre. destruct Hre as (rest & _ & Hm).
    apply Hnone; [eapply matches_contain; eauto | apply Htr; reflexivity].
  - apply re_match_split in Hre. destruct Hre as (rest & _ & Hm).
    apply Hnone; eapply matches_contain; eauto.
Qed.

Lemma analizador_cursor_exact s st :
  Analizador.reach s st ->
  Forall analizador_tracked (Loop.seen st) ->
  (Loop.line st, Loop.col st) = text_position s (Loop.pos st).
Proof.
  intros Hr Htr.
  refine (proj1 (cursor_exact Analizador.token_regex_list Analizador.body analizador_tracked
                   analizador_no_empty_match analizador_line_break_rule _ s st Hr Htr)).
  intros n r lx s' l c Hin Hre Hgood.
  rewrite (proj1 (analizador_body n lx l c)).
  eapply analizador_advance_contract; eauto.
Qed.

End MinimalVariant.

(** ** What the loop emits *)

Section EmittedFacts.
Context {Tok : Type}.
Variable rules : list (string * regex).
Variable body : string -> text -> Z -> Z -> Z * Z * list Tok.
Variable P : Tok -> Prop.

Hypothesis body_emits :
  forall tok_name tok_re lexeme s line col,
    In (tok_name, tok_re) rules ->
    re_match tok_re s = Some lexeme ->
    Forall P (snd (body tok_name lexeme line col)).

Lemma reach_tokens s st :
  Loop.reach rules body s st -> Forall P (Loop.tokens st).
Proof.
  induction 1 as [|st st' Hr IH Hlt Hstep]; [constructor|].
  apply lex_step_some in Hstep. destruct Hstep as (n & lx & Hm & ->). simpl.
  apply Forall_app. split; [assumption|].
  apply first_match_in in Hm. destruct Hm as (r & Hin & Hre). eauto.
Qed.

End EmittedFacts.

Ltac each_name H :=
  repeat (destruct H as [H|H]; [rewrite <- H in *; clear H |]); [.. | destruct H].

Lemma lexer_emitted tok_name tok_re lexeme s line col :
  In (tok_name, tok_re) Lexer.token_regex_list ->
  re_match tok_re s = Some lexeme ->
  Forall (fun t => Lexer.lexeme t <> [] /\ Lexer.token t <> "EOF")
         (snd (Lexer.body tok_name lexeme line col)).
Proof.
  intros Hin Hre.
  assert (Hne : lexeme <> []).
  { pose proof lexer_no_empty_match as H. rewrite Forall_forall in H.
    eapply re_match_nonempty; [apply (H _ Hin) | eassumption]. }
  assert (Hcat : Forall (fun t => Lexer.token t <> "EOF")
                        (snd (Lexer.body tok_name lexeme line col))).
  { clear Hre Hne. apply (in_map fst) in Hin. simpl in Hin.
    unfold Lexer.body. destruct (Lexer._advance_position line col lexeme) as [l c].
    remember (lookup_text (lower lexeme) Lexer.KEYWORDS) as k eqn:Hk.
    each_name Hin; cbn; try (repeat constructor; discriminate).
    destruct k as [kw|]; [|repeat constructor; discriminate].
    symmetry in Hk. apply lookup_text_in in Hk. simpl in Hk.
    repeat constructor. simpl.
    each_name Hk; discriminate. }
  destruct (lexer_body tok_name lexeme line col) as [_ [E | (t & E & Hl & _)]];
    rewrite E in *; constructor; [|constructor].
  inversion Hcat; subst. split; [congruence | assumption].
Qed.

Lemma analizador_emitted tok_name tok_re lexeme s line col :
  In (tok_name, tok_re) Analizador.token_regex_list ->
  re_match tok_re s = Some lexeme ->
  Forall (fun t => Analizador.lexeme t <> [] /\ Analizador.type t <> "EOF")
         (snd (Analizador.body tok_name lexeme line col)).
Proof.
  intros Hin Hre.
  assert (Hne : lexeme <> []).
  { pose proof analizador_no_empty_match as H. rewrite Forall_forall in H.
    eapply re_match_nonempty; [apply (H _ Hin) | eassumption]. }
  assert (Hcat : Forall (fun t => Analizador.type t <> "EOF")
                        (snd (Analizador.body tok_name lexeme line col))).
  { clear Hre Hne. apply (in_map fst) in Hin. simpl in Hin.
    unfold Analizador.body. destruct (Analizador.advance line col lexeme) as [l c].
    remember (lookup_text (lower lexeme) Analizador.KEYWORDS) as k eqn:Hk.
    each_name Hin; cbn; try (repeat constructor; discriminate).
    destruct k as [kw|]; [|repeat constructor; discriminate].
    symmetry in Hk. apply lookup_text_in in Hk. simpl in Hk.
    repeat constructor. simpl.
    each_name Hk; discriminate. }
  destruct (analizador_body tok_name lexeme line col) as [_ [E | (t & E & Hl & _)]];
    rewrite E in *; constructor; [|constructor].
  inversion Hcat; subst. split; [congruence | assumption].
Qed.

(** ** String literals *)

Section StringLiterals.

Lemma not_quote_nl_spec c :
  cmem c not_quote_nl = true <-> c <> QUOTE /\ c <> LF.
Proof.
  unfold not_quote_nl, cmem, existsb, item_mem.
  destruct (N.eqb_spec c QUOTE), (N.eqb_spec c LF); simpl; intuition congruence.
Qed.

(** Every match of the string rule is a quote, characters other than a
    quote and a line feed, and a quote. *)
Lemma string_matches_inv s lx rest :
  In (lx, rest) (matches STRING_re s) ->
  exists b, s = QUOTE :: b ++ QUOTE :: rest /\
            lx = QUOTE :: b ++ [QUOTE] /\
            all_in not_quote_nl b.
Proof.
  unfold STRING_re. cbn [matches].
  rewrite in_flat_map. intros ((l1, s1) & H1 & H2).
  apply one_split in H1. destruct H1 as (c & -> & -> & Hc).
  apply N.eqb_eq in Hc. subst c.
  rewrite in_map_iff in H2. destruct H2 as ((l2, s2) & E & H2).
  cbn [fst snd] in *. inversion E; subst; clear E.
  rewrite in_flat_map in H2. destruct H2 as ((l3, s3) & H3 & H4).
  apply star_split in H3. destruct H3 as [-> Hall].
  rewrite in_map_iff in H4. destruct H4 as ((l4, s4) & E & H4).
  cbn [fst snd] in *. inversion E; subst; clear E.
  apply one_split in H4. destruct H4 as (c & -> & -> & Hc).
  apply N.eqb_eq in Hc. subst c.
  exists l3. auto.
Qed.

Lemma closes_after b rest :
  all_in not_quote_nl b -> closes (b ++ QUOTE :: rest) = true.
Proof.
  induction 1 as [|c b Hc Hb IH]; simpl; [reflexivity|].
  apply not_quote_nl_spec in Hc. destruct Hc as [Hq Hl].
  apply N.eqb_neq in Hq, Hl. now rewrite Hq, Hl.
Qed.

Lemma closes_split s :
  closes s = true ->
  s = before_quote s ++ QUOTE :: after_quote s /\
  all_in not_quote_nl (before_quote s).
Proof.
  induction s as [|c s IH]; simpl; [discriminate|].
  destruct (N.eqb_spec c QUOTE) as [->|Hq]; [split; [reflexivity | constructor]|].
  destruct (N.eqb_spec c LF) as [->|Hl]; [discriminate|].
  intros H. destruct (IH H) as [E Hall].
  split; [simpl; congruence|].
  constructor; [apply not_quote_nl_spec; auto | assumption].
Qed.

(** The string rule matches at a quote exactly when a closing quote comes
    before the next line feed, and then takes the text up to that
    quote. *)
Lemma string_match after :
  closes after = true ->
  re_match STRING_re (QUOTE :: after) = Some (QUOTE :: before_quote after ++ [QUOTE]).
Proof.
  intros H. destruct (closes_split _ H) as [E Hall].
  rewrite E at 1.
  destruct (star_hd not_quote_nl (before_quote after) (QUOTE :: after_quote after) Hall)
    as (t & Hstar); [reflexivity|].
  destruct (cat_hd (Star not_quote_nl) (Chr QUOTE) _ _ _ _ _ _ []
              Hstar (chr_hd QUOTE (after_quote after))) as (t2 & H2).
  destruct (cat_hd (Chr QUOTE) _ _ _ _ _ _ _ _ (chr_hd QUOTE _) H2) as (t3 & H3).
  unfold STRING_re. apply (re_match_hd _ _ _ _ _ H3).
Qed.

Lemma string_no_match after :
  closes after = false -> re_match STRING_re (QUOTE :: after) = None.
Proof.
  intros H. apply re_match_none.
  destruct (matches STRING_re (QUOTE :: after)) as [|[lx rest] t] eqn:E; [reflexivity|].
  assert (Hin : In (lx, rest) (matches STRING_re (QUOTE :: after)))
    by (rewrite E; left; reflexivity).
  apply string_matches_inv in Hin. destruct Hin as (b & Es & _ & Hall).
  inversion Es; subst. rewrite closes_after in H by assumption. discriminate.
Qed.

Lemma string_lexeme s lexeme :
  re_match STRING_re s = Some lexeme ->
  exists b, lexeme = QUOTE :: b ++ [QUOTE] /\ all_in not_quote_nl b.
Proof.
  intros H. apply re_match_split in H. destruct H as (rest & _ & Hin).
  apply string_matches_inv in Hin. destruct Hin as (b & _ & -> & Hall). eauto.
Qed.

End StringLiterals.

(** ** Comments *)

Section Comments.

Lemma comment_match id rest :
  id <> [] -> all_in alnum id ->
  re_match COMMENT_re (py "//" ++ id ++ py "//" ++ rest) = Some (py "//" ++ id ++ py "//").
Proof.
  intros Hne Hall.
  destruct (plus_hd alnum id (py "//" ++ rest) Hne Hall) as (t & Hplus); [reflexivity|].
  assert (Hslash : forall X, matches (lit2 "//") (py "//" ++ X) = [(py "//", X)])
    by reflexivity.
  destruct (cat_hd (Plus alnum) (lit2 "//") _ _ _ _ _ _ []
              Hplus (Hslash rest)) as (t2 & H2).
  destruct (cat_hd (lit2 "//") _ _ _ _ _ _ _ _ (Hslash _) H2) as (t3 & H3).
  unfold COMMENT_re. apply (re_match_hd _ _ _ _ _ H3).
Qed.

End Comments.

(** ** Taking a match apart *)

Section MatchInversion.

Lemma in_cat r1 r2 s lx rest :
  In (lx, rest) (matches (Cat r1 r2) s) <->
  exists l1 s1 l2,
    In (l1, s1) (matches r1 s) /\ In (l2, rest) (matches r2 s1) /\ lx = l1 ++ l2.
Proof.
  cbn [matches]. rewrite in_flat_map. split.
  - intros ((l1, s1) & H1 & H2). rewrite in_map_iff in H2.
    destruct H2 as ((l2, s2) & E & H2). cbn [fst snd] in *.
    inversion E; subst. exists l1, s1, l2. auto.
  - intros (l1 & s1 & l2 & H1 & H2 & ->). exists (l1, s1). split; [assumption|].
    rewrite in_map_iff. exists (l2, rest). auto.
Qed.

Lemma in_opt r s lx rest :
  In (lx, rest) (matches (Opt r) s) <->
  In (lx, rest) (matches r s) \/ (lx = [] /\ rest = s).
Proof.
  cbn [matches]. rewrite in_app_iff. simpl. split.
  - intros [H | [E | []]]; [auto|]. inversion E; auto.
  - intros [H | [-> ->]]; auto.
Qed.

Lemma in_chr c s lx rest :
  In (lx, rest) (matches (Chr c) s) <-> lx = [c] /\ s = c :: rest.
Proof.
  cbn [matches]. split.
  - intros H. apply one_split in H. destruct H as (d & -> & -> & Hd).
    apply N.eqb_eq in Hd. subst. auto.
  - intros [-> ->]. simpl. rewrite N.eqb_refl. left; reflexivity.
Qed.

Lemma in_cls cs s lx rest :
  In (lx, rest) (matches (Cls cs) s) <->
  exists c, lx = [c] /\ s = c :: rest /\ cmem c cs = true.
Proof.
  cbn [matches]. split.
  - apply one_split.
  - intros (c & -> & -> & Hc). simpl. rewrite Hc. left; reflexivity.
Qed.

End MatchInversion.

(** ** Numbers *)

Section Numbers.
Variable marker : regex.
Variable markers : list char.

Hypothesis marker_yes :
  forall m X, In m markers -> matches marker (m :: X) = [([m], X)].
Hypothesis marker_no :
  forall X, match X with [] => True | c :: _ => ~ In c markers end ->
            matches marker X = [].
Hypothesis markers_sub :
  forall m, In m markers -> m = ch "e" \/ m = ch "E".
Hypothesis marker_inv :
  forall X l r, In (l, r) (matches marker X) -> exists m, In m markers /\ l = [m].

Lemma digit_mem c : cmem c digit = is_digit c.
Proof. unfold digit, cmem, existsb, item_mem. now rewrite orb_false_r. Qed.

Lemma digit_not_sign c : is_digit c = true -> cmem c sign = false.
Proof.
  intros H. unfold sign, cmem, existsb, item_mem.
  destruct (N.eqb_spec c (ch "+")) as [->|_]; [discriminate|].
  destruct (N.eqb_spec c (ch "-")) as [->|_]; [discriminate|]. reflexivity.
Qed.

Lemma number_ends_stops rest : number_ends rest -> stops digit rest.
Proof.
  intros H. destruct rest as [|c rest]; [exact I|].
  unfold stops. rewrite digit_mem. apply H.
Qed.

(** What follows the fraction starts neither with a digit nor with a
    dot. *)
Lemma after_fraction_first e rest :
  (forall m sg d3, e = Some (m, sg, d3) -> In m markers) ->
  number_ends rest ->
  stops digit (exponent e ++ rest) /\
  stops (CSet false [Ch (ch ".")]) (exponent e ++ rest).
Proof.
  intros He Hrest.
  assert (Hm : forall m X, In m markers ->
               stops digit (m :: X) /\ stops (CSet false [Ch (ch ".")]) (m :: X)).
  { intros m X Hin. destruct (markers_sub m Hin) as [-> | ->]; split; reflexivity. }
  destruct e as [[[m [sg|]] d3]|]; simpl exponent; simpl app.
  - apply Hm. eapply He; eauto.
  - apply Hm. eapply He; eauto.
  - split; [now apply number_ends_stops|].
    destruct rest as [|c rest]; simpl; [auto|].
    simpl in Hrest. destruct Hrest as (_ & Hdot & _).
    apply N.eqb_neq in Hdot. now rewrite Hdot.
Qed.

Lemma exponent_match e rest :
  (forall m sg d3, e = Some (m, sg, d3) ->
     In m markers /\ digits d3 /\
     (forall x, sg = Some x -> x = ch "+" \/ x = ch "-")) ->
  number_ends rest ->
  exists t,
    matches (Opt (Cat marker (Cat (Opt (Cls sign)) (Plus digit)))) (exponent e ++ rest)
    = (exponent e, rest) :: t.
Proof.
  intros He Hrest. pose proof (number_ends_stops _ Hrest) as Hstop.
  destruct e as [[[m sg] d3]|].
  - destruct (He _ _ _ eq_refl) as (Hm & [Hne Hall] & Hsg).
    destruct (plus_hd digit d3 rest Hne Hall Hstop) as (t & Hplus).
    destruct sg as [x|].
    + assert (Hx : matches (Opt (Cls sign)) (x :: d3 ++ rest)
                   = [([x], d3 ++ rest); ([], x :: d3 ++ rest)]).
      { destruct (Hsg x eq_refl) as [-> | ->]; reflexivity. }
      destruct (cat_hd _ _ _ _ _ _ _ _ _ Hx Hplus) as (t2 & H2).
      destruct (cat_hd _ _ _ _ _ _ _ _ _ (marker_yes m _ Hm) H2) as (t3 & H3).
      exact (opt_hd _ _ _ _ _ H3).
    + assert (Hx : matches (Opt (Cls sign)) (d3 ++ rest) = [([], d3 ++ rest)]).
      { apply opt_skip. destruct d3 as [|c d3]; [congruence|].
        inversion Hall as [|? ? Hc _]; subst. rewrite digit_mem in Hc.
        cbn [app matches one]. now rewrite (digit_not_sign c Hc). }
      destruct (cat_hd _ _ _ _ _ _ _ _ _ Hx Hplus) as (t2 & H2).
      destruct (cat_hd _ _ _ _ _ _ _ _ _ (marker_yes m _ Hm) H2) as (t3 & H3).
      exact (opt_hd _ _ _ _ _ H3).
  - exists []. apply opt_skip. apply cat_none_l. apply marker_no.
    destruct rest as [|c rest]; [exact I|].
    simpl in Hrest. destruct Hrest as (_ & _ & He1 & He2).
    intros Hin. destruct (markers_sub c Hin); congruence.
Qed.

Lemma fraction_match f X :
  (forall d2, f = Some d2 -> digits d2) ->
  stops digit X -> stops (CSet false [Ch (ch ".")]) X ->
  exists t,
    matches (Opt (Cat (lit1 ".") (Plus digit))) (fraction f ++ X) = (fraction f, X) :: t.
Proof.
  intros Hf Hd Hdot. destruct f as [d2|].
  - destruct (Hf _ eq_refl) as [Hne Hall].
    destruct (plus_hd digit d2 X Hne Hall Hd) as (t & Hplus).
    destruct (cat_hd _ _ _ _ _ _ _ _ _ (chr_hd (ch ".") (d2 ++ X)) Hplus) as (t2 & H2).
    exact (opt_hd _ _ _ _ _ H2).
  - exists []. apply opt_skip. apply cat_none_l. now apply chr_none.
Qed.

(** The number rule takes a whole number. *)
Lemma number_match d f e rest :
  number_parts markers d f e ->
  number_ends rest ->
  re_match (NUM_with marker) (number d f e ++ rest) = Some (number d f e).
Proof.
  intros ([Hne Hall] & Hf & He) Hrest.
  destruct (exponent_match e rest He Hrest) as (t1 & H1).
  destruct (after_fraction_first e rest) as [Hd Hdot]; [|assumption|].
  { intros m sg d3 E. now destruct (He _ _ _ E). }
  destruct (fraction_match f _ Hf Hd Hdot) as (t2 & H2).
  destruct (cat_hd _ _ _ _ _ _ _ _ _ H2 H1) as (t3 & H3).
  assert (Hstop : stops digit (fraction f ++ exponent e ++ rest)).
  { destruct f; [reflexivity | exact Hd]. }
  destruct (plus_hd digit d _ Hne Hall Hstop) as (t4 & H4).
  destruct (cat_hd _ _ _ _ _ _ _ _ _ H4 H3) as (t5 & H5).
  unfold number. rewrite <- !app_assoc.
  unfold NUM_with. apply (re_match_hd _ _ _ _ _ H5).
Qed.

Lemma plus_digits s lx rest :
  In (lx, rest) (matches (Plus digit) s) -> digits lx.
Proof. intros H. apply (plus_split digit s) in H. unfold digits. tauto. Qed.

(** Every lexeme of the number rule is a number. *)
Lemma number_lexeme s lexeme :
  re_match (NUM_with marker) s = Some lexeme ->
  exists d f e, lexeme = number d f e /\ number_parts markers d f e.
Proof.
  intros H. apply re_match_split in H. destruct H as (rest & _ & Hin).
  unfold NUM_with in Hin.
  apply in_cat in Hin. destruct Hin as (d & s1 & l2 & Hd & Hin & ->).
  apply plus_digits in Hd.
  apply in_cat in Hin. destruct Hin as (lf & s2 & le & Hf & He & ->).
  assert (Ff : exists f, lf = fraction f /\ forall d2, f = Some d2 -> digits d2).
  { apply in_opt in Hf. destruct Hf as [Hf | [-> _]].
    - apply in_cat in Hf. destruct Hf as (l1 & s3 & d2 & Hdot & Hd2 & ->).
      apply in_chr in Hdot. destruct Hdot as [-> _].
      apply plus_digits in Hd2.
      exists (Some d2). split; [reflexivity|]. intros ? E; inversion E; subst; assumption.
    - exists None. split; [reflexivity | discriminate]. }
  assert (Fe : exists e, le = exponent e /\
               forall m sg d3, e = Some (m, sg, d3) ->
                 In m markers /\ digits d3 /\
                 (forall x, sg = Some x -> x = ch "+" \/ x = ch "-")).
  { apply in_opt in He. destruct He as [He | [-> _]].
    - apply in_cat in He. destruct He as (lm & s3 & l3 & Hm & He & ->).
      apply marker_inv in Hm. destruct Hm as (m & Hm & ->).
      apply in_cat in He. destruct He as (ls & s4 & d3 & Hs & Hd3 & ->).
      apply plus_digits in Hd3.
      apply in_opt in Hs. destruct Hs as [Hs | [-> _]].
      + apply in_cls in Hs. destruct Hs as (x & -> & _ & Hx).
        exists (Some (m, Some x, d3)). split; [reflexivity|].
        intros ? ? ? E; inversion E; subst.
        split; [assumption|]. split; [assumption|].
        intros ? E'; inversion E'; subst.
        unfold sign, cmem, existsb, item_mem in Hx. simpl xorb in Hx.
        rewrite orb_false_r in Hx. apply orb_true_iff in Hx.
        destruct Hx as [Hx | Hx]; apply N.eqb_eq in Hx; auto.
      + exists (Some (m, None, d3)). split; [reflexivity|].
        intros ? ? ? E; inversion E; subst.
        split; [assumption|]. split; [assumption | discriminate].
    - exists None. split; [reflexivity | discriminate]. }
  destruct Ff as (f & -> & Hf'). destruct Fe as (e & -> & He').
  exists d, f, e. split; [reflexivity|]. split; [assumption|]. split; assumption.
Qed.

End Numbers.

Lemma lexer_marker_inv X l r :
  In (l, r) (matches (Cls (CSet false [Ch (ch "e"); Ch (ch "E")])) X) ->
  exists m, In m [ch "e"; ch "E"] /\ l = [m].
Proof.
  intros H. apply in_cls in H. destruct H as (c & -> & _ & Hc).
  exists c. split; [|reflexivity].
  unfold cmem, existsb, item_mem in Hc. simpl xorb in Hc.
  rewrite orb_false_r in Hc. apply orb_true_iff in Hc.
  destruct Hc as [Hc | Hc]; apply N.eqb_eq in Hc; subst; simpl; auto.
Qed.

Lemma analizador_marker_inv X l r :
  In (l, r) (matches (lit1 "e") X) -> exists m, In m [ch "e"] /\ l = [m].
Proof.
  intros H. apply in_chr in H. destruct H as [-> _].
  exists (ch "e"). simpl; auto.
Qed.

Lemma lexer_number_lexeme s lexeme :
  re_match Lexer.NUM_re s = Some lexeme ->
  exists d f e, lexeme = number d f e /\ number_parts [ch "e"; ch "E"] d f e.
Proof. apply number_lexeme. apply lexer_marker_inv. Qed.

Lemma analizador_number_lexeme s lexeme :
  re_match Analizador.NUM_re s = Some lexeme ->
  exists d f e, lexeme = number d f e /\ number_parts [ch "e"] d f e.
Proof. apply number_lexeme. apply analizador_marker_inv. Qed.

Lemma lexer_number_match d f e rest :
  number_parts [ch "e"; ch "E"] d f e ->
  number_ends rest ->
  re_match Lexer.NUM_re (number d f e ++ rest) = Some (number d f e).
Proof.
  apply number_match.
  - intros m X [<- | [<- | []]]; reflexivity.
  - intros [|c X] H; [reflexivity|].
    cbn [matches one cmem existsb item_mem xorb].
    destruct (N.eqb_spec c (ch "e")) as [->|_]; [exfalso; apply H; simpl; auto|].
    destruct (N.eqb_spec c (ch "E")) as [->|_]; [exfalso; apply H; simpl; auto|].
    reflexivity.
  - intros m [<- | [<- | []]]; auto.
Qed.

Lemma analizador_number_match d f e rest :
  number_parts [ch "e"] d f e ->
  number_ends rest ->
  re_match Analizador.NUM_re (number d f e ++ rest) = Some (number d f e).
Proof.
  apply number_match.
  - intros m X [<- | []]; reflexivity.
  - intros [|c X] H; [reflexivity|].
    unfold lit1. cbn [matches one].
    destruct (N.eqb_spec (ch "e") c) as [<-|_]; [exfalso; apply H; simpl; auto|].
    reflexivity.
  - intros m [<- | []]; auto.
Qed.

(** ** Identifiers and rule names *)

Ltac rule_of_name Hin :=
  simpl in Hin;
  repeat (destruct Hin as [Hin|Hin]; [inversion Hin; subst; clear Hin |]);
  [.. | contradiction].





Lemma lexer_rule_STRING r : In ("STRING", r) Lexer.token_regex_list -> r = STRING_re.
Proof. intros Hin. rule_of_name Hin. reflexivity. Qed.

Lemma analizador_rule_STRING r : In ("STRING", r) Analizador.token_regex_list -> r = STRING_re.
Proof. intros Hin. rule_of_name Hin. reflexivity. Qed.


(** ** A text that is one lexeme *)

Section OneLexeme.
Context {Tok : Type}.
Variable rules : list (string * regex).
Variable body : string -> text -> Z -> Z -> Z * Z * list Tok.
Variable eof : Z -> Z -> Tok.

Lemma lex_loop_done fuel s (st : Loop.state Tok) :
  (List.length s <= Loop.pos st)%nat ->
  Loop.lex_loop rules body fuel s st = Loop.Done st.
Proof.
  intros H. destruct fuel; simpl;
    destruct (Nat.ltb_spec (Loop.pos st) (List.length s)); try reflexivity; lia.
Qed.

Lemma lex_one_lexeme s tok_name :
  s <> [] ->
  first_match rules s = Some (tok_name, s) ->
  Loop.lex rules body eof s =
  Loop.Tokens (snd (body tok_name s 1 1) ++
               [eof (fst (fst (body tok_name s 1 1))) (snd (fst (body tok_name s 1 1)))]).
Proof.
  intros Hne Hm. unfold Loop.lex, Loop.run.
  destruct s as [|c s']; [congruence|]. set (s := c :: s') in *.
  assert (Hstep : Loop.lex_step rules body s Loop.init =
            Some {| Loop.tokens := [] ++ snd (body tok_name s 1 1);
                    Loop.pos := 0 + List.length s;
                    Loop.line := fst (fst (body tok_name s 1 1));
                    Loop.col := snd (fst (body tok_name s 1 1));
                    Loop.seen := [] ++ [(tok_name, s)] |}).
  { apply lex_step_some. exists tok_name, s. split; [exact Hm | reflexivity]. }
  change (List.length s) with (S (List.length s')) at 1.
  cbn [Loop.lex_loop]. change (Loop.pos Loop.init <? List.length s)%nat with true.
  cbv iota. rewrite Hstep. rewrite lex_loop_done by (simpl; lia). reflexivity.
Qed.

End OneLexeme.

(** ** Comments are skipped *)

Section CommentsSkipped.

Lemma comment_no_line_break id :
  id <> [] -> all_in alnum id -> break_count (py "//" ++ id ++ py "//") = O.
Proof.
  intros Hne Hall. pose proof (comment_match id [] Hne Hall) as H.
  apply re_match_split in H. destruct H as (rest & _ & Hin).
  apply break_count_none.
  split; (eapply matches_contain; [|exact Hin]); reflexivity.
Qed.

Lemma lexer_first_match_comment id rest :
  id <> [] -> all_in alnum id ->
  first_match Lexer.token_regex_list (py "//" ++ id ++ py "//" ++ rest) =
  Some ("COMMENT", py "//" ++ id ++ py "//").
Proof.
  intros Hne Hall. change (py "//" ++ id ++ py "//" ++ rest)
    with (ch "/" :: ch "/" :: id ++ py "//" ++ rest).
  rewrite (first_match_rules_for _ lexer_no_empty_match).
  change (rules_for (ch "/") Lexer.token_regex_list)
    with [("COMMENT", COMMENT_re); ("DIV", lit1 "/")].
  cbn [first_match].
  change (ch "/" :: ch "/" :: id ++ py "//" ++ rest)
    with (py "//" ++ id ++ py "//" ++ rest).
  now rewrite (comment_match id rest Hne Hall).
Qed.

Lemma analizador_first_match_comment id rest :
  id <> [] -> all_in alnum id ->
  first_match Analizador.token_regex_list (py "//" ++ id ++ py "//" ++ rest) =
  Some ("COMMENT", py "//" ++ id ++ py "//").
Proof.
  intros Hne Hall. change (py "//" ++ id ++ py "//" ++ rest)
    with (ch "/" :: ch "/" :: id ++ py "//" ++ rest).
  rewrite (first_match_rules_for _ analizador_no_empty_match).
  change (rules_for (ch "/") Analizador.token_regex_list)
    with [("COMMENT", COMMENT_re); ("DIV", lit1 "/")].
  cbn [first_match].
  change (ch "/" :: ch "/" :: id ++ py "//" ++ rest)
    with (py "//" ++ id ++ py "//" ++ rest).
  now rewrite (comment_match id rest Hne Hall).
Qed.

Lemma comment_length id :
  1 + len (py "//" ++ id ++ py "//") = 5 + len id.
Proof.
  unfold len. rewrite !length_app. simpl List.length. lia.
Qed.

Lemma lexer_lex_comment id :
  id <> [] -> all_in alnum id ->
  Lexer.lex (py "//" ++ id ++ py "//") = Loop.Tokens [Lexer.eof 1 (5 + len id)].
Proof.
  intros Hne Hall. unfold Lexer.lex.
  pose proof (lexer_first_match_comment id [] Hne Hall) as Hm.
  rewrite !app_nil_r in Hm.
  rewrite (lex_one_lexeme _ _ _ _ "COMMENT") by (assumption || discriminate).
  destruct (lexer_body "COMMENT" (py "//" ++ id ++ py "//") 1 1) as [Hfst _].
  rewrite Hfst, lexer_advance_position. unfold advance_contract.
  rewrite (comment_no_line_break id Hne Hall). cbn [fst snd].
  rewrite <- (comment_length id).
  unfold Lexer.body. destruct (Lexer._advance_position _ _ _). reflexivity.
Qed.

Lemma analizador_lex_comment id :
  id <> [] -> all_in alnum id ->
  Analizador.lex (py "//" ++ id ++ py "//") = Loop.Tokens [Analizador.eof 1 (5 + len id)].
Proof.
  intros Hne Hall. unfold Analizador.lex.
  pose proof (analizador_first_match_comment id [] Hne Hall) as Hm.
  rewrite !app_nil_r in Hm.
  rewrite (lex_one_lexeme _ _ _ _ "COMMENT") by (assumption || discriminate).
  destruct (analizador_body "COMMENT" (py "//" ++ id ++ py "//") 1 1) as [Hfst _].
  rewrite Hfst, analizador_advance.
  rewrite (comment_no_line_break id Hne Hall). cbn [fst snd].
  rewrite <- (comment_length id).
  unfold Analizador.body. destruct (Analizador.advance _ _ _). reflexivity.
Qed.

End CommentsSkipped.

(** ** When [lex] raises *)

Section Raising.
Context {Tok : Type}.
Variable rules : list (string * regex).
Variable body : string -> text -> Z -> Z -> Z * Z * list Tok.
Variable eof : Z -> Z -> Tok.

Hypothesis no_empty_match :
  Forall (fun rule => nullable (snd rule) = false) rules.

Lemma skipn_cons_nth (s : text) : forall n c after,
  skipn n s = c :: after -> nth n s 0%N = c /\ (n < List.length s)%nat.
Proof.
  induction s as [|x s IH]; intros [|n] c after H; simpl in *; try discriminate.
  - inversion H; subst. split; [reflexivity | lia].
  - destruct (IH _ _ _ H). split; [assumption | lia].
Qed.

(** [lex] raises exactly when the loop reaches an offset where no rule
    matches, and the error carries the character of that offset and the
    line and column of the cursor there. *)
Lemma lex_error_iff s c line col :
  Loop.lex rules body eof s = Loop.LexerError c line col <->
  exists st,
    Loop.reach rules body s st /\
    (Loop.pos st < List.length s)%nat /\
    first_match rules (skipn (Loop.pos st) s) = None /\
    c = nth (Loop.pos st) s 0%N /\ line = Loop.line st /\ col = Loop.col st.
Proof.
  rewrite lex_error. split.
  - intros (st & Hrun & Hc & Hl & Hk).
    apply (run_raised _ _ no_empty_match) in Hrun. exists st. tauto.
  - intros (st & Hr & Hp & Hm & Hc & Hl & Hk). exists st.
    split; [|auto]. apply (run_raised _ _ no_empty_match). auto.
Qed.

Lemma lex_raises_at s st c after :
  Loop.reach rules body s st ->
  skipn (Loop.pos st) s = c :: after ->
  first_match rules (c :: after) = None ->
  Loop.lex rules body eof s = Loop.LexerError c (Loop.line st) (Loop.col st).
Proof.
  intros Hr Hs Hm. apply lex_error_iff. exists st.
  destruct (skipn_cons_nth _ _ _ _ Hs) as [Hn Hlt].
  rewrite Hs. repeat split; auto.
Qed.

End Raising.

Lemma lexer_unclosed_quote after :
  closes after = false ->
  first_match Lexer.token_regex_list (QUOTE :: after) = None.
Proof.
  intros H. rewrite (first_match_rules_for _ lexer_no_empty_match).
  change (rules_for QUOTE Lexer.token_regex_list) with [("STRING", STRING_re)].
  cbn [first_match]. now rewrite (string_no_match after H).
Qed.

Lemma analizador_unclosed_quote after :
  closes after = false ->
  first_match Analizador.token_regex_list (QUOTE :: after) = None.
Proof.
  intros H. rewrite (first_match_rules_for _ analizador_no_empty_match).
  change (rules_for QUOTE Analizador.token_regex_list) with [("STRING", STRING_re)].
  cbn [first_match]. now rewrite (string_no_match after H).
Qed.

Lemma doubled_none c after :
  stops (CSet false [Ch c]) after ->
  matches (Cat (Chr c) (Chr c)) (c :: after) = [].
Proof.
  intros H. cbn [matches one]. rewrite N.eqb_refl.
  cbn [flat_map map app fst snd].
  destruct after as [|d after]; [reflexivity|].
  unfold stops, cmem, existsb, item_mem in H. simpl xorb in H.
  rewrite orb_false_r in H. cbn [one]. rewrite N.eqb_sym, H. reflexivity.
Qed.

Lemma analizador_bare_equal after :
  stops (CSet false [Ch (ch "=")]) after ->
  first_match Analizador.token_regex_list (ch "=" :: after) = None.
Proof.
  intros H. rewrite (first_match_rules_for _ analizador_no_empty_match).
  change (rules_for (ch "=") Analizador.token_regex_list) with [("EQEQ", lit2 "==")].
  cbn [first_match]. rewrite re_match_none; [reflexivity|].
  exact (doubled_none (ch "=") after H).
Qed.

Lemma lexer_bare_equal after :
  stops (CSet false [Ch (ch "=")]) after ->
  first_match Lexer.token_regex_list (ch "=" :: after) = Some ("EQUAL", [ch "="]).
Proof.
  intros H. rewrite (first_match_rules_for _ lexer_no_empty_match).
  change (rules_for (ch "=") Lexer.token_regex_list)
    with [("EQEQ", lit2 "=="); ("EQUAL", lit1 "=")].
  cbn [first_match]. rewrite re_match_none.
  - unfold lit1. unfold re_match. now rewrite chr_hd.
  - exact (doubled_none (ch "=") after H).
Qed.

(** * The claims *)

(** C1.  When [lex] succeeds, the lexemes matched during the run, taken in
    order and with the skipped ones (blanks, line breaks, comments),
    concatenate to the source text; and at every iteration of the loop the
    prefix consumed so far is the concatenation of the lexemes matched so
    far.  Both variants. *)
Theorem lexemes_rebuild_source (s : text) :
  (forall toks, Lexer.lex s = Loop.Tokens toks ->
                List.concat (map snd (Lexer.matched s)) = s) /\
  (forall toks, Analizador.lex s = Loop.Tokens toks ->
                List.concat (map snd (Analizador.matched s)) = s) /\
  (forall st, Lexer.reach s st ->
              firstn (Loop.pos st) s = List.concat (map snd (Loop.seen st))) /\
  (forall st, Analizador.reach s st ->
              firstn (Loop.pos st) s = List.concat (map snd (Loop.seen st))).
Proof.
  repeat split.
  - intros toks H. apply lex_tokens in H. destruct H as (st & Hrun & _).
    unfold Lexer.matched, Loop.matched. rewrite Hrun.
    apply (run_done _ _ lexer_no_empty_match _ _ Hrun).
  - intros toks H. apply lex_tokens in H. destruct H as (st & Hrun & _).
    unfold Analizador.matched, Loop.matched. rewrite Hrun.
    apply (run_done _ _ analizador_no_empty_match _ _ Hrun).
  - intros st H. apply (reach_prefix _ _ lexer_no_empty_match _ _ H).
  - intros st H. apply (reach_prefix _ _ analizador_no_empty_match _ _ H).
Qed.

(** When [lex] succeeds the result is the emitted tokens followed by one
    token of category EOF with an empty lexeme, stamped with the line and
    column of the cursor once the whole text is consumed; no emitted token
    has an empty lexeme or the category EOF.  Both variants.  In the
    richer variant that cursor is the position of the end of the text; in
    the minimal variant it is when no string literal matched holds a
    carriage return. *)
Lemma eof_token_closes (s : text) :
  (forall toks, Lexer.lex s = Loop.Tokens toks ->
     exists st,
       Lexer.run s = Loop.Done st /\ Loop.pos st = List.length s /\
       toks = Loop.tokens st ++
              [Lexer.MkToken "EOF" "EOF" [] (Loop.line st) (Loop.col st)] /\
       last toks (Lexer.eof 0 0) =
         Lexer.MkToken "EOF" "EOF" [] (Loop.line st) (Loop.col st) /\
       Forall (fun t => Lexer.lexeme t <> [] /\ Lexer.token t <> "EOF")
              (Loop.tokens st) /\
       (Loop.line st, Loop.col st) = text_position s (List.length s)) /\
  (forall toks, Analizador.lex s = Loop.Tokens toks ->
     exists st,
       Analizador.run s = Loop.Done st /\ Loop.pos st = List.length s /\
       toks = Loop.tokens st ++
              [Analizador.MkToken "EOF" [] (Loop.line st) (Loop.col st)] /\
       last toks (Analizador.eof 0 0) =
         Analizador.MkToken "EOF" [] (Loop.line st) (Loop.col st) /\
       Forall (fun t => Analizador.lexeme t <> [] /\ Analizador.type t <> "EOF")
              (Loop.tokens st) /\
       (Forall analizador_tracked (Analizador.matched s) ->
        (Loop.line st, Loop.col st) = text_position s (List.length s))).
Proof.
  split; intros toks H; apply lex_tokens in H; destruct H as (st & Hrun & ->);
    exists st.
  - destruct (run_done _ _ lexer_no_empty_match _ _ Hrun) as (Hr & Hp & _).
    repeat split; auto.
    + apply last_last.
    + apply (reach_tokens _ _ _ lexer_emitted _ _ Hr).
    + rewrite <- Hp. now apply lexer_cursor_exact.
  - destruct (run_done _ _ analizador_no_empty_match _ _ Hrun) as (Hr & Hp & _).
    split; [assumption|]. split; [assumption|]. split; [reflexivity|].
    split; [apply last_last|].
    split; [apply (reach_tokens _ _ _ analizador_emitted _ _ Hr)|].
    unfold Analizador.matched, Loop.matched. rewrite Hrun.
    intros Htr. rewrite <- Hp. now apply analizador_cursor_exact.
Qed.

(** C10.  [lex] ends on every text: every pattern of the two tables only
    matches lexemes that are not empty, so an iteration either raises or
    moves the offset forward by at least one character, and the call gives
    a token list closed by the EOF token or one [LexerError].  The fuel of
    the model, the length of the text, is never exhausted. *)
Theorem lex_terminates (s : text) :
  (forall tok_name tok_re t lexeme,
     In (tok_name, tok_re) Lexer.token_regex_list \/
     In (tok_name, tok_re) Analizador.token_regex_list ->
     re_match tok_re t = Some lexeme -> lexeme <> []) /\
  (forall st st',
     Loop.lex_step Lexer.token_regex_list Lexer.body s st = Some st' ->
     (Loop.pos st < Loop.pos st' <= List.length s)%nat) /\
  (forall st st',
     Loop.lex_step Analizador.token_regex_list Analizador.body s st = Some st' ->
     (Loop.pos st < Loop.pos st' <= List.length s)%nat) /\
  ((exists st, Lexer.lex s =
               Loop.Tokens (Loop.tokens st ++ [Lexer.eof (Loop.line st) (Loop.col st)])) \/
   (exists c line col, Lexer.lex s = Loop.LexerError c line col)) /\
  ((exists st, Analizador.lex s =
               Loop.Tokens (Loop.tokens st ++ [Analizador.eof (Loop.line st) (Loop.col st)])) \/
   (exists c line col, Analizador.lex s = Loop.LexerError c line col)).
Proof.
  repeat split.
  - intros n r t lx [Hin|Hin] Hre.
    + pose proof lexer_no_empty_match as H. rewrite Forall_forall in H.
      eapply re_match_nonempty; [apply (H _ Hin) | eassumption].
    + pose proof analizador_no_empty_match as H. rewrite Forall_forall in H.
      eapply re_match_nonempty; [apply (H _ Hin) | eassumption].
  - apply (lex_step_progress _ _ lexer_no_empty_match _ _ _ H).
  - apply (lex_step_progress _ _ lexer_no_empty_match _ _ _ H).
  - apply (lex_step_progress _ _ analizador_no_empty_match _ _ _ H).
  - apply (lex_step_progress _ _ analizador_no_empty_match _ _ _ H).
  - apply (lex_total _ _ _ lexer_no_empty_match).
  - apply (lex_total _ _ _ analizador_no_empty_match).
Qed.


(** C7.  The rule that wins at an offset is the first one of the table, in
    its order, whose pattern matches, and what it matches is not empty.
    In both tables every two-character operator comes before the
    one-character operator it starts with, and the comment rule before the
    division rule.  So a text that starts with a two-character operator
    gives that operator, [:=] alone gives one ASSIGN token, and a comment
    (two slashes, letters or digits, two slashes) is matched whole by the
    comment rule and gives no token. *)
Theorem first_rule_wins :
  (forall rules t tok_name lexeme,
     first_match rules t = Some (tok_name, lexeme) <->
     exists before tok_re after,
       rules = before ++ (tok_name, tok_re) :: after /\
       Forall (fun rule => re_match (snd rule) t = None) before /\
       re_match tok_re t = Some lexeme) /\
  (forall t tok_name lexeme,
     first_match Lexer.token_regex_list t = Some (tok_name, lexeme) \/
     first_match Analizador.token_regex_list t = Some (tok_name, lexeme) ->
     lexeme <> []) /\
  Forall (tried_before Lexer.token_regex_list)
         [("ASSIGN", "COLON"); ("EQEQ", "EQUAL"); ("NEQ", "NOT"); ("LE", "LT");
          ("GE", "GT"); ("DOTDOT", "DOT"); ("COMMENT", "DIV")] /\
  Forall (tried_before Analizador.token_regex_list)
         [("ASSIGN", "COLON"); ("NEQ", "NOT"); ("LE", "LT");
          ("GE", "GT"); ("DOTDOT", "DOT"); ("COMMENT", "DIV")] /\
  (forall rest,
     Forall (fun op => first_match Lexer.token_regex_list (py (snd op) ++ rest) =
                       Some (fst op, py (snd op)) /\
                       first_match Analizador.token_regex_list (py (snd op) ++ rest) =
                       Some (fst op, py (snd op)))
            [("ASSIGN", ":="); ("EQEQ", "=="); ("NEQ", "!="); ("LE", "<=");
             ("GE", ">="); ("ANDAND", "&&"); ("OROR", "||"); ("DOTDOT", "..")]) /\
  (forall id rest,
     id <> [] -> all_in alnum id ->
     first_match Lexer.token_regex_list (py "//" ++ id ++ py "//" ++ rest) =
       Some ("COMMENT", py "//" ++ id ++ py "//") /\
     first_match Analizador.token_regex_list (py "//" ++ id ++ py "//" ++ rest) =
       Some ("COMMENT", py "//" ++ id ++ py "//")) /\
  Lexer.lex (py ":=") =
    Loop.Tokens [Lexer.MkToken "ASSIGN" "ASIGNACION" (py ":=") 1 1;
                 Lexer.MkToken "EOF" "EOF" [] 1 3] /\
  Analizador.lex (py ":=") =
    Loop.Tokens [Analizador.MkToken "ASSIGN" (py ":=") 1 1;
                 Analizador.MkToken "EOF" [] 1 3] /\
  (forall id,
     id <> [] -> all_in alnum id ->
     Lexer.lex (py "//" ++ id ++ py "//") = Loop.Tokens [Lexer.eof 1 (5 + len id)] /\
     Analizador.lex (py "//" ++ id ++ py "//") =
       Loop.Tokens [Analizador.eof 1 (5 + len id)]).
Proof.
  split; [exact first_match_some|].
  split.
  { intros t n lx [H|H].
    - apply (first_match_split _ lexer_no_empty_match _ _ _ H).
    - apply (first_match_split _ analizador_no_empty_match _ _ _ H). }
  split; [repeat (constructor; [split; vm_compute; lia|]); constructor|].
  split; [repeat (constructor; [split; vm_compute; lia|]); constructor|].
  split; [intros rest; repeat (constructor; [split; vm_compute; reflexivity|]); constructor|].
  split; [intros id rest Hne Hall; split;
          [now apply lexer_first_match_comment | now apply analizador_first_match_comment]|].
  split; [reflexivity|]. split; [reflexivity|].
  intros id Hne Hall. split; [now apply lexer_lex_comment | now apply analizador_lex_comment].
Qed.

(** ** The position tracker of each variant *)

(** In the richer variant the cursor follows the contract on every lexeme
    and every emitted token is stamped with the cursor the lexeme started
    from. *)
Lemma lexer_tracks tok_name lexeme line col :
  fst (Lexer.body tok_name lexeme line col) = advance_contract line col lexeme /\
  Forall (fun t => Lexer.lexeme t = lexeme /\ Lexer.line t = line /\ Lexer.col t = col)
         (snd (Lexer.body tok_name lexeme line col)).
Proof.
  destruct (lexer_body tok_name lexeme line col) as [Hfst Hsnd].
  split; [rewrite Hfst; apply lexer_advance_position|].
  destruct Hsnd as [-> | (t & -> & H)]; repeat constructor; tauto.
Qed.

(** The minimal variant does the same on every lexeme but the string
    literals that hold a carriage return. *)
Lemma analizador_tracks tok_name tok_re lexeme s line col :
  In (tok_name, tok_re) Analizador.token_regex_list ->
  re_match tok_re s = Some lexeme ->
  analizador_tracked (tok_name, lexeme) ->
  fst (Analizador.body tok_name lexeme line col) = advance_contract line col lexeme /\
  Forall (fun t => Analizador.lexeme t = lexeme /\
                   Analizador.line t = line /\ Analizador.col t = col)
         (snd (Analizador.body tok_name lexeme line col)).
Proof.
  intros Hin Hre Htr.
  destruct (analizador_body tok_name lexeme line col) as [Hfst Hsnd].
  split; [rewrite Hfst; eapply analizador_advance_contract; eauto|].
  pose proof analizador_line_break_places as Hp.
  rewrite Forall_forall in Hp. specialize (Hp _ Hin). cbn [fst snd] in Hp.
  assert (Hnone : ~ In LF lexeme -> ~ In CR lexeme ->
                  Forall (fun t => Analizador.lexeme t = lexeme /\
                                   Analizador.line t = line /\ Analizador.col t = col)
                         (snd (Analizador.body tok_name lexeme line col))).
  { intros H1 H2. destruct Hsnd as [-> | (t & -> & Hl & Hli & Hco)]; repeat constructor; auto.
    - rewrite Hli, analizador_advance.
      now rewrite (proj2 (break_count_none lexeme) (conj H1 H2)).
    - rewrite Hco, analizador_advance.
      rewrite (proj2 (break_count_none lexeme) (conj H1 H2)). cbn [snd]. lia. }
  destruct Hp as [[-> _] | [[-> Hlf] | [Hcr Hlf]]].
  - unfold Analizador.body. destruct (Analizador.advance line col lexeme). constructor.
  - apply re_match_split in Hre. destruct Hre as (rest & _ & Hm).
    apply Hnone; [eapply matches_contain; eauto | apply Htr; reflexivity].
  - apply re_match_split in Hre. destruct Hre as (rest & _ & Hm).
    apply Hnone; eapply matches_contain; eauto.
Qed.

(** C2.  The richer variant keeps the contract of the position tracker
    ([lexer_tracks]); the minimal variant does not on a string literal
    that holds a carriage return.  On the literal quote, a, carriage
    return, b, quote the contract gives line 2, column 3 and the token
    starts at line 1, column 1: the minimal variant resets the column to 1
    and stamps the token with line 2, column -4. *)
Theorem minimal_variant_resets_column :
  break_count cr_string = 1%nat /\
  tail_from 0 cr_string = 2%nat /\
  advance_contract 1 1 cr_string = (2, 3) /\
  Lexer._advance_position 1 1 cr_string = (2, 3) /\
  Analizador.advance 1 1 cr_string = (2, 1) /\
  Lexer.lex cr_string =
    Loop.Tokens [Lexer.MkToken "STRING" "CADENA" cr_string 1 1;
                 Lexer.MkToken "EOF" "EOF" [] 2 3] /\
  Analizador.lex cr_string =
    Loop.Tokens [Analizador.MkToken "STRING" cr_string 2 (-4);
                 Analizador.MkToken "EOF" [] 2 1].
Proof. repeat split; vm_compute; reflexivity. Qed.

(** In the richer variant an error carries the position in the text of
    the character no rule matches. *)
Lemma lexer_error_position s c line col :
  Lexer.lex s = Loop.LexerError c line col <->
  exists st,
    Lexer.reach s st /\ (Loop.pos st < List.length s)%nat /\
    first_match Lexer.token_regex_list (skipn (Loop.pos st) s) = None /\
    c = nth (Loop.pos st) s 0%N /\
    (line, col) = text_position s (Loop.pos st).
Proof.
  unfold Lexer.lex. rewrite (lex_error_iff _ _ _ lexer_no_empty_match). split.
  - intros (st & Hr & Hp & Hm & Hc & -> & ->). exists st.
    repeat split; auto. now apply lexer_cursor_exact.
  - intros (st & Hr & Hp & Hm & Hc & Hpos). exists st.
    rewrite <- (lexer_cursor_exact s st Hr) in Hpos. inversion Hpos. auto 6.
Qed.

(** C3.  In both variants [lex] raises exactly at the first offset where
    no rule matches ([lex_error_iff]), and in the richer variant the error
    carries the position of that character ([lexer_error_position]).  The
    minimal variant does not after a string literal that holds a carriage
    return: in the text quote, a, carriage return, b, quote, at-sign the
    at-sign is at line 2, column 3, and the error says line 2, column 1. *)
Theorem minimal_variant_misplaces_error :
  nth 5 cr_string_at 0%N = ch "@" /\
  text_position cr_string_at 5 = (2, 3) /\
  Lexer.lex cr_string_at = Loop.LexerError (ch "@") 2 3 /\
  Analizador.lex cr_string_at = Loop.LexerError (ch "@") 2 1.
Proof. repeat split; vm_compute; reflexivity. Qed.

(** C8.  In both variants a successful result is the emitted tokens, none
    with an empty lexeme or the category EOF, followed by one EOF token
    with an empty lexeme, stamped with the cursor of the loop once the
    whole text is consumed ([eof_token_closes]).  In the richer variant
    that cursor is the position of the end of the text.  In the minimal
    variant it is not after a string literal that holds a carriage return:
    the text quote, a, carriage return, b, quote has 5 characters and ends
    at line 2, column 3, where the richer variant puts its EOF token; the
    minimal variant stamps its EOF token with line 2, column 1. *)
Theorem minimal_variant_misplaces_eof :
  List.length cr_string = 5%nat /\
  text_position cr_string (List.length cr_string) = (2, 3) /\
  last (match Lexer.lex cr_string with Loop.Tokens toks => toks | _ => [] end)
       (Lexer.eof 0 0) = Lexer.eof 2 3 /\
  last (match Analizador.lex cr_string with Loop.Tokens toks => toks | _ => [] end)
       (Analizador.eof 0 0) = Analizador.eof 2 1 /\
  Lexer.lex cr_string =
    Loop.Tokens [Lexer.MkToken "STRING" "CADENA" cr_string 1 1; Lexer.eof 2 3] /\
  Analizador.lex cr_string =
    Loop.Tokens [Analizador.MkToken "STRING" cr_string 2 (-4); Analizador.eof 2 1].
Proof. repeat split; vm_compute; reflexivity. Qed.

(** C4, as stated, fails: in the text quote, a, carriage return, b, quote
    the opening quote has no closing quote before the next line-break
    sequence, and both variants give a STRING token, not an error. *)
Lemma string_spans_carriage_return :
  closes_on_line (tl cr_string) = false /\
  Lexer.lex cr_string =
    Loop.Tokens [Lexer.MkToken "STRING" "CADENA" cr_string 1 1;
                 Lexer.MkToken "EOF" "EOF" [] 2 3] /\
  Analizador.lex cr_string =
    Loop.Tokens [Analizador.MkToken "STRING" cr_string 2 (-4);
                 Analizador.MkToken "EOF" [] 2 1].
Proof. repeat split; vm_compute; reflexivity. Qed.

(** C4, amended.  The string rule matches a quote, characters other than a
    quote and a line feed, and a quote: at a quote it matches exactly when
    a closing quote comes before the next line feed (a carriage return
    does not end the literal).  When the loop reaches a quote that is not
    closed in that sense, [lex] raises an error for the quote with the
    line and column of the cursor, which is the position of the quote in
    the richer variant, and in the minimal variant when no string literal
    matched before holds a carriage return.  When the rule matches, the
    STRING token's lexeme has both quotes. *)
Theorem unclosed_quote_raises (s : text) :
  (forall after,
     re_match STRING_re (QUOTE :: after) =
     if closes after then Some (QUOTE :: before_quote after ++ [QUOTE]) else None) /\
  (forall t lexeme,
     re_match STRING_re t = Some lexeme ->
     exists b, lexeme = QUOTE :: b ++ [QUOTE] /\
               Forall (fun c => c <> QUOTE /\ c <> LF) b) /\
  (forall st after,
     Lexer.reach s st ->
     skipn (Loop.pos st) s = QUOTE :: after ->
     closes after = false ->
     Lexer.lex s = Loop.LexerError QUOTE (Loop.line st) (Loop.col st) /\
     (Loop.line st, Loop.col st) = text_position s (Loop.pos st)) /\
  (forall st after,
     Analizador.reach s st ->
     skipn (Loop.pos st) s = QUOTE :: after ->
     closes after = false ->
     Analizador.lex s = Loop.LexerError QUOTE (Loop.line st) (Loop.col st) /\
     (Forall analizador_tracked (Loop.seen st) ->
      (Loop.line st, Loop.col st) = text_position s (Loop.pos st))) /\
  (forall st st' lexeme,
     first_match Lexer.token_regex_list (skipn (Loop.pos st) s) = Some ("STRING", lexeme) ->
     Loop.lex_step Lexer.token_regex_list Lexer.body s st = Some st' ->
     exists b t, lexeme = QUOTE :: b ++ [QUOTE] /\
                 Loop.tokens st' = Loop.tokens st ++ [t] /\
                 Lexer.token t = "STRING" /\ Lexer.lexeme t = lexeme) /\
  (forall st st' lexeme,
     first_match Analizador.token_regex_list (skipn (Loop.pos st) s) = Some ("STRING", lexeme) ->
     Loop.lex_step Analizador.token_regex_list Analizador.body s st = Some st' ->
     exists b t, lexeme = QUOTE :: b ++ [QUOTE] /\
                 Loop.tokens st' = Loop.tokens st ++ [t] /\
                 Analizador.type t = "STRING" /\ Analizador.lexeme t = lexeme) /\
  Lexer.lex texto =
    Loop.Tokens [Lexer.MkToken "STRING" "CADENA" texto 1 1;
                 Lexer.MkToken "EOF" "EOF" [] 1 22] /\
  Analizador.lex texto =
    Loop.Tokens [Analizador.MkToken "STRING" texto 1 1;
                 Analizador.MkToken "EOF" [] 1 22].
Proof.
  split.
  { intros after. destruct (closes after) eqn:E;
      [now apply string_match | now apply string_no_match]. }
  split.
  { intros t lx H. apply string_lexeme in H. destruct H as (b & -> & Hall).
    exists b. split; [reflexivity|].
    unfold all_in in Hall. rewrite Forall_forall in *. intros c Hc.
    apply not_quote_nl_spec. auto. }
  split.
  { intros st after Hr Hs Hc. split; [|now apply lexer_cursor_exact].
    apply (lex_raises_at _ _ _ lexer_no_empty_match _ _ _ _ Hr Hs).
    now apply lexer_unclosed_quote. }
  split.
  { intros st after Hr Hs Hc. split; [|now apply analizador_cursor_exact].
    apply (lex_raises_at _ _ _ analizador_no_empty_match _ _ _ _ Hr Hs).
    now apply analizador_unclosed_quote. }
  split.
  { intros st st' lx Hm Hstep.
    apply lex_step_some in Hstep. destruct Hstep as (n & lx' & Hm' & ->).
    rewrite Hm in Hm'. inversion Hm'; subst n lx'; clear Hm'.
    apply first_match_in in Hm. destruct Hm as (r & Hin & Hre).
    apply lexer_rule_STRING in Hin. subst r.
    apply string_lexeme in Hre. destruct Hre as (b & -> & _).
    cbn [Loop.tokens]. unfold Lexer.body.
    destruct (Lexer._advance_position _ _ _) as [l c]. cbn.
    eexists b, _. repeat split. }
  split.
  { intros st st' lx Hm Hstep.
    apply lex_step_some in Hstep. destruct Hstep as (n & lx' & Hm' & ->).
    rewrite Hm in Hm'. inversion Hm'; subst n lx'; clear Hm'.
    apply first_match_in in Hm. destruct Hm as (r & Hin & Hre).
    apply analizador_rule_STRING in Hin. subst r.
    apply string_lexeme in Hre. destruct Hre as (b & -> & _).
    cbn [Loop.tokens]. unfold Analizador.body.
    destruct (Analizador.advance _ _ _) as [l c]. cbn.
    eexists b, _. repeat split. }
  split; vm_compute; reflexivity.
Qed.

(** C5, as stated, fails: the minimal variant does not take [12E3] as one
    number, it gives the number [12] and the identifier [E3]. *)
Lemma minimal_variant_splits_uppercase_exponent :
  Analizador.lex (py "12E3") =
    Loop.Tokens [Analizador.MkToken "NUM" (py "12") 1 1;
                 Analizador.MkToken "ID" (py "E3") 1 3;
                 Analizador.MkToken "EOF" [] 1 5].
Proof. vm_compute. reflexivity. Qed.

(** C5, amended.  The number rule matches digits, then optionally a dot and
    digits, then optionally an exponent: a marker, an optional sign and
    digits.  The marker is [e] or [E] in the richer variant and only [e]
    in the minimal one.  Every lexeme of the rule has that shape, and a
    number followed by nothing that extends it is matched whole.  Both
    variants give one NUM token for [12.3e-2], [123] and [12e21]; [12E3]
    is one NUM token in the richer variant, and the number [12] followed
    by the identifier [E3] in the minimal one. *)
Theorem number_rule :
  (forall t lexeme,
     re_match Lexer.NUM_re t = Some lexeme ->
     exists d f e, lexeme = number d f e /\ number_parts [ch "e"; ch "E"] d f e) /\
  (forall t lexeme,
     re_match Analizador.NUM_re t = Some lexeme ->
     exists d f e, lexeme = number d f e /\ number_parts [ch "e"] d f e) /\
  (forall d f e rest,
     number_parts [ch "e"; ch "E"] d f e -> number_ends rest ->
     re_match Lexer.NUM_re (number d f e ++ rest) = Some (number d f e)) /\
  (forall d f e rest,
     number_parts [ch "e"] d f e -> number_ends rest ->
     re_match Analizador.NUM_re (number d f e ++ rest) = Some (number d f e)) /\
  Forall (fun n =>
            Lexer.lex (py n) =
              Loop.Tokens [Lexer.MkToken "NUM" "NUMERO" (py n) 1 1;
                           Lexer.MkToken "EOF" "EOF" [] 1 (1 + len (py n))])
         ["12.3e-2"; "123"; "12e21"; "12E3"] /\
  Forall (fun n =>
            Analizador.lex (py n) =
              Loop.Tokens [Analizador.MkToken "NUM" (py n) 1 1;
                           Analizador.MkToken "EOF" [] 1 (1 + len (py n))])
         ["12.3e-2"; "123"; "12e21"] /\
  Analizador.lex (py "12E3") =
    Loop.Tokens [Analizador.MkToken "NUM" (py "12") 1 1;
                 Analizador.MkToken "ID" (py "E3") 1 3;
                 Analizador.MkToken "EOF" [] 1 5].
Proof.
  split; [exact lexer_number_lexeme|].
  split; [exact analizador_number_lexeme|].
  split; [exact lexer_number_match|].
  split; [exact analizador_number_match|].
  split; [repeat (constructor; [vm_compute; reflexivity|]); constructor|].
  split; [repeat (constructor; [vm_compute; reflexivity|]); constructor|].
  vm_compute. reflexivity.
Qed.

(** C9, as stated, fails: the bare [=] rule is not the only entry of one
    table that the other lacks; the number entry of the richer variant is
    not in the table of the minimal one. *)
Lemma number_entries_differ :
  In ("NUM", Lexer.NUM_re) Lexer.token_specification /\
  ~ In ("NUM", Lexer.NUM_re) Analizador.token_specification /\
  ("NUM", Lexer.NUM_re) <> ("EQUAL", lit1 "=").
Proof.
  split; [simpl; auto 6|]. split; [|discriminate].
  intros H. simpl in H.
  repeat (destruct H as [H|H]; [inversion H|]). exact H.
Qed.

Ltac in_table := simpl; repeat (first [left; reflexivity | right]).

(** C9, amended.  The richer variant has a bare [=] rule after the [==]
    rule: [=] gives one EQUAL token and [==] one EQEQ token.  The minimal
    variant has no such rule: when its loop reaches an [=] that does not
    start [==], [lex] raises an error for it with the line and column of
    the cursor, which is the position of the [=] when no string literal
    matched before holds a carriage return.  EQUAL is the only rule name
    that one table has and the other lacks, the tables list the other
    names in the same order, and they give every name but NUM the same
    pattern. *)
Theorem bare_equal_rule (s : text) :
  Lexer.lex (py "=") =
    Loop.Tokens [Lexer.MkToken "EQUAL" "IGUAL" (py "=") 1 1;
                 Lexer.MkToken "EOF" "EOF" [] 1 2] /\
  Lexer.lex (py "==") =
    Loop.Tokens [Lexer.MkToken "EQEQ" "IGUAL_IGUAL" (py "==") 1 1;
                 Lexer.MkToken "EOF" "EOF" [] 1 3] /\
  tried_before Lexer.token_regex_list ("EQEQ", "EQUAL") /\
  (forall after,
     stops (CSet false [Ch (ch "=")]) after ->
     first_match Lexer.token_regex_list (ch "=" :: after) = Some ("EQUAL", [ch "="])) /\
  (forall st after,
     Analizador.reach s st ->
     skipn (Loop.pos st) s = ch "=" :: after ->
     stops (CSet false [Ch (ch "=")]) after ->
     Analizador.lex s = Loop.LexerError (ch "=") (Loop.line st) (Loop.col st) /\
     (Forall analizador_tracked (Loop.seen st) ->
      (Loop.line st, Loop.col st) = text_position s (Loop.pos st))) /\
  map fst Analizador.token_specification =
    filter (fun n => negb (String.eqb n "EQUAL")) (map fst Lexer.token_specification) /\
  (forall n r, In (n, r) Lexer.token_specification ->
               n <> "EQUAL" -> n <> "NUM" -> In (n, r) Analizador.token_specification) /\
  (forall n r, In (n, r) Analizador.token_specification ->
               n <> "NUM" -> In (n, r) Lexer.token_specification).
Proof.
  split; [vm_compute; reflexivity|]. split; [vm_compute; reflexivity|].
  split; [split; vm_compute; lia|].
  split; [exact lexer_bare_equal|].
  split.
  { intros st after Hr Hs Hstop. split; [|now apply analizador_cursor_exact].
    apply (lex_raises_at _ _ _ analizador_no_empty_match _ _ _ _ Hr Hs).
    now apply analizador_bare_equal. }
  split; [reflexivity|].
  split.
  - intros n r Hin He Hn. simpl in Hin.
    repeat (destruct Hin as [Hin|Hin];
            [inversion Hin; subst; clear Hin; try congruence; in_table |]).
    contradiction.
  - intros n r Hin Hn. simpl in Hin.
    repeat (destruct Hin as [Hin|Hin];
            [inversion Hin; subst; clear Hin; try congruence; in_table |]).
    contradiction.
Qed.

(** * The theorems at sample texts *)

Lemma lexemes_rebuild_source_witness :
  List.concat (map snd (Lexer.matched demo)) = demo /\
  List.concat (map snd (Analizador.matched demo)) = demo /\
  firstn (Loop.pos (@Loop.init Lexer.Token)) demo =
    List.concat (map snd (Loop.seen (@Loop.init Lexer.Token))).
Proof.
  destruct (lexemes_rebuild_source demo) as (H1 & H2 & H3 & _).
  split; [eapply H1; vm_compute; reflexivity|].
  split; [eapply H2; vm_compute; reflexivity|].
  apply H3. constructor.
Defined.

Lemma eof_token_closes_witness :
  (exists st, Lexer.run two_lines = Loop.Done st /\
              Loop.pos st = List.length two_lines) /\
  (exists st, Analizador.run two_lines = Loop.Done st /\
              Loop.pos st = List.length two_lines).
Proof.
  destruct (eof_token_closes two_lines) as [H1 H2]. split.
  - edestruct H1 as (st & Hrun & Hpos & _); [vm_compute; reflexivity|].
    exists st. split; assumption.
  - edestruct H2 as (st & Hrun & Hpos & _); [vm_compute; reflexivity|].
    exists st. split; assumption.
Defined.

Lemma lex_terminates_witness :
  In ("NUM", Lexer.NUM_re) Lexer.token_regex_list /\
  re_match Lexer.NUM_re (py "12;") = Some (py "12") /\
  py "12" <> [].
Proof.
  assert (Hin : In ("NUM", Lexer.NUM_re) Lexer.token_regex_list) by (simpl; auto 6).
  assert (Hre : re_match Lexer.NUM_re (py "12;") = Some (py "12"))
    by (vm_compute; reflexivity).
  split; [exact Hin|]. split; [exact Hre|].
  destruct (lex_terminates (py "12;")) as (H & _).
  exact (H "NUM" Lexer.NUM_re (py "12;") (py "12") (or_introl Hin) Hre).
Defined.


Lemma first_rule_wins_witness :
  py "abc123" <> [] /\ all_in alnum (py "abc123") /\
  Lexer.lex (py "//" ++ py "abc123" ++ py "//") = Loop.Tokens [Lexer.eof 1 11] /\
  Analizador.lex (py "//" ++ py "abc123" ++ py "//") = Loop.Tokens [Analizador.eof 1 11].
Proof.
  assert (Hne : py "abc123" <> []) by discriminate.
  assert (Hall : all_in alnum (py "abc123")) by (repeat constructor).
  split; [exact Hne|]. split; [exact Hall|].
  destruct first_rule_wins as (_ & _ & _ & _ & _ & _ & _ & _ & H).
  exact (H (py "abc123") Hne Hall).
Defined.

Lemma unclosed_quote_raises_witness :
  closes (py "abc") = false /\
  Lexer.lex (QUOTE :: py "abc") = Loop.LexerError QUOTE 1 1 /\
  Analizador.lex (QUOTE :: py "abc") = Loop.LexerError QUOTE 1 1.
Proof.
  split; [reflexivity|].
  destruct (unclosed_quote_raises (QUOTE :: py "abc")) as (_ & _ & H1 & H2 & _).
  split.
  - apply (H1 Loop.init (py "abc")); [constructor | reflexivity | reflexivity].
  - apply (H2 Loop.init (py "abc")); [constructor | reflexivity | reflexivity].
Defined.

Lemma number_rule_witness :
  number_parts [ch "e"; ch "E"] (py "12") (Some (py "3"))
               (Some (ch "e", Some (ch "-"), py "2")) /\
  number_ends (py ";") /\
  re_match Lexer.NUM_re (py "12.3e-2;") = Some (py "12.3e-2").
Proof.
  assert (Hp : number_parts [ch "e"; ch "E"] (py "12") (Some (py "3"))
                            (Some (ch "e", Some (ch "-"), py "2"))).
  { split; [split; [discriminate | repeat constructor]|].
    split.
    - intros d2 E. inversion E. split; [discriminate | repeat constructor].
    - intros m sg d3 E. inversion E.
      split; [simpl; auto|]. split; [split; [discriminate | repeat constructor]|].
      intros x Ex. inversion Ex. auto. }
  assert (He : number_ends (py ";")) by (repeat split; discriminate).
  split; [exact Hp|]. split; [exact He|].
  destruct number_rule as (_ & _ & H & _).
  exact (H _ _ _ _ Hp He).
Defined.

Lemma bare_equal_rule_witness :
  stops (CSet false [Ch (ch "=")]) (py " 1") /\
  Analizador.lex (py "= 1") = Loop.LexerError (ch "=") 1 1.
Proof.
  split; [reflexivity|].
  destruct (bare_equal_rule (py "= 1")) as (_ & _ & _ & _ & H & _).
  apply (H Loop.init (py " 1")); [constructor | reflexivity | reflexivity].
Defined.

(** * Further properties of the two files *)

(** ** The order of the tokens *)

Lemma strongly_sorted_snoc {A : Type} (R : A -> A -> Prop) (l : list A) (z : A) :
  StronglySorted R l -> Forall (fun x => R x z) l -> StronglySorted R (l ++ [z]).
Proof.
  induction 1 as [|x l Hs IH Hx]; intros Hz; simpl.
  - repeat constructor.
  - inversion Hz; subst. constructor; [auto|].
    apply Forall_app. split; [assumption | repeat constructor; assumption].
Qed.

Lemma strongly_sorted_app_one {A : Type} (R : A -> A -> Prop) (l out : list A) :
  StronglySorted R l ->
  (out = [] \/ exists z, out = [z] /\ Forall (fun x => R x z) l) ->
  StronglySorted R (l ++ out).
Proof.
  intros Hs [-> | (z & -> & Hz)]; [now rewrite app_nil_r|].
  now apply strongly_sorted_snoc.
Qed.

Section LineOrder.
Context {Tok : Type}.
Variable rules : list (string * regex).
Variable body : string -> text -> Z -> Z -> Z * Z * list Tok.
Variable line_of : Tok -> Z.

Hypothesis body_order :
  forall tok_name lexeme line col,
    1 <= line -> 1 <= col ->
    line <= fst (fst (body tok_name lexeme line col)) /\
    1 <= snd (fst (body tok_name lexeme line col)) /\
    (snd (body tok_name lexeme line col) = [] \/
     exists t, snd (body tok_name lexeme line col) = [t] /\
               line <= line_of t <= fst (fst (body tok_name lexeme line col))).

(** The cursor stays at or after line 1, column 1, and the lines of the
    tokens never decrease and never pass the line of the cursor. *)
Lemma reach_line_order s st :
  Loop.reach rules body s st ->
  1 <= Loop.line st /\ 1 <= Loop.col st /\
  Forall (fun t => 1 <= line_of t <= Loop.line st) (Loop.tokens st) /\
  StronglySorted Z.le (map line_of (Loop.tokens st)).
Proof.
  induction 1 as [|st st' Hr (Hl & Hc & Hall & Hs) Hlt Hstep].
  - simpl. repeat split; try lia; constructor.
  - apply lex_step_some in Hstep. destruct Hstep as (n & lx & Hm & ->). simpl.
    destruct (body_order n lx _ _ Hl Hc) as (Hl' & Hc' & Hout).
    split; [lia|]. split; [assumption|]. split.
    + apply Forall_app. split.
      * eapply Forall_impl; [|exact Hall]. simpl. intros t Ht. lia.
      * destruct Hout as [-> | (t & -> & Ht)]; repeat constructor; lia.
    + rewrite map_app. apply strongly_sorted_app_one; [assumption|].
      destruct Hout as [-> | (t & -> & Ht)]; [left; reflexivity|].
      right. exists (line_of t). split; [reflexivity|].
      rewrite Forall_map. eapply Forall_impl; [|exact Hall]. simpl. intros u Hu. lia.
Qed.

End LineOrder.

Lemma advance_contract_order line col lexeme :
  1 <= col ->
  line <= fst (advance_contract line col lexeme) /\
  1 <= snd (advance_contract line col lexeme).
Proof.
  intros Hc. unfold advance_contract, len.
  destruct (break_count lexeme); cbn [fst snd]; lia.
Qed.

Lemma lexer_body_order tok_name lexeme line col :
  1 <= line -> 1 <= col ->
  line <= fst (fst (Lexer.body tok_name lexeme line col)) /\
  1 <= snd (fst (Lexer.body tok_name lexeme line col)) /\
  (snd (Lexer.body tok_name lexeme line col) = [] \/
   exists t, snd (Lexer.body tok_name lexeme line col) = [t] /\
             line <= Lexer.line t <= fst (fst (Lexer.body tok_name lexeme line col))).
Proof.
  intros Hl Hc.
  destruct (lexer_body tok_name lexeme line col) as [Hfst Hsnd].
  rewrite Hfst, lexer_advance_position.
  destruct (advance_contract_order line col lexeme Hc) as [H1 H2].
  split; [assumption|]. split; [assumption|].
  destruct Hsnd as [E | (t & E & _ & Ht & _)]; [left; assumption|].
  right. exists t. split; [assumption | lia].
Qed.

Lemma analizador_body_order tok_name lexeme line col :
  1 <= line -> 1 <= col ->
  line <= fst (fst (Analizador.body tok_name lexeme line col)) /\
  1 <= snd (fst (Analizador.body tok_name lexeme line col)) /\
  (snd (Analizador.body tok_name lexeme line col) = [] \/
   exists t, snd (Analizador.body tok_name lexeme line col) = [t] /\
             line <= Analizador.line t <= fst (fst (Analizador.body tok_name lexeme line col))).
Proof.
  intros Hl Hc.
  destruct (analizador_body tok_name lexeme line col) as [Hfst Hsnd].
  rewrite Hfst.
  assert (H : line <= fst (Analizador.advance line col lexeme) /\
              1 <= snd (Analizador.advance line col lexeme)).
  { rewrite analizador_advance. unfold len.
    destruct (break_count lexeme); cbn [fst snd]; lia. }
  destruct H as [H1 H2].
  split; [assumption|]. split; [assumption|].
  destruct Hsnd as [E | (t & E & _ & Ht & _)]; [left; assumption|].
  right. exists t. split; [assumption | lia].
Qed.

(** X1.  In both variants the line and column of a [LexerError] are at
    least 1, and in a result the line numbers of the tokens start at 1 or
    later and never decrease from one token to the next, the EOF token
    included. *)
Theorem lines_never_decrease (s : text) :
  (forall c line col, Lexer.lex s = Loop.LexerError c line col -> 1 <= line /\ 1 <= col) /\
  (forall c line col, Analizador.lex s = Loop.LexerError c line col -> 1 <= line /\ 1 <= col) /\
  (forall toks, Lexer.lex s = Loop.Tokens toks ->
     Forall (fun t => 1 <= Lexer.line t) toks /\
     StronglySorted Z.le (map Lexer.line toks)) /\
  (forall toks, Analizador.lex s = Loop.Tokens toks ->
     Forall (fun t => 1 <= Analizador.line t) toks /\
     StronglySorted Z.le (map Analizador.line toks)).
Proof.
  split; [|split; [|split]].
  - intros c l k H. apply (lex_error_iff _ _ _ lexer_no_empty_match) in H.
    destruct H as (st & Hr & _ & _ & _ & -> & ->).
    destruct (reach_line_order _ _ _ lexer_body_order _ _ Hr) as (H1 & H2 & _). auto.
  - intros c l k H. apply (lex_error_iff _ _ _ analizador_no_empty_match) in H.
    destruct H as (st & Hr & _ & _ & _ & -> & ->).
    destruct (reach_line_order _ _ _ analizador_body_order _ _ Hr) as (H1 & H2 & _). auto.
  - intros toks H. apply lex_tokens in H. destruct H as (st & Hrun & ->).
    destruct (run_done _ _ lexer_no_empty_match _ _ Hrun) as (Hr & _).
    destruct (reach_line_order _ _ _ lexer_body_order _ _ Hr) as (H1 & H2 & Hall & Hs).
    split.
    + apply Forall_app. split; [|repeat constructor; assumption].
      eapply Forall_impl; [|exact Hall]. simpl. intros t Ht. lia.
    + rewrite map_app. apply strongly_sorted_snoc; [assumption|].
      rewrite Forall_map. eapply Forall_impl; [|exact Hall]. simpl. intros t Ht. lia.
  - intros toks H. apply lex_tokens in H. destruct H as (st & Hrun & ->).
    destruct (run_done _ _ analizador_no_empty_match _ _ Hrun) as (Hr & _).
    destruct (reach_line_order _ _ _ analizador_body_order _ _ Hr) as (H1 & H2 & Hall & Hs).
    split.
    + apply Forall_app. split; [|repeat constructor; assumption].
      eapply Forall_impl; [|exact Hall]. simpl. intros t Ht. lia.
    + rewrite map_app. apply strongly_sorted_snoc; [assumption|].
      rewrite Forall_map. eapply Forall_impl; [|exact Hall]. simpl. intros t Ht. lia.
Qed.

(** ** The tokens and the lexemes that are kept *)

Section KeptLexemes.
Context {Tok : Type}.
Variable rules : list (string * regex).
Variable body : string -> text -> Z -> Z -> Z * Z * list Tok.
Variable lexeme_of : Tok -> text.

Hypothesis body_lexeme :
  forall tok_name lexeme line col,
    map lexeme_of (snd (body tok_name lexeme line col)) =
    if skipped tok_name then [] else [lexeme].

Lemma reach_kept s st :
  Loop.reach rules body s st ->
  map lexeme_of (Loop.tokens st) =
  map snd (filter (fun m => negb (skipped (fst m))) (Loop.seen st)).
Proof.
  induction 1 as [|st st' Hr IH Hlt Hstep]; [reflexivity|].
  apply lex_step_some in Hstep. destruct Hstep as (n & lx & Hm & ->). simpl.
  rewrite map_app, filter_app, map_app, IH, body_lexeme. simpl.
  destruct (skipped n); reflexivity.
Qed.

End KeptLexemes.

Lemma lexer_body_lexeme tok_name lexeme line col :
  map Lexer.lexeme (snd (Lexer.body tok_name lexeme line col)) =
  if skipped tok_name then [] else [lexeme].
Proof.
  unfold Lexer.body, skipped.
  destruct (Lexer._advance_position line col lexeme) as [l c].
  destruct (name_in tok_name _); [reflexivity|].
  destruct (String.eqb tok_name "ID").
  - destruct (lookup_text _ _); reflexivity.
  - destruct (name_in tok_name _); reflexivity.
Qed.

Lemma analizador_body_lexeme tok_name lexeme line col :
  map Analizador.lexeme (snd (Analizador.body tok_name lexeme line col)) =
  if skipped tok_name then [] else [lexeme].
Proof.
  unfold Analizador.body, skipped.
  destruct (Analizador.advance line col lexeme) as [l c].
  destruct (name_in tok_name _); [reflexivity|].
  destruct (String.eqb tok_name "ID").
  - destruct (lookup_text _ _); reflexivity.
  - destruct (String.eqb tok_name "NUM"); [reflexivity|].
    destruct (String.eqb tok_name "STRING"); reflexivity.
Qed.

(** X2.  In both variants the lexemes of the tokens of a result are, in
    order, the lexemes matched by the rules other than the blank, the
    line-break and the comment rule, followed by the empty lexeme of the
    EOF token: every other match gives exactly one token, with the matched
    text as its lexeme. *)
Theorem tokens_are_kept_lexemes (s : text) :
  (forall toks, Lexer.lex s = Loop.Tokens toks ->
     map Lexer.lexeme toks =
     map snd (filter (fun m => negb (skipped (fst m))) (Lexer.matched s)) ++ [[]]) /\
  (forall toks, Analizador.lex s = Loop.Tokens toks ->
     map Analizador.lexeme toks =
     map snd (filter (fun m => negb (skipped (fst m))) (Analizador.matched s)) ++ [[]]).
Proof.
  split; intros toks H; apply lex_tokens in H; destruct H as (st & Hrun & ->).
  - destruct (run_done _ _ lexer_no_empty_match _ _ Hrun) as (Hr & _).
    unfold Lexer.matched, Loop.matched. rewrite Hrun, map_app.
    now rewrite (reach_kept _ _ _ lexer_body_lexeme _ _ Hr).
  - destruct (run_done _ _ analizador_no_empty_match _ _ Hrun) as (Hr & _).
    unfold Analizador.matched, Loop.matched. rewrite Hrun, map_app.
    now rewrite (reach_kept _ _ _ analizador_body_lexeme _ _ Hr).
Qed.

(** ** Texts of blanks and line breaks *)

Lemma star_not_empty cs s : star cs s <> [].
Proof.
  destruct s as [|c s]; simpl; [discriminate|].
  destruct (cmem c cs); [|discriminate].
  destruct (map (cons_fst c) (star cs s)); discriminate.
Qed.

Lemma blank_rule_matches (c : char) (rest : text) :
  c = 32%N \/ c = TAB ->
  exists lexeme, re_match WHITESPACE_re (c :: rest) = Some lexeme.
Proof.
  intros Hc. unfold re_match, WHITESPACE_re. cbn [matches].
  replace (cmem c blank) with true by (destruct Hc as [-> | ->]; reflexivity).
  destruct (star blank rest) as [|m t] eqn:E; [now apply star_not_empty in E|].
  simpl. eauto.
Qed.

Lemma line_break_rule_matches (c : char) (rest : text) :
  c = CR \/ c = LF ->
  exists lexeme, re_match NEWLINE_re (c :: rest) = Some lexeme.
Proof.
  intros [-> | ->]; unfold re_match, NEWLINE_re.
  - destruct rest as [|d rest]; [simpl; eauto|].
    cbn [matches one flat_map map app fst snd]. change (CR =? CR)%N with true.
    cbv iota. cbn [flat_map map app fst snd one].
    destruct (LF =? d)%N; simpl; eauto.
  - simpl. eauto.
Qed.

Section BlankTexts.
Variable rules : list (string * regex).

(** The table starts with the blank rule and the line-break rule. *)
Hypothesis first_rules :
  exists others,
    rules = ("WHITESPACE", WHITESPACE_re) :: ("NEWLINE", NEWLINE_re) :: others.

Lemma blank_first_match (c : char) (rest : text) :
  c = 32%N \/ c = TAB \/ c = CR \/ c = LF ->
  exists tok_name lexeme,
    first_match rules (c :: rest) = Some (tok_name, lexeme) /\ skipped tok_name = true.
Proof.
  destruct first_rules as (others & ->). intros Hc. cbn [first_match].
  destruct Hc as [Hc | [Hc | Hc]].
  - destruct (blank_rule_matches c rest (or_introl Hc)) as (lx & ->). eauto.
  - destruct (blank_rule_matches c rest (or_intror Hc)) as (lx & ->). eauto.
  - destruct (re_match WHITESPACE_re (c :: rest)) as [lx|]; [eauto|].
    cbn [first_match].
    destruct (line_break_rule_matches c rest Hc) as (lx & E).
    exists "NEWLINE", lx. now rewrite E.
Qed.

Context {Tok : Type}.
Variable body : string -> text -> Z -> Z -> Z * Z * list Tok.
Variable eof : Z -> Z -> Tok.
Hypothesis no_empty_match :
  Forall (fun rule => nullable (snd rule) = false) rules.
Hypothesis body_skips :
  forall tok_name lexeme line col,
    skipped tok_name = true -> snd (body tok_name lexeme line col) = [].

Lemma skipn_forall {A : Type} (P : A -> Prop) (l : list A) n :
  Forall P l -> Forall P (skipn n l).
Proof.
  intros H. rewrite <- (firstn_skipn n l) in H. now apply Forall_app in H.
Qed.

Lemma blank_reach s st :
  blank_text s ->
  Loop.reach rules body s st ->
  Loop.tokens st = [] /\ Forall (fun m => skipped (fst m) = true) (Loop.seen st).
Proof.
  intros Hs. induction 1 as [|st st' Hr [IHt IHs] Hlt Hstep].
  - split; constructor.
  - apply lex_step_some in Hstep. destruct Hstep as (n & lx & Hm & ->). simpl.
    assert (Hrest : blank_text (skipn (Loop.pos st) s)) by (apply skipn_forall, Hs).
    destruct (skipn (Loop.pos st) s) as [|c rest] eqn:E.
    { apply (f_equal (@List.length _)) in E. rewrite length_skipn in E. simpl in E. lia. }
    inversion Hrest as [|? ? Hc _]; subst.
    destruct (blank_first_match c rest Hc) as (n' & lx' & Hm' & Hskip).
    rewrite Hm in Hm'. inversion Hm'; subst n' lx'.
    rewrite IHt, (body_skips _ _ _ _ Hskip). split; [reflexivity|].
    apply Forall_app. split; [assumption | repeat constructor; assumption].
Qed.

(** A text of blanks and line breaks gives the EOF token alone. *)
Lemma blank_lex s :
  blank_text s ->
  exists st,
    Loop.run rules body s = Loop.Done st /\
    Loop.reach rules body s st /\ Loop.pos st = List.length s /\
    Forall (fun m => skipped (fst m) = true) (Loop.seen st) /\
    Loop.lex rules body eof s = Loop.Tokens [eof (Loop.line st) (Loop.col st)].
Proof.
  intros Hs.
  destruct (run_ends rules body no_empty_match s)
    as [(st & Hrun & Hr & Hp) | (st & Hrun & Hr & Hp & Hstep)].
  - exists st. destruct (blank_reach _ _ Hs Hr) as [Ht Hseen].
    repeat split; auto. unfold Loop.lex. now rewrite Hrun, Ht.
  - exfalso. apply lex_step_none in Hstep.
    assert (Hrest : blank_text (skipn (Loop.pos st) s)) by (apply skipn_forall, Hs).
    destruct (skipn (Loop.pos st) s) as [|c rest] eqn:E.
    { apply (f_equal (@List.length _)) in E. rewrite length_skipn in E. simpl in E. lia. }
    inversion Hrest as [|? ? Hc _]; subst.
    destruct (blank_first_match c rest Hc) as (n' & lx' & Hm' & _). congruence.
Qed.

End BlankTexts.

Lemma skipped_tracked (seen : list (string * text)) :
  Forall (fun m => skipped (fst m) = true) seen -> Forall analizador_tracked seen.
Proof.
  apply Forall_impl. intros [n lx] H E. simpl in *. subst n. discriminate.
Qed.

(** X3.  A text made only of blanks, tabs, carriage returns and line feeds
    never raises: in both variants the result is the EOF token alone,
    stamped with the position of the end of the text. *)
Theorem blank_text_gives_eof (s : text) :
  blank_text s ->
  Lexer.lex s = Loop.Tokens [Lexer.eof (fst (text_position s (List.length s)))
                                       (snd (text_position s (List.length s)))] /\
  Analizador.lex s =
    Loop.Tokens [Analizador.eof (fst (text_position s (List.length s)))
                                (snd (text_position s (List.length s)))].
Proof.
  intros Hs. split.
  - destruct (blank_lex Lexer.token_regex_list (ex_intro _ _ eq_refl) Lexer.body Lexer.eof
                lexer_no_empty_match) with (s := s)
      as (st & _ & Hr & Hp & _ & Hlex); [|assumption|].
    { intros n lx l c H. unfold Lexer.body, skipped in *.
      destruct (Lexer._advance_position l c lx). now rewrite H. }
    unfold Lexer.lex. rewrite Hlex, <- Hp, <- (lexer_cursor_exact s st Hr). reflexivity.
  - destruct (blank_lex Analizador.token_regex_list (ex_intro _ _ eq_refl)
                Analizador.body Analizador.eof analizador_no_empty_match) with (s := s)
      as (st & _ & Hr & Hp & Hseen & Hlex); [|assumption|].
    { intros n lx l c H. unfold Analizador.body, skipped in *.
      destruct (Analizador.advance l c lx). now rewrite H. }
    unfold Analizador.lex.
    rewrite Hlex, <- Hp, <- (analizador_cursor_exact s st Hr (skipped_tracked _ Hseen)).
    reflexivity.
Qed.

(** ** The positions of the tokens *)

Section TokenPositions.
Context {Tok : Type}.
Variable rules : list (string * regex).
Variable body : string -> text -> Z -> Z -> Z * Z * list Tok.
Variable tracked : string * text -> Prop.
Variable lexeme_of : Tok -> text.
Variable line_of col_of : Tok -> Z.

Hypothesis no_empty_match :
  Forall (fun rule => nullable (snd rule) = false) rules.
Hypothesis line_break_rule :
  Forall (fun rule => may_end CR (snd rule) = false \/ snd rule = NEWLINE_re) rules.
Hypothesis body_tracks :
  forall tok_name tok_re lexeme s line col,
    In (tok_name, tok_re) rules ->
    re_match tok_re s = Some lexeme ->
    tracked (tok_name, lexeme) ->
    fst (body tok_name lexeme line col) = advance_contract line col lexeme /\
    Forall (fun t => lexeme_of t = lexeme /\ line_of t = line /\ col_of t = col)
           (snd (body tok_name lexeme line col)).

Lemma reach_placed s st :
  Loop.reach rules body s st ->
  Forall tracked (Loop.seen st) ->
  Forall (placed lexeme_of line_of col_of s) (Loop.tokens st).
Proof.
  induction 1 as [|st st' Hr IH Hlt Hstep]; [constructor|].
  apply lex_step_some in Hstep. destruct Hstep as (n & lx & Hm & ->). simpl.
  rewrite Forall_app. intros [Hseen Hlx]. inversion Hlx as [|? ? Hgood _]; subst.
  apply Forall_app. split; [auto|].
  destruct (first_match_split rules no_empty_match _ _ _ Hm) as (Hne & rest & Hs).
  destruct (first_match_in _ _ _ _ Hm) as (r & Hin & Hre).
  destruct (body_tracks _ _ _ _ (Loop.line st) (Loop.col st) Hin Hre Hgood) as [_ Hall].
  eapply Forall_impl; [|exact Hall]. simpl. intros t (Hl & Hli & Hco).
  exists (Loop.pos st). split; [lia|]. split.
  - rewrite Hli, Hco.
    apply (cursor_exact rules body tracked no_empty_match line_break_rule); auto.
    intros n' r' lx' s' l c Hin' Hre' Hg'.
    now destruct (body_tracks _ _ _ _ l c Hin' Hre' Hg').
  - unfold occurs_at. rewrite Hl, Hs, firstn_app, Nat.sub_diag, firstn_all.
    simpl. apply app_nil_r.
Qed.

End TokenPositions.

Lemma no_cr_tracked s st :
  ~ In CR s ->
  Analizador.reach s st ->
  Forall analizador_tracked (Loop.seen st).
Proof.
  intros Hs Hr.
  destruct (reach_prefix _ _ analizador_no_empty_match _ _ Hr) as [_ Hpre].
  apply Forall_forall. intros [n lx] Hin _ Hcr. simpl in Hcr. apply Hs.
  assert (H : In CR (firstn (Loop.pos st) s)).
  { rewrite Hpre. apply in_concat. exists lx. split; [|assumption].
    apply (in_map snd) in Hin. exact Hin. }
  rewrite <- (firstn_skipn (Loop.pos st) s). apply in_or_app. now left.
Qed.

(** X4.  In the richer variant every token of a result, the EOF token
    included, carries the line and column of an offset of the source at
    which its lexeme is found. *)
Theorem lexer_tokens_placed (s : text) (toks : list Lexer.Token) :
  Lexer.lex s = Loop.Tokens toks ->
  Forall (placed Lexer.lexeme Lexer.line Lexer.col s) toks.
Proof.
  intros H. apply lex_tokens in H. destruct H as (st & Hrun & ->).
  destruct (run_done _ _ lexer_no_empty_match _ _ Hrun) as (Hr & Hp & _).
  apply Forall_app. split.
  - apply (reach_placed Lexer.token_regex_list Lexer.body (fun _ => True)
             Lexer.lexeme Lexer.line Lexer.col
             lexer_no_empty_match lexer_line_break_rule) with (st := st); auto.
    + intros n r lx s' l c _ _ _. apply lexer_tracks.
    + apply Forall_forall. auto.
  - repeat constructor. exists (List.length s). split; [lia|]. split.
    + simpl. rewrite <- Hp. now apply lexer_cursor_exact.
    + reflexivity.
Qed.

(** X5.  The minimal variant does the same on a source that has no
    carriage return. *)
Theorem analizador_tokens_placed (s : text) (toks : list Analizador.Token) :
  ~ In CR s ->
  Analizador.lex s = Loop.Tokens toks ->
  Forall (placed Analizador.lexeme Analizador.line Analizador.col s) toks.
Proof.
  intros Hcr H. apply lex_tokens in H. destruct H as (st & Hrun & ->).
  destruct (run_done _ _ analizador_no_empty_match _ _ Hrun) as (Hr & Hp & _).
  pose proof (no_cr_tracked s st Hcr Hr) as Htr.
  apply Forall_app. split.
  - apply (reach_placed Analizador.token_regex_list Analizador.body analizador_tracked
             Analizador.lexeme Analizador.line Analizador.col
             analizador_no_empty_match analizador_line_break_rule) with (st := st); auto.
    intros n r lx s' l c Hin Hre Hg. eapply analizador_tracks; eauto.
  - repeat constructor. exists (List.length s). split; [lia|]. split.
    + simpl. rewrite <- Hp. now apply analizador_cursor_exact.
    + reflexivity.
Qed.

(** ** Tokens in the order of the text *)

Lemma position_lt_trans a b c : position_lt a b -> position_lt b c -> position_lt a c.
Proof. unfold position_lt. lia. Qed.

Lemma advance_contract_forward line col lexeme :
  lexeme <> [] ->
  position_lt (line, col) (advance_contract line col lexeme).
Proof.
  intros Hne. unfold position_lt, advance_contract, len.
  destruct (break_count lexeme); cbn [fst snd]; [|lia].
  destruct lexeme; [congruence | simpl List.length; lia].
Qed.

Lemma lexer_reach_forward s st :
  Lexer.reach s st ->
  Forall (fun t => position_lt (Lexer.line t, Lexer.col t) (Loop.line st, Loop.col st))
         (Loop.tokens st) /\
  StronglySorted position_lt (map (fun t => (Lexer.line t, Lexer.col t)) (Loop.tokens st)).
Proof.
  induction 1 as [|st st' Hr [IHa IHs] Hlt Hstep]; [split; constructor|].
  apply lex_step_some in Hstep. destruct Hstep as (n & lx & Hm & ->). simpl.
  destruct (first_match_split _ lexer_no_empty_match _ _ _ Hm) as (Hne & _).
  destruct (lexer_tracks n lx (Loop.line st) (Loop.col st)) as [Hfst Hall].
  pose proof (advance_contract_forward (Loop.line st) (Loop.col st) lx Hne) as Hfw.
  rewrite <- Hfst in Hfw.
  rewrite <- (surjective_pairing (fst (Lexer.body n lx (Loop.line st) (Loop.col st)))).
  destruct (lexer_body n lx (Loop.line st) (Loop.col st)) as [_ [E | (t & E & _)]];
    rewrite E in *.
  - rewrite !app_nil_r. split; [|assumption].
    eapply Forall_impl; [|exact IHa]. simpl. intros u Hu.
    eapply position_lt_trans; eauto.
  - inversion Hall as [|? ? (_ & Hl & Hc) _]; subst. split.
    + apply Forall_app. split.
      * eapply Forall_impl; [|exact IHa]. simpl. intros u Hu.
        eapply position_lt_trans; eauto.
      * constructor; [|constructor]. rewrite Hl, Hc. assumption.
    + rewrite map_app. apply strongly_sorted_snoc; [assumption|].
      rewrite Forall_map, Hl, Hc. exact IHa.
Qed.

(** X6.  In the richer variant the tokens of a result are in the order of
    the text: from one token to any later one, the EOF token included, the
    position (line, then column) strictly grows.  No two tokens share a
    position. *)
Theorem lexer_tokens_in_text_order (s : text) (toks : list Lexer.Token) :
  Lexer.lex s = Loop.Tokens toks ->
  StronglySorted position_lt (map (fun t => (Lexer.line t, Lexer.col t)) toks).
Proof.
  intros H. apply lex_tokens in H. destruct H as (st & Hrun & ->).
  destruct (run_done _ _ lexer_no_empty_match _ _ Hrun) as (Hr & _).
  destruct (lexer_reach_forward s st Hr) as [Ha Hs].
  rewrite map_app. apply strongly_sorted_snoc; [assumption|].
  rewrite Forall_map. exact Ha.
Qed.

(** ** The categories of the tokens *)

Ltac in_list := simpl; repeat (first [left; reflexivity | right]).

Lemma lexer_category tok_name tok_re lexeme s line col :
  In (tok_name, tok_re) Lexer.token_regex_list ->
  re_match tok_re s = Some lexeme ->
  Forall (fun t =>
            In (Lexer.token t) lexer_categories /\
            ((In (Lexer.token t) keyword_categories /\
              Lexer.cadena t = "PALABRA_RESERVADA") \/
             (~ In (Lexer.token t) keyword_categories /\
              In (Lexer.token t, Lexer.cadena t) Lexer.DESCRIPTION_MAP)))
         (snd (Lexer.body tok_name lexeme line col)).
Proof.
  intros Hin _. apply (in_map fst) in Hin. simpl in Hin.
  unfold Lexer.body. destruct (Lexer._advance_position line col lexeme) as [l c].
  remember (lookup_text (lower lexeme) Lexer.KEYWORDS) as k eqn:Hk.
  each_name Hin; cbn;
    try (constructor; [|constructor]; cbn;
         split; [in_list | right; split; [simpl; intuition discriminate | in_list]]);
    try constructor.
  destruct k as [kw|].
  - symmetry in Hk. apply lookup_text_in in Hk. simpl in Hk.
    constructor; [|constructor]. cbn.
    each_name Hk; (split; [in_list | left; split; [in_list | reflexivity]]).
  - constructor; [|constructor]; cbn.
    split; [in_list | right; split; [simpl; intuition discriminate | in_list]].
Qed.

Lemma analizador_category tok_name tok_re lexeme s line col :
  In (tok_name, tok_re) Analizador.token_regex_list ->
  re_match tok_re s = Some lexeme ->
  Forall (fun t => In (Analizador.type t) analizador_categories)
         (snd (Analizador.body tok_name lexeme line col)).
Proof.
  intros Hin _. apply (in_map fst) in Hin. simpl in Hin.
  unfold Analizador.body. destruct (Analizador.advance line col lexeme) as [l c].
  remember (lookup_text (lower lexeme) Analizador.KEYWORDS) as k eqn:Hk.
  each_name Hin; cbn;
    try (constructor; [|constructor]; cbn; in_list);
    try constructor.
  destruct k as [kw|].
  - symmetry in Hk. apply lookup_text_in in Hk. simpl in Hk.
    constructor; [|constructor]. cbn.
    each_name Hk; in_list.
  - constructor; [|constructor]; cbn. in_list.
Qed.

(** X7.  The category of every token of a result is one of a fixed list:
    the nineteen keyword categories, ID, NUM, STRING, the operator and
    punctuation categories of the variant, and EOF.  In the richer variant
    the description of a token is decided by its category: the reserved
    word description for a keyword category, and otherwise the entry of
    the description table for that category, which is never missing. *)
Theorem categories_are_closed (s : text) :
  (forall toks, Lexer.lex s = Loop.Tokens toks ->
     Forall (fun t =>
               In (Lexer.token t) lexer_categories /\
               ((In (Lexer.token t) keyword_categories /\
                 Lexer.cadena t = "PALABRA_RESERVADA") \/
                (~ In (Lexer.token t) keyword_categories /\
                 In (Lexer.token t, Lexer.cadena t) Lexer.DESCRIPTION_MAP)))
            toks) /\
  (forall toks, Analizador.lex s = Loop.Tokens toks ->
     Forall (fun t => In (Analizador.type t) analizador_categories) toks).
Proof.
  split; intros toks H; apply lex_tokens in H; destruct H as (st & Hrun & ->);
    apply Forall_app; split.
  - destruct (run_done _ _ lexer_no_empty_match _ _ Hrun) as (Hr & _).
    apply (reach_tokens _ _ _ lexer_category _ _ Hr).
  - constructor; [|constructor]. cbn.
    split; [in_list | right; split; [simpl; intuition discriminate | in_list]].
  - destruct (run_done _ _ analizador_no_empty_match _ _ Hrun) as (Hr & _).
    apply (reach_tokens _ _ _ analizador_category _ _ Hr).
  - constructor; [|constructor]. cbn. in_list.
Qed.

(** ** What a lexeme holds *)

Ltac absent Hm := (eapply matches_contain; [|exact Hm]); reflexivity.

Ltac lexeme_holds Hm cat tok :=
  match goal with
  | |- Forall _ [] => constructor
  | |- Forall _ [_] =>
      constructor; [|constructor]; cbn [cat tok];
      split; [absent Hm|];
      let Hne := fresh "Hne" in
      intros Hne;
      first [ exfalso; apply Hne; reflexivity
            | split; [absent Hm | split; absent Hm] ]
  end.

Lemma lexer_lexeme_holds tok_name tok_re lexeme s line col :
  In (tok_name, tok_re) Lexer.token_regex_list ->
  re_match tok_re s = Some lexeme ->
  Forall (fun t =>
            ~ In LF (Lexer.lexeme t) /\
            (Lexer.token t <> "STRING" ->
             ~ In 32%N (Lexer.lexeme t) /\ ~ In TAB (Lexer.lexeme t) /\
             ~ In CR (Lexer.lexeme t)))
         (snd (Lexer.body tok_name lexeme line col)).
Proof.
  intros Hin Hre. apply re_match_split in Hre. destruct Hre as (rest & _ & Hm).
  unfold Lexer.body. destruct (Lexer._advance_position line col lexeme) as [l c].
  remember (lookup_text (lower lexeme) Lexer.KEYWORDS) as k eqn:Hk.
  simpl in Hin.
  repeat (destruct Hin as [Hin|Hin];
          [inversion Hin; subst tok_name tok_re; clear Hin; cbn;
           try (destruct k; cbn [snd]); lexeme_holds Hm Lexer.lexeme Lexer.token |]).
  contradiction.
Qed.

Lemma analizador_lexeme_holds tok_name tok_re lexeme s line col :
  In (tok_name, tok_re) Analizador.token_regex_list ->
  re_match tok_re s = Some lexeme ->
  Forall (fun t =>
            ~ In LF (Analizador.lexeme t) /\
            (Analizador.type t <> "STRING" ->
             ~ In 32%N (Analizador.lexeme t) /\ ~ In TAB (Analizador.lexeme t) /\
             ~ In CR (Analizador.lexeme t)))
         (snd (Analizador.body tok_name lexeme line col)).
Proof.
  intros Hin Hre. apply re_match_split in Hre. destruct Hre as (rest & _ & Hm).
  unfold Analizador.body. destruct (Analizador.advance line col lexeme) as [l c].
  remember (lookup_text (lower lexeme) Analizador.KEYWORDS) as k eqn:Hk.
  simpl in Hin.
  repeat (destruct Hin as [Hin|Hin];
          [inversion Hin; subst tok_name tok_re; clear Hin; cbn;
           try (destruct k; cbn [snd]); lexeme_holds Hm Analizador.lexeme Analizador.type |]).
  contradiction.
Qed.

(** X8.  In both variants no token holds a line feed, and only a string
    literal can hold a blank, a tab or a carriage return: every token
    other than a STRING token is free of blanks and line breaks. *)
Theorem tokens_hold_no_line_feed (s : text) :
  (forall toks, Lexer.lex s = Loop.Tokens toks ->
     Forall (fun t =>
               ~ In LF (Lexer.lexeme t) /\
               (Lexer.token t <> "STRING" ->
                ~ In 32%N (Lexer.lexeme t) /\ ~ In TAB (Lexer.lexeme t) /\
                ~ In CR (Lexer.lexeme t)))
            toks) /\
  (forall toks, Analizador.lex s = Loop.Tokens toks ->
     Forall (fun t =>
               ~ In LF (Analizador.lexeme t) /\
               (Analizador.type t <> "STRING" ->
                ~ In 32%N (Analizador.lexeme t) /\ ~ In TAB (Analizador.lexeme t) /\
                ~ In CR (Analizador.lexeme t)))
            toks).
Proof.
  split; intros toks H; apply lex_tokens in H; destruct H as (st & Hrun & ->);
    apply Forall_app; split.
  - destruct (run_done _ _ lexer_no_empty_match _ _ Hrun) as (Hr & _).
    apply (reach_tokens _ _ _ lexer_lexeme_holds _ _ Hr).
  - constructor; [|constructor]. simpl. tauto.
  - destruct (run_done _ _ analizador_no_empty_match _ _ Hrun) as (Hr & _).
    apply (reach_tokens _ _ _ analizador_lexeme_holds _ _ Hr).
  - constructor; [|constructor]. simpl. tauto.
Qed.

(** ** Advancing over a text piece by piece *)

Lemma advance_contract_app line col (a b : text) :
  ~ splits_crlf a b ->
  advance_contract line col (a ++ b) =
  advance_contract (fst (advance_contract line col a))
                   (snd (advance_contract line col a)) b.
Proof.
  intros H. destruct (break_count_app a b H) as [E1 E2].
  unfold advance_contract. rewrite E1, (E2 O%nat).
  rewrite (tail_from_split (tail_from 0 a) b).
  unfold len. rewrite length_app.
  destruct (break_count a) as [|j] eqn:Ha; destruct (break_count b) as [|k] eqn:Hb;
    cbn [fst snd Nat.add]; rewrite ?Ha, ?Hb; f_equal; lia.
Qed.

(** X9.  [_advance_position] can be applied piece by piece: advancing over
    two texts one after the other gives the cursor of advancing over
    their concatenation, unless the first ends with a carriage return and
    the second starts with a line feed (the pair then counts for one line
    break in the whole and for two in the pieces). *)
Theorem advance_position_app (line col : Z) (a b : text) :
  ~ splits_crlf a b ->
  Lexer._advance_position line col (a ++ b) =
  Lexer._advance_position (fst (Lexer._advance_position line col a))
                          (snd (Lexer._advance_position line col a)) b.
Proof.
  intros H. rewrite !lexer_advance_position. now apply advance_contract_app.
Qed.

(** ** The table of tokens *)

Lemma enumerate_length {A : Type} (l : list A) : forall start,
  List.length (enumerate start l) = List.length l.
Proof. induction l as [|x l IH]; intros start; simpl; [reflexivity | now rewrite IH]. Qed.

Lemma enumerate_nth {A : Type} (l : list A) : forall start k x,
  nth_error l k = Some x ->
  nth_error (enumerate start l) k = Some (start + Z.of_nat k, x).
Proof.
  induction l as [|y l IH]; intros start [|k] x H; simpl in *; try discriminate.
  - inversion H. now rewrite Z.add_0_r.
  - rewrite (IH _ _ _ H). f_equal. f_equal. lia.
Qed.

Ltac not_eof_text Hm :=
  first [ let E := fresh "E" in
          destruct (matches_start _ _ _ _ _ Hm) as [E|E];
          [discriminate E | vm_compute in E; discriminate E]
        | apply in_chr in Hm; destruct Hm as [Hm _]; discriminate Hm
        | apply in_cat in Hm;
          let l1 := fresh in let s1 := fresh in let l2 := fresh in
          let H1 := fresh in let H2 := fresh in let E := fresh in
          destruct Hm as (l1 & s1 & l2 & H1 & H2 & E);
          apply in_chr in H1; destruct H1 as [-> _];
          apply in_chr in H2; destruct H2 as [-> _]; discriminate E ].

(** No lexeme is the text that stands for the end of input in the table. *)
Lemma lexer_no_eof_text tok_name tok_re s :
  In (tok_name, tok_re) Lexer.token_regex_list ->
  re_match tok_re s <> Some (py "<EOF>").
Proof.
  intros Hin Hre. apply re_match_split in Hre. destruct Hre as (rest & -> & Hm).
  change (py "<EOF>" ++ rest) with (ch "<" :: (py "EOF>" ++ rest)) in Hm.
  simpl in Hin.
  repeat (destruct Hin as [Hin|Hin];
          [inversion Hin; subst tok_name tok_re; clear Hin; not_eof_text Hm |]).
  contradiction.
Qed.

Lemma lexer_shown tok_name tok_re lexeme s line col :
  In (tok_name, tok_re) Lexer.token_regex_list ->
  re_match tok_re s = Some lexeme ->
  Forall (fun t => Lexer.lexeme t <> [] /\ Lexer.lexeme t <> py "<EOF>")
         (snd (Lexer.body tok_name lexeme line col)).
Proof.
  intros Hin Hre.
  pose proof (lexer_emitted _ _ _ _ line col Hin Hre) as Hem.
  destruct (lexer_body tok_name lexeme line col) as [_ [E | (t & E & Hl & _)]];
    rewrite E in *; constructor; [|constructor].
  inversion Hem as [|? ? [Hne _] _]; subst. split; [assumption|].
  intros Heof. apply (lexer_no_eof_text _ _ s Hin). congruence.
Qed.

(** X10.  The table [mostrar_tabla] builds from a result has one row per
    token, numbered from 1, with the category, description, line and
    column of the token.  The last row, and no other, shows the stand-in
    text for the end of input as its lexeme; every other row shows the
    lexeme of its token. *)
Theorem table_rows (s : text) (toks : list Lexer.Token) :
  Lexer.lex s = Loop.Tokens toks ->
  List.length (mostrar_tabla toks) = List.length toks /\
  forall k t,
    nth_error toks k = Some t ->
    exists row,
      nth_error (mostrar_tabla toks) k = Some row /\
      numero row = Z.of_nat k + 1 /\
      fila_token row = Lexer.token t /\ fila_cadena row = Lexer.cadena t /\
      linea row = Lexer.line t /\ columna row = Lexer.col t /\
      (S k = List.length toks -> lexema row = py "<EOF>") /\
      (S k <> List.length toks ->
       lexema row = Lexer.lexeme t /\ lexema row <> py "<EOF>").
Proof.
  intros H. split.
  { unfold mostrar_tabla. now rewrite length_map, enumerate_length. }
  apply lex_tokens in H. destruct H as (st & Hrun & ->).
  destruct (run_done _ _ lexer_no_empty_match _ _ Hrun) as (Hr & _).
  pose proof (reach_tokens _ _ _ lexer_shown _ _ Hr) as Hall.
  intros k t Hk. unfold mostrar_tabla.
  rewrite (nth_error_map _ k), (enumerate_nth _ 1 k t Hk). cbn [option_map fst snd].
  eexists. split; [reflexivity|]. cbn [numero fila_token fila_cadena linea columna lexema].
  split; [lia|]. do 4 (split; [reflexivity|]).
  rewrite length_app. cbn [List.length].
  destruct (Nat.lt_ge_cases k (List.length (Loop.tokens st))) as [Hlt|Hge].
  - rewrite nth_error_app1 in Hk by assumption.
    apply nth_error_In in Hk. rewrite Forall_forall in Hall.
    destruct (Hall t Hk) as [Hne Heof].
    split; [lia|]. intros _.
    destruct (Lexer.lexeme t) eqn:E; [congruence|]. split; [reflexivity | assumption].
  - rewrite nth_error_app2 in Hk by assumption.
    destruct (k - List.length (Loop.tokens st))%nat as [|j] eqn:Ej.
    + simpl in Hk. inversion Hk; subst t. split; [reflexivity | lia].
    + simpl in Hk. destruct j; discriminate.
Qed.

(** ** The line and the caret shown for an error *)

Lemma splitlines_from_first (s : text) : forall cur : text,
  cur <> [] -> exists l ls, splitlines_from cur s = (cur ++ l) :: ls.
Proof.
  induction s as [|c s IH]; intros cur Hne.
  - exists [], []. simpl. rewrite app_nil_r. destruct cur; [congruence | reflexivity].
  - cbn [splitlines_from]. destruct (line_boundary c).
    + destruct (c =? CR)%N; [|exists [], (splitlines_from [] s); now rewrite app_nil_r].
      destruct s as [|d s]; [exists [], []; now rewrite app_nil_r|].
      destruct (d =? LF)%N; eexists [], _; now rewrite app_nil_r.
    + destruct (IH (cur ++ [c])) as (l & ls & E); [destruct cur; discriminate|].
      exists (c :: l), ls. rewrite E, <- app_assoc. reflexivity.
Qed.

(** In a text whose only line boundaries are carriage returns and line
    feeds, a character that is not one of them is in the line that the
    count of line breaks before it gives, at the index that the count of
    characters since the last line break gives. *)
Lemma splitlines_locate (s : text) : forall (cur : text) pos,
  only_lexer_breaks s ->
  (pos < List.length s)%nat ->
  line_boundary (nth pos s 0%N) = false ->
  (break_count (firstn pos s) < List.length (splitlines_from cur s))%nat /\
  (tail_from (List.length cur) (firstn pos s) <
   List.length (nth (break_count (firstn pos s)) (splitlines_from cur s) []))%nat /\
  nth (tail_from (List.length cur) (firstn pos s))
      (nth (break_count (firstn pos s)) (splitlines_from cur s) []) 0%N = nth pos s 0%N.
Proof.
  induction s as [|c s IH1 IH2] using text_ind2; intros cur pos Hs Hpos Hc.
  - simpl in Hpos. lia.
  - inversion Hs as [|? ? Hb Hs']; subst.
    destruct pos as [|p].
    + cbn [nth] in Hc. cbn [firstn break_count tail_from nth splitlines_from].
      rewrite Hc.
      destruct (splitlines_from_first s (cur ++ [c])) as (l & ls & E);
        [destruct cur; discriminate|].
      rewrite E. cbn [List.length nth]. rewrite <- app_assoc. cbn [app].
      split; [lia|]. split.
      * rewrite length_app. simpl. lia.
      * now rewrite nth_middle.
    + cbn [nth] in Hc. cbn [List.length] in Hpos.
      change (firstn (S p) (c :: s)) with (c :: firstn p s).
      change (nth (S p) (c :: s) 0%N) with (nth p s 0%N).
      rewrite break_count_cons, tail_from_cons. cbn [splitlines_from].
      destruct (line_boundary c) eqn:Hbc.
      * destruct (Hb eq_refl) as [-> | ->].
        -- change (CR =? CR)%N with true. cbv iota.
           destruct s as [|d s]; [simpl in Hpos; lia|].
           destruct (N.eqb_spec d LF) as [-> | Hd].
           ++ destruct p as [|q]; [cbn [nth] in Hc; discriminate Hc|].
              change (firstn (S q) (LF :: s)) with (LF :: firstn q s).
              cbv iota. rewrite !N.eqb_refl.
              inversion Hs' as [|? ? _ Hs'']; subst.
              cbn [tl] in IH2. cbn [nth List.length] in *.
              destruct (IH2 [] q Hs'') as (H1 & H2 & H3); [lia | assumption |].
              cbn [List.length] in H2, H3. split; [lia|]. split; assumption.
           ++ specialize (IH1 [] p Hs').
              cbn [List.length] in Hpos, IH1.
              destruct IH1 as (H1 & H2 & H3); [lia | assumption |].
              assert (E : match firstn p (d :: s) with
                          | [] => 1%nat
                          | d0 :: s'' =>
                              if (d0 =? LF)%N then S (break_count s'')
                              else S (break_count (firstn p (d :: s)))
                          end = S (break_count (firstn p (d :: s))) /\
                          match firstn p (d :: s) with
                          | [] => O
                          | d0 :: s'' =>
                              if (d0 =? LF)%N then tail_from 0 s''
                              else tail_from 0 (firstn p (d :: s))
                          end = tail_from 0 (firstn p (d :: s))).
              { destruct p as [|q]; [split; reflexivity|].
                change (firstn (S q) (d :: s)) with (d :: firstn q s).
                cbv iota beta. apply N.eqb_neq in Hd. rewrite Hd. split; reflexivity. }
              destruct E as [-> ->]. cbn [nth List.length].
              split; [lia|]. split; assumption.
        -- change (LF =? CR)%N with false. change (LF =? LF)%N with true. cbv iota.
           destruct (IH1 [] p Hs') as (H1 & H2 & H3); [lia | assumption |].
           cbn [nth List.length] in *. split; [lia|]. split; assumption.
      * assert (Hcr : (c =? CR)%N = false).
        { apply N.eqb_neq. intros ->. discriminate Hbc. }
        assert (Hlf : (c =? LF)%N = false).
        { apply N.eqb_neq. intros ->. discriminate Hbc. }
        rewrite Hcr, Hlf.
        destruct (IH1 (cur ++ [c]) p Hs') as (H1 & H2 & H3); [lia | assumption |].
        rewrite length_app in H2, H3. cbn [List.length] in H2, H3.
        rewrite Nat.add_1_r in H2, H3. split; [assumption|]. split; assumption.
Qed.

Lemma line_break_never_raises (c : char) (rest : text) :
  c = CR \/ c = LF ->
  first_match Lexer.token_regex_list (c :: rest) <> None /\
  first_match Analizador.token_regex_list (c :: rest) <> None.
Proof.
  intros Hc. split.
  - destruct (blank_first_match Lexer.token_regex_list (ex_intro _ _ eq_refl) c rest)
      as (n & lx & E & _); [tauto | congruence].
  - destruct (blank_first_match Analizador.token_regex_list (ex_intro _ _ eq_refl) c rest)
      as (n & lx & E & _); [tauto | congruence].
Qed.

Lemma nth_skipn_hd (s : text) : forall pos,
  (pos < List.length s)%nat ->
  exists rest, skipn pos s = nth pos s 0%N :: rest.
Proof.
  induction s as [|x s IH]; intros [|p] H; simpl in *; try lia; eauto.
  apply IH. lia.
Qed.

(** The character of an error is in the line of the error, at the index
    before its column. *)
Lemma error_located (s : text) pos :
  only_lexer_breaks s ->
  (pos < List.length s)%nat ->
  first_match Lexer.token_regex_list (skipn pos s) = None \/
  first_match Analizador.token_regex_list (skipn pos s) = None ->
  let line := fst (text_position s pos) in
  let col := snd (text_position s pos) in
  (1 <=? line) && (line <=? len (splitlines s)) = true /\
  (Z.to_nat (col - 1) < List.length (nth (Z.to_nat (line - 1)) (splitlines s) []))%nat /\
  nth (Z.to_nat (col - 1)) (nth (Z.to_nat (line - 1)) (splitlines s) []) 0%N =
    nth pos s 0%N /\
  0 <= col - 1.
Proof.
  intros Hs Hpos Hm.
  assert (Hc : line_boundary (nth pos s 0%N) = false).
  { destruct (line_boundary (nth pos s 0%N)) eqn:Hb; [|reflexivity]. exfalso.
    unfold only_lexer_breaks in Hs. rewrite Forall_forall in Hs.
    specialize (Hs _ (nth_In s 0%N Hpos) Hb).
    destruct (nth_skipn_hd s pos Hpos) as (rest & E). rewrite E in Hm.
    destruct (line_break_never_raises _ rest Hs) as [H1 H2].
    destruct Hm; congruence. }
  destruct (splitlines_locate s [] pos Hs Hpos Hc) as (H1 & H2 & H3).
  cbn [List.length] in H2, H3. fold (splitlines s) in H1, H2, H3.
  unfold text_position. cbn [fst snd]. unfold len.
  replace (Z.to_nat (1 + Z.of_nat (break_count (firstn pos s)) - 1))
    with (break_count (firstn pos s)) by lia.
  replace (Z.to_nat (1 + Z.of_nat (tail_from 0 (firstn pos s)) - 1))
    with (tail_from 0 (firstn pos s)) by lia.
  split; [|split; [assumption | split; [assumption | lia]]].
  apply andb_true_iff. split; [apply Z.leb_le | apply Z.leb_le]; lia.
Qed.

(** X11.  When the richer variant raises an error on a source whose only
    line boundaries are carriage returns and line feeds, [mostrar_error]
    shows a line of the source and, under it, blanks and a caret: the
    character under the caret is the unexpected character of the error. *)
Theorem caret_under_error (s : text) (c : char) (line col : Z) :
  only_lexer_breaks s ->
  Lexer.lex s = Loop.LexerError c line col ->
  exists err_line,
    In err_line (splitlines s) /\
    mostrar_error line col s =
      Some (err_line ++ [LF] ++ spaces (col - 1) ++ py "^" ++ [LF]) /\
    List.length (spaces (col - 1)) = Z.to_nat (col - 1) /\
    (Z.to_nat (col - 1) < List.length err_line)%nat /\
    nth (Z.to_nat (col - 1)) err_line 0%N = c.
Proof.
  intros Hs H. apply lexer_error_position in H.
  destruct H as (st & Hr & Hp & Hm & -> & Hpos).
  destruct (error_located s (Loop.pos st) Hs Hp (or_introl Hm)) as (H1 & H2 & H3 & H4).
  rewrite <- Hpos in H1, H2, H3, H4. cbn [fst snd] in H1, H2, H3, H4.
  exists (nth (Z.to_nat (line - 1)) (splitlines s) []).
  split; [|split; [|split; [|split]]]; try assumption.
  - apply nth_In. apply andb_true_iff in H1. destruct H1 as [Ha Hb].
    apply Z.leb_le in Ha, Hb. unfold len in Hb. lia.
  - unfold mostrar_error. rewrite H1. now rewrite Z.max_r by lia.
  - unfold spaces. apply repeat_length.
Qed.

Lemma analizador_error_position s c line col :
  ~ In CR s ->
  Analizador.lex s = Loop.LexerError c line col ->
  exists pos,
    (pos < List.length s)%nat /\
    first_match Analizador.token_regex_list (skipn pos s) = None /\
    c = nth pos s 0%N /\
    (line, col) = text_position s pos.
Proof.
  intros Hcr H. unfold Analizador.lex in H.
  apply (lex_error_iff _ _ _ analizador_no_empty_match) in H.
  destruct H as (st & Hr & Hp & Hm & Hc & -> & ->).
  exists (Loop.pos st). repeat split; auto.
  apply (analizador_cursor_exact s st Hr). exact (no_cr_tracked s st Hcr Hr).
Qed.

(** X12.  When the minimal variant raises an error on a source that has no
    carriage return and no line boundary other than line feeds, the
    handler of [main] prints a line of the source and, under it, a caret:
    the character above the caret is the unexpected character of the
    error. *)
Theorem main_caret_under_error (s : text) (c : char) (line col : Z) :
  ~ In CR s ->
  only_lexer_breaks s ->
  Analizador.lex s = Loop.LexerError c line col ->
  exists err_line,
    In err_line (splitlines s) /\
    main_error line col s =
      [py "   " ++ err_line; py "   " ++ spaces (col - 1) ++ py "^"] /\
    List.length (spaces (col - 1)) = Z.to_nat (col - 1) /\
    (Z.to_nat (col - 1) < List.length err_line)%nat /\
    nth (Z.to_nat (col - 1)) err_line 0%N = c.
Proof.
  intros Hcr Hs H. apply analizador_error_position in H; [|assumption].
  destruct H as (pos & Hp & Hm & -> & Hpos).
  destruct (error_located s pos Hs Hp (or_intror Hm)) as (H1 & H2 & H3 & H4).
  rewrite <- Hpos in H1, H2, H3, H4. cbn [fst snd] in H1, H2, H3, H4.
  exists (nth (Z.to_nat (line - 1)) (splitlines s) []).
  split; [|split; [|split; [|split]]]; try assumption.
  - apply nth_In. apply andb_true_iff in H1. destruct H1 as [Ha Hb].
    apply Z.leb_le in Ha, Hb. unfold len in Hb. lia.
  - unfold main_error. rewrite H1. reflexivity.
  - unfold spaces. apply repeat_length.
Qed.

(** ** The two number rules *)

Section LowerPart.

Lemma filter_flat_map {A B : Type} (p : B -> bool) (f : A -> list B) (l : list A) :
  filter p (flat_map f l) = flat_map (fun x => filter p (f x)) l.
Proof.
  induction l as [|x l IH]; simpl; [reflexivity|]. now rewrite filter_app, IH.
Qed.

Lemma flat_map_filter {A B : Type} (q : A -> bool) (f : A -> list B) (l : list A) :
  flat_map f (filter q l) = flat_map (fun x => if q x then f x else []) l.
Proof.
  induction l as [|x l IH]; simpl; [reflexivity|].
  destruct (q x); simpl; now rewrite IH.
Qed.

Lemma flat_map_same {A B : Type} (f g : A -> list B) (l : list A) :
  (forall x, In x l -> f x = g x) -> flat_map f l = flat_map g l.
Proof.
  induction l as [|x l IH]; intros H; simpl; [reflexivity|].
  rewrite (H x (or_introl eq_refl)), IH; [reflexivity|]. intros y Hy. apply H. now right.
Qed.

Lemma lower_marker_app (l1 l2 rest : text) :
  lower_marker (l1 ++ l2, rest) = lower_marker (l1, rest) && lower_marker (l2, rest).
Proof. unfold lower_marker. simpl. now rewrite existsb_app, negb_orb. Qed.

Lemma lower_marker_free (lx rest : text) :
  ~ In (ch "E") lx -> lower_marker (lx, rest) = true.
Proof.
  intros H. unfold lower_marker. simpl. apply negb_true_iff.
  apply not_true_iff_false. rewrite existsb_exists. intros (x & Hx & E).
  apply N.eqb_eq in E. subst. auto.
Qed.

Lemma lower_marker_in (lx rest : text) :
  lower_marker (lx, rest) = true -> ~ In (ch "E") lx.
Proof.
  unfold lower_marker. simpl. intros H Hin. apply negb_true_iff in H.
  apply not_true_iff_false in H. apply H. apply existsb_exists.
  exists (ch "E"). split; [assumption | apply N.eqb_refl].
Qed.

(** After a pattern that never matches the marker. *)
Lemma lower_part_after r r1 r2 :
  may_contain (ch "E") r = false ->
  lower_part r1 r2 -> lower_part (Cat r r1) (Cat r r2).
Proof.
  intros Hr H s. cbn [matches]. rewrite filter_flat_map.
  apply flat_map_same. intros [l1 s1] Hin. cbn [fst snd].
  rewrite (H s1).
  assert (Hfree : ~ In (ch "E") l1) by (eapply matches_contain; eauto).
  induction (matches r2 s1) as [|[l2 s2] t IH]; simpl; [reflexivity|].
  rewrite lower_marker_app, (lower_marker_free l1 s2 Hfree). cbn [andb].
  destruct (lower_marker (l2, s2)); simpl; now rewrite IH.
Qed.

(** Before a pattern that never matches the marker. *)
Lemma lower_part_before r r1 r2 :
  may_contain (ch "E") r = false ->
  lower_part r1 r2 -> lower_part (Cat r1 r) (Cat r2 r).
Proof.
  intros Hr H s. cbn [matches]. rewrite (H s), filter_flat_map, flat_map_filter.
  apply flat_map_same. intros [l1 s1] Hin. cbn [fst snd].
  assert (Hall : forall l2 s2, In (l2, s2) (matches r s1) -> ~ In (ch "E") l2)
    by (intros l2 s2 H2; eapply matches_contain; eauto).
  assert (E : forall s2, lower_marker (l1, s2) = lower_marker (l1, s1)) by reflexivity.
  destruct (lower_marker (l1, s1)) eqn:E1.
  - induction (matches r s1) as [|[l2 s2] t IH]; cbn [map filter fst snd]; [reflexivity|].
    rewrite lower_marker_app, E.
    rewrite (lower_marker_free l2 s2 (Hall l2 s2 (or_introl eq_refl))). cbn [andb].
    f_equal. apply IH. intros l s' H'. eapply Hall. right. eassumption.
  - induction (matches r s1) as [|[l2 s2] t IH]; cbn [map filter fst snd]; [reflexivity|].
    rewrite lower_marker_app, E. cbn [andb].
    apply IH. intros l s' H'. eapply Hall. right. eassumption.
Qed.

Lemma lower_part_opt r1 r2 : lower_part r1 r2 -> lower_part (Opt r1) (Opt r2).
Proof.
  intros H s. cbn [matches]. rewrite filter_app, (H s). reflexivity.
Qed.

Lemma lower_part_marker :
  lower_part (lit1 "e") (Cls (CSet false [Ch (ch "e"); Ch (ch "E")])).
Proof.
  intros [|c s]; [reflexivity|]. unfold lit1. cbn [matches one cmem existsb item_mem xorb].
  rewrite (N.eqb_sym (ch "e") c).
  destruct (N.eqb_spec c (ch "e")) as [-> | He]; [reflexivity|].
  destruct (N.eqb_spec c (ch "E")) as [-> | HE]; reflexivity.
Qed.

(** The matches of the number rule of the minimal variant are the matches
    of the number rule of the richer one that have no upper-case
    marker. *)
Lemma lower_part_NUM : lower_part Analizador.NUM_re Lexer.NUM_re.
Proof.
  unfold Analizador.NUM_re, Lexer.NUM_re, NUM_with.
  apply lower_part_after; [reflexivity|].
  apply lower_part_after; [reflexivity|].
  apply lower_part_opt.
  apply lower_part_before; [reflexivity|].
  apply lower_part_marker.
Qed.

Lemma number_rules_agree (t lexeme : text) :
  re_match Lexer.NUM_re t = Some lexeme ->
  ~ In (ch "E") lexeme ->
  re_match Analizador.NUM_re t = Some lexeme.
Proof.
  unfold re_match. rewrite (lower_part_NUM t).
  destruct (matches Lexer.NUM_re t) as [|[lx rest] tl]; [discriminate|].
  cbn [fst]. intros E Hfree. inversion E; subst.
  simpl. now rewrite (lower_marker_free lexeme rest Hfree).
Qed.

Lemma number_rules_fail (t : text) :
  re_match Lexer.NUM_re t = None -> re_match Analizador.NUM_re t = None.
Proof.
  unfold re_match. rewrite (lower_part_NUM t).
  destruct (matches Lexer.NUM_re t) as [|[lx rest] tl]; [reflexivity | discriminate].
Qed.

End LowerPart.

(** ** Where the two variants agree *)

Section Agreement.

Lemma first_match_app r1 r2 s :
  first_match (r1 ++ r2) s =
  match first_match r1 s with
  | Some m => Some m
  | None => first_match r2 s
  end.
Proof.
  induction r1 as [|[n r] r1 IH]; simpl; [reflexivity|].
  destruct (re_match r s); [reflexivity | apply IH].
Qed.

(** The rule that wins in the richer variant wins in the minimal one,
    unless it is the bare [=] or a number with an upper-case marker. *)
Lemma first_match_agree s tok_name lexeme :
  first_match Lexer.token_regex_list s = Some (tok_name, lexeme) ->
  tok_name <> "EQUAL" ->
  (tok_name = "NUM" -> ~ In (ch "E") lexeme) ->
  first_match Analizador.token_regex_list s = Some (tok_name, lexeme).
Proof.
  set (before := firstn 4 Analizador.token_regex_list).
  set (ops := firstn 2 (skipn 5 Analizador.token_regex_list)).
  set (after := skipn 7 Analizador.token_regex_list).
  change Lexer.token_regex_list
    with (before ++ [("NUM", Lexer.NUM_re)] ++ ops ++ [("EQUAL", lit1 "=")] ++ after).
  change Analizador.token_regex_list
    with (before ++ [("NUM", Analizador.NUM_re)] ++ ops ++ after).
  rewrite !first_match_app.
  destruct (first_match before s) as [m|]; [auto|].
  cbn [first_match].
  destruct (re_match Lexer.NUM_re s) as [lx|] eqn:Hn.
  - intros E _ Hfree. inversion E; subst.
    now rewrite (number_rules_agree s lexeme Hn (Hfree eq_refl)).
  - rewrite (number_rules_fail s Hn).
    destruct (first_match ops s) as [m|]; [auto|].
    destruct (re_match (lit1 "=") s) as [lx|]; [|auto].
    intros E Hne. inversion E; subst. now contradiction Hne.
Qed.

(** The categories of the two variants for the same match. *)
Lemma bodies_categories tok_name lexeme line col line' col' :
  In tok_name (map fst Analizador.token_regex_list) ->
  map Analizador.type (snd (Analizador.body tok_name lexeme line col)) =
  map (fun t => minimal_category (Lexer.token t))
      (snd (Lexer.body tok_name lexeme line' col')).
Proof.
  intros Hin. simpl in Hin.
  unfold Analizador.body, Lexer.body.
  destruct (Analizador.advance line col lexeme) as [l c].
  destruct (Lexer._advance_position line' col' lexeme) as [l0 c0].
  change Analizador.KEYWORDS with Lexer.KEYWORDS.
  remember (lookup_text (lower lexeme) Lexer.KEYWORDS) as k eqn:Hk.
  each_name Hin; cbn; try reflexivity.
  destruct k as [kw|]; [|reflexivity].
  symmetry in Hk. apply lookup_text_in in Hk. simpl in Hk.
  each_name Hk; reflexivity.
Qed.

(** On a match that the minimal variant tracks, it emits the token of the
    richer variant. *)
Lemma bodies_agree tok_name tok_re lexeme s line col :
  In (tok_name, tok_re) Analizador.token_regex_list ->
  re_match tok_re s = Some lexeme ->
  analizador_tracked (tok_name, lexeme) ->
  fst (Analizador.body tok_name lexeme line col) =
    fst (Lexer.body tok_name lexeme line col) /\
  snd (Analizador.body tok_name lexeme line col) =
    map minimal_token (snd (Lexer.body tok_name lexeme line col)).
Proof.
  intros Hin Hre Htr.
  destruct (analizador_tracks _ _ _ _ line col Hin Hre Htr) as [Ha Hta].
  destruct (lexer_tracks tok_name lexeme line col) as [Hl Htl].
  split; [congruence|].
  pose proof (bodies_categories tok_name lexeme line col line col
                (in_map fst _ _ Hin)) as Hc.
  destruct (analizador_body tok_name lexeme line col) as [_ [Ea | (ta & Ea & _)]];
    destruct (lexer_body tok_name lexeme line col) as [_ [El | (tl & El & _)]];
    rewrite Ea, El in *; try discriminate; [reflexivity|].
  inversion Hta as [|? ? (H1 & H2 & H3) _]; subst.
  inversion Htl as [|? ? (H4 & H5 & H6) _]; subst.
  simpl in Hc. inversion Hc as [Hty].
  destruct ta as [ty lx li co]. simpl in *. subst.
  reflexivity.
Qed.

(** What the richer variant emits for a number, a string literal and the
    bare [=]. *)
Lemma lexer_body_named tok_name lexeme line col :
  In tok_name ["NUM"; "STRING"; "EQUAL"] ->
  exists t, snd (Lexer.body tok_name lexeme line col) = [t] /\
            Lexer.token t = tok_name /\ Lexer.lexeme t = lexeme.
Proof.
  intros Hin. unfold Lexer.body.
  destruct (Lexer._advance_position line col lexeme) as [l c].
  each_name Hin; cbn; eexists; repeat split.
Qed.

(** One iteration. *)
Lemma variants_step s stl sta stl' :
  same_state sta stl ->
  Loop.lex_step Lexer.token_regex_list Lexer.body s stl = Some stl' ->
  Forall common_token (Loop.tokens stl') ->
  exists sta',
    Loop.lex_step Analizador.token_regex_list Analizador.body s sta = Some sta' /\
    same_state sta' stl'.
Proof.
  intros (Hp & Hli & Hco & Hse & Hto) Hstep Hall.
  apply lex_step_some in Hstep. destruct Hstep as (n & lx & Hm & ->).
  cbn [Loop.tokens] in Hall. apply Forall_app in Hall. destruct Hall as [_ Hout].
  assert (Hnamed : forall name, In name ["NUM"; "STRING"; "EQUAL"] -> n = name ->
            common_token (Lexer.MkToken name
                            (Lexer.cadena (hd (Lexer.eof 0 0)
                               (snd (Lexer.body n lx (Loop.line stl) (Loop.col stl)))))
                            lx
                            (Lexer.line (hd (Lexer.eof 0 0)
                               (snd (Lexer.body n lx (Loop.line stl) (Loop.col stl)))))
                            (Lexer.col (hd (Lexer.eof 0 0)
                               (snd (Lexer.body n lx (Loop.line stl) (Loop.col stl))))))).
  { intros name Hin ->.
    destruct (lexer_body_named name lx (Loop.line stl) (Loop.col stl) Hin)
      as (t & Et & Hn & Hl).
    rewrite Et in *. inversion Hout as [|? ? Hc _]; subst.
    destruct t; simpl in *. subst. exact Hc. }
  assert (Hne : n <> "EQUAL").
  { intros E. destruct (Hnamed "EQUAL") as (H & _); [simpl; auto | assumption |].
    now apply H. }
  assert (Hnum : n = "NUM" -> ~ In (ch "E") lx).
  { intros E. destruct (Hnamed "NUM") as (_ & H & _); [simpl; auto | assumption |].
    now apply H. }
  assert (Hstr : analizador_tracked (n, lx)).
  { intros E. simpl in E. destruct (Hnamed "STRING") as (_ & _ & H); [simpl; auto | assumption |].
    now apply H. }
  pose proof (first_match_agree _ _ _ Hm Hne Hnum) as Hma.
  destruct (first_match_in _ _ _ _ Hma) as (r & Hin & Hre).
  destruct (bodies_agree n r lx _ (Loop.line stl) (Loop.col stl) Hin Hre Hstr) as [Hf Hs].
  eexists. split.
  - apply lex_step_some. exists n, lx. rewrite Hp. split; [exact Hma | reflexivity].
  - unfold same_state. cbn [Loop.pos Loop.line Loop.col Loop.seen Loop.tokens].
    rewrite ?Hp, ?Hli, ?Hco, ?Hse, ?Hto, map_app, Hf, Hs. auto.
Qed.

Lemma lex_loop_tokens {Tok : Type} rules (body : string -> text -> Z -> Z -> Z * Z * list Tok) s :
  forall fuel st st',
    Loop.lex_loop rules body fuel s st = Loop.Done st' ->
    exists more, Loop.tokens st' = Loop.tokens st ++ more.
Proof.
  induction fuel as [|f IH]; intros st st'; simpl;
    destruct (Loop.pos st <? List.length s)%nat; try discriminate;
    try (intros E; inversion E; subst; exists []; now rewrite app_nil_r).
  destruct (Loop.lex_step rules body s st) as [st1|] eqn:Hstep; [|discriminate].
  intros E. apply IH in E. destruct E as (more & ->).
  apply lex_step_some in Hstep. destruct Hstep as (n & lx & _ & ->). simpl.
  rewrite <- app_assoc. eauto.
Qed.

(** The whole loop. *)
Lemma variants_loop s : forall fuel stl sta stl',
  same_state sta stl ->
  Loop.lex_loop Lexer.token_regex_list Lexer.body fuel s stl = Loop.Done stl' ->
  Forall common_token (Loop.tokens stl') ->
  exists sta',
    Loop.lex_loop Analizador.token_regex_list Analizador.body fuel s sta = Loop.Done sta' /\
    same_state sta' stl'.
Proof.
  induction fuel as [|f IH]; intros stl sta stl' Hsame Hrun Hall;
    pose proof Hsame as (Hp & _); simpl in *; rewrite Hp;
    destruct (Loop.pos stl <? List.length s)%nat; try discriminate;
    try (inversion Hrun; subst; eauto).
  destruct (Loop.lex_step Lexer.token_regex_list Lexer.body s stl) as [stl1|] eqn:Hstep;
    [|discriminate].
  destruct (lex_loop_tokens _ _ _ _ _ _ Hrun) as (more & Hmore).
  assert (H1 : Forall common_token (Loop.tokens stl1)).
  { rewrite Hmore in Hall. apply Forall_app in Hall. tauto. }
  destruct (variants_step s stl sta stl1 Hsame Hstep H1) as (sta1 & -> & Hsame1).
  eauto.
Qed.

End Agreement.

(** X13. Where the richer variant returns tokens none of which is a bare
    [=], a number with an upper-case exponent marker or a string literal
    that holds a carriage return, the minimal variant returns the same
    tokens: the same lexemes, lines and columns, and the same categories
    but for [EQ], [AND] and [OR] where the richer variant has [EQEQ],
    [ANDAND] and [OROR]. *)
Theorem variants_agree (s : text) (toks : list Lexer.Token) :
  Lexer.lex s = Loop.Tokens toks ->
  Forall common_token toks ->
  Analizador.lex s = Loop.Tokens (map minimal_token toks).
Proof.
  intros Hlex Hall.
  apply lex_tokens in Hlex. destruct Hlex as (stl & Hrun & ->).
  apply Forall_app in Hall. destruct Hall as [Hall _].
  destruct (variants_loop s (List.length s) Loop.init Loop.init stl) as (sta & Hra & Hsame);
    [unfold same_state; simpl; auto | exact Hrun | exact Hall |].
  apply lex_tokens. exists sta. split; [exact Hra|].
  destruct Hsame as (_ & Hli & Hco & _ & Hto).
  rewrite map_app, Hto, Hli, Hco. reflexivity.
Qed.

(** ** The rows printed by the minimal variant *)

Section PrintedRows.

Lemma rjust_length w t : List.length (rjust w t) = Nat.max w (List.length t).
Proof. unfold rjust. rewrite length_app, repeat_length. unfold char. lia. Qed.

Lemma ljust_length w t : List.length (ljust w t) = Nat.max w (List.length t).
Proof. unfold ljust. rewrite length_app, repeat_length. unfold char. lia. Qed.

Lemma one_line_blanks n : one_line (repeat 32%N n).
Proof.
  apply Forall_forall. intros c H. apply repeat_spec in H. now subst.
Qed.

Lemma one_line_forallb (t : text) :
  forallb (fun c => negb (line_boundary c)) t = true -> one_line t.
Proof.
  intros H. apply Forall_forall. intros c Hc.
  rewrite forallb_forall in H. apply negb_true_iff. auto.
Qed.

Lemma one_line_not_in (t : text) : one_line t -> ~ In LF t.
Proof.
  intros H Hin. unfold one_line in H. rewrite Forall_forall in H.
  specialize (H _ Hin). discriminate H.
Qed.

Lemma one_line_rjust w t : one_line t -> one_line (rjust w t).
Proof. intros H. apply Forall_app. split; [apply one_line_blanks | exact H]. Qed.

Lemma numbers_fit (n : Z) : -100 < n < 10000 -> fits_field n = true.
Proof.
  intros Hn.
  assert (H : forallb (fun k => fits_field (Z.of_nat k - 99)) (seq 0 (Z.to_nat 10099)) = true)
    by (vm_compute; reflexivity).
  rewrite forallb_forall in H. specialize (H (Z.to_nat (n + 99))).
  replace (Z.of_nat (Z.to_nat (n + 99)) - 99) with n in H by lia.
  apply H. apply in_seq. lia.
Qed.

Lemma categories_fit category :
  In category analizador_categories -> fits_category category = true.
Proof.
  assert (H : forallb fits_category analizador_categories = true)
    by (vm_compute; reflexivity).
  rewrite forallb_forall in H. apply H.
Qed.

Lemma shown_lexeme_length lexeme : (List.length (shown_lexeme lexeme) <= 18)%nat.
Proof.
  unfold shown_lexeme, len. destruct (Z.ltb_spec (Z.of_nat (List.length lexeme)) 18).
  - unfold char in *. lia.
  - rewrite length_app, length_firstn.
    change (List.length (py "...")) with 3%nat. unfold char in *. lia.
Qed.

Lemma shown_lexeme_holds (c : char) lexeme :
  c <> ch "." -> In c (shown_lexeme lexeme) -> In c lexeme.
Proof.
  unfold shown_lexeme. intros Hc. destruct (len lexeme <? 18); [auto|].
  intros H. apply in_app_or in H. destruct H as [H|H].
  - rewrite <- (firstn_skipn 15 lexeme). apply in_or_app. now left.
  - change (ch ".") with 46%N in Hc. simpl in H. intuition congruence.
Qed.

Lemma shown_lexeme_one_line lexeme : one_line lexeme -> one_line (shown_lexeme lexeme).
Proof.
  intros H. apply Forall_forall. intros c Hc.
  destruct (N.eqb_spec c (ch ".")) as [-> | Hne]; [reflexivity|].
  apply (shown_lexeme_holds _ _ Hne) in Hc.
  unfold one_line in H. rewrite Forall_forall in H. auto.
Qed.

Lemma occurs_after (a x rest : text) : occurs_at (a ++ x ++ rest) (List.length a) x.
Proof.
  unfold occurs_at. rewrite skipn_app, Nat.sub_diag, skipn_all. simpl.
  rewrite firstn_app, Nat.sub_diag, firstn_all. simpl. apply app_nil_r.
Qed.

Lemma occurs_skip (a r : text) n m x :
  List.length a = m -> occurs_at r n x -> occurs_at (a ++ r) (m + n) x.
Proof.
  unfold occurs_at. intros <- H. rewrite skipn_app.
  replace (List.length a + n - List.length a)%nat with n by lia.
  rewrite skipn_all2 by lia. exact H.
Qed.

(** A text without a line boundary is one line for [str.splitlines], and
    a text with one is not: its first line is shorter than the text. *)
Lemma splitlines_one_line (s : text) : forall cur : text,
  one_line s -> cur ++ s <> [] -> splitlines_from cur s = [cur ++ s].
Proof.
  induction s as [|c s IH]; intros cur Hs Hne.
  - rewrite app_nil_r in *. simpl. destruct cur; [congruence | reflexivity].
  - inversion Hs as [|? ? Hc Hs']; subst. cbn [splitlines_from]. rewrite Hc.
    rewrite (IH (cur ++ [c]) Hs').
    + now rewrite <- app_assoc.
    + destruct cur; discriminate.
Qed.

Lemma splitlines_cut (s : text) : forall cur : text,
  Exists (fun c => line_boundary c = true) s ->
  exists h tl, splitlines_from cur s = h :: tl /\
               (List.length h < List.length cur + List.length s)%nat.
Proof.
  induction s as [|c s IH]; intros cur Hs; [inversion Hs|].
  cbn [splitlines_from]. destruct (line_boundary c) eqn:Hc.
  - destruct (c =? CR)%N.
    + destruct s as [|d s'].
      * exists cur, []. split; [reflexivity | simpl; lia].
      * destruct (d =? LF)%N; eexists cur, _; (split; [reflexivity | simpl; lia]).
    + eexists cur, _. split; [reflexivity | simpl; lia].
  - inversion Hs as [? ? H | ? ? H]; subst; [congruence|].
    destruct (IH (cur ++ [c]) H) as (h & tl & E & Hlen).
    exists h, tl. split; [exact E|].
    rewrite length_app in Hlen. simpl in *. lia.
Qed.

Lemma splitlines_whole (row : text) :
  row <> [] -> (splitlines row = [row] <-> one_line row).
Proof.
  intros Hne. split.
  - intros E.
    destruct (Forall_Exists_dec (fun c => line_boundary c = false)
                (fun c => bool_dec (line_boundary c) false) row) as [H|H]; [exact H|].
    exfalso.
    assert (Hex : Exists (fun c => line_boundary c = true) row).
    { eapply Exists_impl; [|exact H]. simpl. intros c Hc.
      now apply not_false_iff_true. }
    destruct (splitlines_cut row [] Hex) as (h & tl & E' & Hlen).
    unfold splitlines in E. rewrite E in E'. inversion E'; subst. simpl in Hlen. lia.
  - intros H. apply (splitlines_one_line row [] H). exact Hne.
Qed.

(** The lexemes of the rules other than the string literal hold no line
    boundary. *)
Lemma matches_one_line r s lx rest :
  no_boundary r = true -> In (lx, rest) (matches r s) -> one_line lx.
Proof.
  intros Hr Hm. apply Forall_forall. intros c Hc.
  destruct (line_boundary c) eqn:E; [exfalso | reflexivity].
  unfold line_boundary in E. apply existsb_exists in E. destruct E as (b & Hb & Hcb).
  apply N.eqb_eq in Hcb. subst b.
  unfold no_boundary in Hr. rewrite forallb_forall in Hr.
  specialize (Hr c Hb). apply negb_true_iff in Hr.
  exact (matches_contain r c s lx rest Hr Hm Hc).
Qed.

Ltac lexeme_one_line Hm :=
  match goal with
  | |- Forall _ [] => constructor
  | |- Forall _ [_] =>
      constructor; [|constructor]; cbn [Analizador.lexeme Analizador.type];
      let Hne := fresh "Hne" in
      intros Hne;
      first [ exfalso; apply Hne; reflexivity
            | eapply matches_one_line; [|exact Hm]; reflexivity ]
  end.

Lemma analizador_lexeme_lines tok_name tok_re lexeme s line col :
  In (tok_name, tok_re) Analizador.token_regex_list ->
  re_match tok_re s = Some lexeme ->
  Forall (fun t => Analizador.type t <> "STRING" -> one_line (Analizador.lexeme t))
         (snd (Analizador.body tok_name lexeme line col)).
Proof.
  intros Hin Hre. apply re_match_split in Hre. destruct Hre as (rest & _ & Hm).
  unfold Analizador.body. destruct (Analizador.advance line col lexeme) as [l c].
  remember (lookup_text (lower lexeme) Analizador.KEYWORDS) as k eqn:Hk.
  simpl in Hin.
  repeat (destruct Hin as [Hin|Hin];
          [inversion Hin; subst tok_name tok_re; clear Hin; cbn;
           try (destruct k; cbn [snd]); lexeme_one_line Hm |]).
  contradiction.
Qed.

(** What every token of the minimal variant has. *)
Lemma analizador_printable s toks :
  Analizador.lex s = Loop.Tokens toks ->
  Forall (fun t => In (Analizador.type t) analizador_categories /\
                   ~ In LF (Analizador.lexeme t) /\ 1 <= Analizador.line t /\
                   (Analizador.type t <> "STRING" -> one_line (Analizador.lexeme t)))
         toks.
Proof.
  intros H. apply lex_tokens in H. destruct H as (st & Hrun & ->).
  destruct (run_done _ _ analizador_no_empty_match _ _ Hrun) as (Hr & _).
  pose proof (reach_tokens _ _ _ analizador_category _ _ Hr) as H1.
  pose proof (reach_tokens _ _ _ analizador_lexeme_holds _ _ Hr) as H2.
  pose proof (reach_tokens _ _ _ analizador_lexeme_lines _ _ Hr) as H4.
  destruct (reach_line_order _ _ _ analizador_body_order _ _ Hr) as (Hl & _ & H3 & _).
  apply Forall_app. split.
  - rewrite Forall_forall in *. intros t Ht.
    specialize (H1 t Ht). specialize (H2 t Ht). specialize (H3 t Ht).
    specialize (H4 t Ht). simpl in *.
    repeat split; [assumption | tauto | lia | assumption].
  - constructor; [|constructor]. cbn.
    repeat split; [in_list | tauto | assumption | intros _; constructor].
Qed.

End PrintedRows.

(** X14. The table printed by the minimal variant has one row for each
    token after its two heading lines.  For a token numbered below 1000
    whose line is below 10000 and whose column is between -99 and 999, the
    row has 48 characters and no line feed: it starts with the number of
    the token, right-aligned in three characters, has the category at
    offset 5 and the lexeme at offset 17, cut to its first 15 characters
    and three dots when it has 18 characters or more.  The row is one
    line for [str.splitlines] exactly when the lexeme as shown holds no
    line boundary, which is so for every token other than a string
    literal: a string literal can hold a carriage return or a form feed,
    and its row is then cut there. *)
Theorem printed_rows_aligned (s : text) (toks : list Analizador.Token) :
  Analizador.lex s = Loop.Tokens toks ->
  List.length (print_tokens toks) = (2 + List.length toks)%nat /\
  forall k t,
    nth_error toks k = Some t ->
    (k < 999)%nat ->
    Analizador.line t < 10000 ->
    -100 < Analizador.col t < 1000 ->
    exists row,
      nth_error (print_tokens toks) (2 + k) = Some row /\
      List.length row = 48%nat /\
      ~ In LF row /\
      firstn 3 row = rjust 3 (str_int (Z.of_nat k + 1)) /\
      occurs_at row 5 (py (Analizador.type t)) /\
      occurs_at row 17 (shown_lexeme (Analizador.lexeme t)) /\
      (splitlines row = [row] <-> one_line (shown_lexeme (Analizador.lexeme t))) /\
      (Analizador.type t <> "STRING" -> splitlines row = [row]).
Proof.
  intros H. split.
  { unfold print_tokens. cbn [List.length]. now rewrite length_map, enumerate_length. }
  pose proof (analizador_printable s toks H) as Hall. rewrite Forall_forall in Hall.
  intros k t Hk Hlt Hline Hcol.
  destruct (Hall t (nth_error_In _ _ Hk)) as (Hcat & Hlf & Hl1 & Hone).
  unfold print_tokens. cbn [nth_error Nat.add].
  rewrite (nth_error_map _ k), (enumerate_nth _ 1 k t Hk). cbn [option_map fst snd].
  eexists. split; [reflexivity|].
  replace (1 + Z.of_nat k) with (Z.of_nat k + 1) by lia.
  pose proof (numbers_fit (Z.of_nat k + 1) ltac:(lia)) as Hi.
  pose proof (numbers_fit (Analizador.line t) ltac:(lia)) as Hli.
  pose proof (numbers_fit (Analizador.col t) ltac:(lia)) as Hco.
  pose proof (categories_fit _ Hcat) as Hty.
  unfold fits_field in Hi, Hli, Hco. unfold fits_category in Hty.
  apply andb_true_iff in Hi, Hli, Hco, Hty.
  destruct Hi as [Hi Hi'], Hli as [Hli Hli'], Hco as [Hco Hco'], Hty as [Hty Hty'].
  apply Nat.leb_le in Hi, Hli, Hco, Hty.
  apply one_line_forallb in Hi', Hli', Hco', Hty'.
  destruct (Z.ltb_spec (Z.of_nat k + 1) 1000) as [_|]; [|lia].
  destruct (Z.ltb_spec (Analizador.col t) 1000) as [_|]; [|lia].
  assert (Hli4 : (List.length (str_int (Analizador.line t)) <= 4)%nat)
    by (destruct (Analizador.line t <? 1000); lia).
  pose proof (shown_lexeme_length (Analizador.lexeme t)) as Hsh.
  assert (Hdot : LF <> ch ".") by discriminate.
  assert (Hshown : Analizador.type t <> "STRING" ->
                   one_line (shown_lexeme (Analizador.lexeme t)))
    by (intros Hne; apply shown_lexeme_one_line; auto).
  unfold print_row, ljust.
  set (f1 := rjust 3 (str_int (Z.of_nat k + 1))).
  set (ty := py (Analizador.type t)) in *.
  set (p2 := repeat 32%N (10 - List.length ty)).
  set (sh := shown_lexeme (Analizador.lexeme t)) in *.
  set (p3 := repeat 32%N (20 - List.length sh)).
  set (f4 := rjust 4 (str_int (Analizador.line t))).
  set (f5 := rjust 3 (str_int (Analizador.col t))).
  assert (L1 : List.length f1 = 3%nat) by (unfold f1; rewrite rjust_length; lia).
  assert (L2 : (List.length ty + List.length p2 = 10)%nat)
    by (unfold p2; rewrite repeat_length; lia).
  assert (L3 : (List.length sh + List.length p3 = 20)%nat)
    by (unfold p3; rewrite repeat_length; lia).
  assert (L4 : List.length f4 = 4%nat) by (unfold f4; rewrite rjust_length; lia).
  assert (L5 : List.length f5 = 3%nat) by (unfold f5; rewrite rjust_length; lia).
  assert (O1 : one_line f1) by (apply one_line_rjust; assumption).
  assert (O2 : one_line p2) by apply one_line_blanks.
  assert (O3 : one_line p3) by apply one_line_blanks.
  assert (O4 : one_line f4) by (apply one_line_rjust; assumption).
  assert (O5 : one_line f5) by (apply one_line_rjust; assumption).
  assert (Osep : one_line (py "  ")) by (repeat constructor).
  assert (Nsh : ~ In LF sh)
    by (intros Hin; apply (shown_lexeme_holds _ _ Hdot) in Hin; auto).
  pose proof (one_line_not_in _ O1) as N1. pose proof (one_line_not_in _ O2) as N2.
  pose proof (one_line_not_in _ O3) as N3. pose proof (one_line_not_in _ O4) as N4.
  pose proof (one_line_not_in _ O5) as N5. pose proof (one_line_not_in _ Hty') as Nty.
  pose proof (one_line_not_in _ Osep) as Nsep.
  clearbody f1 ty p2 sh p3 f4 f5.
  set (row := f1 ++ py "  " ++ (ty ++ p2) ++ py "  " ++ (sh ++ p3) ++ py "  " ++
              f4 ++ py "  " ++ f5).
  assert (Hlen : List.length row = 48%nat).
  { unfold row. rewrite !length_app, L1, L4, L5.
    change (List.length (py "  ")) with 2%nat. unfold char in *. lia. }
  assert (Hrow : one_line row <-> one_line sh).
  { unfold row, one_line in *. rewrite !Forall_app. tauto. }
  assert (Hwhole : splitlines row = [row] <-> one_line sh).
  { rewrite <- Hrow. apply splitlines_whole. intros E. rewrite E in Hlen. discriminate. }
  split; [exact Hlen|]. split; [|split; [|split; [|split; [|split]]]].
  - unfold row. rewrite !in_app_iff. tauto.
  - unfold row. rewrite firstn_app, L1, Nat.sub_diag. simpl firstn at 2. rewrite app_nil_r.
    rewrite <- L1. apply firstn_all.
  - unfold row. apply (occurs_skip f1 _ 2 3 _ L1).
    apply (occurs_skip (py "  ") _ 0 2 _ eq_refl).
    rewrite <- app_assoc. apply (occurs_after [] ty).
  - unfold row. apply (occurs_skip f1 _ 14 3 _ L1).
    apply (occurs_skip (py "  ") _ 12 2 _ eq_refl).
    apply (occurs_skip (ty ++ p2) _ 2 10); [rewrite length_app; exact L2|].
    apply (occurs_skip (py "  ") _ 0 2 _ eq_refl).
    rewrite <- app_assoc. apply (occurs_after [] sh).
  - exact Hwhole.
  - intros Hne. apply Hwhole. auto.
Qed.

(** ** Instances of the further properties *)

Lemma lines_never_decrease_witness :
  exists toks,
    Lexer.lex two_lines = Loop.Tokens toks /\
    StronglySorted Z.le (map Lexer.line toks).
Proof.
  destruct (lines_never_decrease two_lines) as (_ & _ & H & _).
  eexists. split; [vm_compute; reflexivity|].
  apply H. vm_compute. reflexivity.
Defined.

Lemma tokens_are_kept_lexemes_witness :
  exists toks,
    Analizador.lex two_lines = Loop.Tokens toks /\
    map Analizador.lexeme toks =
    map snd (filter (fun m => negb (skipped (fst m))) (Analizador.matched two_lines)) ++ [[]].
Proof.
  destruct (tokens_are_kept_lexemes two_lines) as [_ H].
  eexists. split; [vm_compute; reflexivity|].
  apply H. vm_compute. reflexivity.
Defined.

Lemma blank_text_gives_eof_witness :
  blank_text [32%N; TAB; CR; LF; 32%N] /\
  Lexer.lex [32%N; TAB; CR; LF; 32%N] = Loop.Tokens [Lexer.eof 2 2].
Proof.
  assert (H : blank_text [32%N; TAB; CR; LF; 32%N])
    by (unfold blank_text; repeat (apply Forall_cons; [auto 6|]); apply Forall_nil).
  split; [exact H|].
  destruct (blank_text_gives_eof _ H) as [E _]. exact E.
Defined.

Lemma lexer_tokens_placed_witness :
  exists toks,
    Lexer.lex two_lines = Loop.Tokens toks /\
    Forall (placed Lexer.lexeme Lexer.line Lexer.col two_lines) toks.
Proof.
  eexists. split; [vm_compute; reflexivity|].
  apply (lexer_tokens_placed two_lines). vm_compute. reflexivity.
Defined.

Lemma analizador_tokens_placed_witness :
  ~ In CR two_lines /\
  exists toks,
    Analizador.lex two_lines = Loop.Tokens toks /\
    Forall (placed Analizador.lexeme Analizador.line Analizador.col two_lines) toks.
Proof.
  assert (H : ~ In CR two_lines) by (vm_compute; intuition discriminate).
  split; [exact H|].
  eexists. split; [vm_compute; reflexivity|].
  apply (analizador_tokens_placed two_lines _ H). vm_compute. reflexivity.
Defined.

Lemma lexer_tokens_in_text_order_witness :
  exists toks,
    Lexer.lex two_lines = Loop.Tokens toks /\
    StronglySorted position_lt (map (fun t => (Lexer.line t, Lexer.col t)) toks).
Proof.
  eexists. split; [vm_compute; reflexivity|].
  apply (lexer_tokens_in_text_order two_lines). vm_compute. reflexivity.
Defined.

Lemma categories_are_closed_witness :
  exists toks,
    Analizador.lex two_lines = Loop.Tokens toks /\
    Forall (fun t => In (Analizador.type t) analizador_categories) toks.
Proof.
  destruct (categories_are_closed two_lines) as [_ H].
  eexists. split; [vm_compute; reflexivity|].
  apply H. vm_compute. reflexivity.
Defined.

Lemma tokens_hold_no_line_feed_witness :
  exists toks,
    Lexer.lex two_lines = Loop.Tokens toks /\
    Forall (fun t =>
              ~ In LF (Lexer.lexeme t) /\
              (Lexer.token t <> "STRING" ->
               ~ In 32%N (Lexer.lexeme t) /\ ~ In TAB (Lexer.lexeme t) /\
               ~ In CR (Lexer.lexeme t)))
           toks.
Proof.
  destruct (tokens_hold_no_line_feed two_lines) as [H _].
  eexists. split; [vm_compute; reflexivity|].
  apply H. vm_compute. reflexivity.
Defined.

Lemma advance_position_app_witness :
  ~ splits_crlf [ch "a"; CR] [ch "b"; LF] /\
  Lexer._advance_position 1 1 ([ch "a"; CR] ++ [ch "b"; LF]) =
  Lexer._advance_position (fst (Lexer._advance_position 1 1 [ch "a"; CR]))
                          (snd (Lexer._advance_position 1 1 [ch "a"; CR]))
                          [ch "b"; LF].
Proof.
  assert (H : ~ splits_crlf [ch "a"; CR] [ch "b"; LF])
    by (intros (a' & b' & _ & E); discriminate E).
  split; [exact H|].
  exact (advance_position_app 1 1 _ _ H).
Defined.

Lemma table_rows_witness :
  exists toks,
    Lexer.lex two_lines = Loop.Tokens toks /\
    List.length (mostrar_tabla toks) = List.length toks.
Proof.
  eexists. split; [vm_compute; reflexivity|].
  apply (table_rows two_lines). vm_compute. reflexivity.
Defined.

Lemma caret_under_error_witness :
  only_lexer_breaks [ch "x"; 32%N; ch "@"] /\
  Lexer.lex [ch "x"; 32%N; ch "@"] = Loop.LexerError (ch "@") 1 3 /\
  exists err_line,
    mostrar_error 1 3 [ch "x"; 32%N; ch "@"] =
      Some (err_line ++ [LF] ++ spaces (3 - 1) ++ py "^" ++ [LF]) /\
    nth (Z.to_nat (3 - 1)) err_line 0%N = ch "@".
Proof.
  assert (H : only_lexer_breaks [ch "x"; 32%N; ch "@"])
    by (unfold only_lexer_breaks;
        repeat (apply Forall_cons; [intros E; discriminate E|]); apply Forall_nil).
  assert (E : Lexer.lex [ch "x"; 32%N; ch "@"] = Loop.LexerError (ch "@") 1 3)
    by (vm_compute; reflexivity).
  split; [exact H|]. split; [exact E|].
  destruct (caret_under_error _ _ _ _ H E) as (err_line & _ & H1 & _ & _ & H2).
  exists err_line. split; assumption.
Defined.

Lemma main_caret_under_error_witness :
  ~ In CR [ch "x"; 32%N; ch "@"] /\
  only_lexer_breaks [ch "x"; 32%N; ch "@"] /\
  Analizador.lex [ch "x"; 32%N; ch "@"] = Loop.LexerError (ch "@") 1 3 /\
  exists err_line,
    main_error 1 3 [ch "x"; 32%N; ch "@"] =
      [py "   " ++ err_line; py "   " ++ spaces (3 - 1) ++ py "^"] /\
    nth (Z.to_nat (3 - 1)) err_line 0%N = ch "@".
Proof.
  assert (Hcr : ~ In CR [ch "x"; 32%N; ch "@"]) by (simpl; intuition discriminate).
  assert (H : only_lexer_breaks [ch "x"; 32%N; ch "@"])
    by (unfold only_lexer_breaks;
        repeat (apply Forall_cons; [intros E; discriminate E|]); apply Forall_nil).
  assert (E : Analizador.lex [ch "x"; 32%N; ch "@"] = Loop.LexerError (ch "@") 1 3)
    by (vm_compute; reflexivity).
  split; [exact Hcr|]. split; [exact H|]. split; [exact E|].
  destruct (main_caret_under_error _ _ _ _ Hcr H E) as (err_line & _ & H1 & _ & _ & H2).
  exists err_line. split; assumption.
Defined.

Lemma variants_agree_witness :
  exists toks,
    Lexer.lex (py "a==1") = Loop.Tokens toks /\
    Forall common_token toks /\
    Analizador.lex (py "a==1") = Loop.Tokens (map minimal_token toks).
Proof.
  assert (E : Lexer.lex (py "a==1") =
              Loop.Tokens [Lexer.MkToken "ID" "IDENTIFICADOR" (py "a") 1 1;
                           Lexer.MkToken "EQEQ" "IGUAL_IGUAL" (py "==") 1 2;
                           Lexer.MkToken "NUM" "NUMERO" (py "1") 1 4;
                           Lexer.eof 1 5])
    by (vm_compute; reflexivity).
  assert (H : Forall common_token
                [Lexer.MkToken "ID" "IDENTIFICADOR" (py "a") 1 1;
                 Lexer.MkToken "EQEQ" "IGUAL_IGUAL" (py "==") 1 2;
                 Lexer.MkToken "NUM" "NUMERO" (py "1") 1 4;
                 Lexer.eof 1 5]).
  { repeat (apply Forall_cons;
            [unfold common_token; cbn;
             split; [discriminate | split; intros Hn; first [discriminate Hn | intuition discriminate]] |]).
    apply Forall_nil. }
  eexists. split; [exact E|]. split; [exact H|].
  exact (variants_agree _ _ E H).
Defined.

Lemma printed_rows_aligned_witness :
  exists toks,
    Analizador.lex [QUOTE; ch "a"; 12%N; ch "b"; QUOTE] = Loop.Tokens toks /\
    exists t row,
      nth_error toks 0 = Some t /\
      nth_error (print_tokens toks) 2 = Some row /\
      List.length row = 48%nat /\
      ~ In LF row /\
      splitlines row <> [row].
Proof.
  assert (E : Analizador.lex [QUOTE; ch "a"; 12%N; ch "b"; QUOTE] =
              Loop.Tokens [Analizador.MkToken "STRING" [QUOTE; ch "a"; 12%N; ch "b"; QUOTE] 1 1;
                           Analizador.eof 1 6])
    by (vm_compute; reflexivity).
  eexists. split; [exact E|].
  destruct (printed_rows_aligned _ _ E) as [_ H].
  destruct (H 0%nat (Analizador.MkToken "STRING" [QUOTE; ch "a"; 12%N; ch "b"; QUOTE] 1 1))
    as (row & H1 & H2 & H3 & _ & _ & _ & H4 & _);
    [reflexivity | lia | reflexivity | split; reflexivity |].
  exists (Analizador.MkToken "STRING" [QUOTE; ch "a"; 12%N; ch "b"; QUOTE] 1 1), row.
  split; [reflexivity|]. split; [assumption|]. split; [assumption|]. split; [assumption|].
  intros Hone. apply H4 in Hone. cbn in Hone.
  inversion Hone as [|? ? _ Hone1]; subst.
  inversion Hone1 as [|? ? _ Hone2]; subst.
  inversion Hone2 as [|? ? Hff _]; subst.
  discriminate Hff.
Defined.
